(** * equal-teams-solver: disjoint equal-sum 5-subsets, checker CLI and CEGAR driver

    A shallow embedding of [equal_teams_solver.py] and [example_checker.py].
    Python integers are [Z], tuples of indices are [list nat], the
    dictionaries [TEAMS_CACHE] and [by_sum] are [gmap]s, exceptions are the
    [Raise] branch of a small error monad, and module-level state (the
    subset cache) is passed explicitly. *)

From Stdlib Require Import ZArith Arith Factorial List Ascii String Lia.
From stdpp Require Import base option list gmap strings sorting.

Open Scope Z_scope.

(** ** Exceptions *)

Inductive exn : Type :=
  | IndexError
  | TimeoutError (N : nat)
  | ValueError.

Inductive result (A : Type) : Type :=
  | Ok (a : A)
  | Raise (e : exn).
Arguments Ok {A} a.
Arguments Raise {A} e.

#[global] Instance result_ret : MRet result := fun _ a => Ok a.
#[global] Instance result_bind : MBind result := fun _ _ k r =>
  match r with
  | Ok a => k a
  | Raise e => Raise e
  end.

(** ** itertools.combinations and range *)

(** [combinations pool r]: the [r]-length subsequences of [pool], emitted
    in the lexicographic order of their positions, as itertools does. *)
Fixpoint combinations {A : Type} (pool : list A) (r : nat) {struct pool}
  : list (list A) :=
  match r with
  | O => [[]]
  | S r' =>
      match pool with
      | [] => []
      | x :: pool' =>
          map (cons x) (combinations pool' r') ++ combinations pool' r
      end
  end.

Definition range (N : nat) : list nat := seq 0 N.

(** ** SubsetEnumerator: get_5_subsets with its module-level cache *)

Abbreviation team := (list nat).
Abbreviation TEAMS_CACHE := (gmap nat (list team)).

Definition get_5_subsets (N : nat) (cache : TEAMS_CACHE)
  : list team * TEAMS_CACHE :=
  match cache !! N with
  | Some teams => (teams, cache)
  | None =>
      let teams := combinations (range N) 5 in
      (teams, <[N := teams]> cache)
  end.

(** The only writer of the cache is [get_5_subsets]; every state it can
    reach satisfies [cache_ok]. *)
Definition cache_ok (cache : TEAMS_CACHE) : Prop :=
  ∀ N teams, cache !! N = Some teams → teams = combinations (range N) 5.

(** ** DisjointEqualSumFinder: find_equal_pair *)

(** [sum(scores[i] for i in T)]: a left fold from 0; [scores[i]] raises
    IndexError past the end of the list. *)
Fixpoint sum_from (acc : Z) (scores : list Z) (T : team) : result Z :=
  match T with
  | [] => Ok acc
  | i :: T' =>
      match scores !! i with
      | Some x => sum_from (acc + x) scores T'
      | None => Raise IndexError
      end
  end.

Definition sum_scores (scores : list Z) (T : team) : result Z :=
  sum_from 0 scores T.

(** [set(T).isdisjoint(U)] *)
Definition isdisjoint (T U : team) : bool :=
  forallb (fun u => negb (bool_decide (u ∈ T))) U.

(** [by_sum.get(s, [])] *)
Definition bucket (by_sum : gmap Z (list team)) (s : Z) : list team :=
  default [] (by_sum !! s).

(** The body of [for T in get_5_subsets(len(scores))]. *)
Fixpoint scan_teams (scores : list Z) (by_sum : gmap Z (list team))
    (teams : list team) : result (option (team * team)) :=
  match teams with
  | [] => Ok None
  | T :: rest =>
      s ← sum_scores scores T;
      match List.find (isdisjoint T) (bucket by_sum s) with
      | Some U => Ok (Some (T, U))
      | None => scan_teams scores (<[s := bucket by_sum s ++ [T]]> by_sum) rest
      end
  end.

Definition find_equal_pair (scores : list Z) (cache : TEAMS_CACHE)
  : result (option (team * team)) * TEAMS_CACHE :=
  let '(teams, cache') := get_5_subsets (length scores) cache in
  (scan_teams scores ∅ teams, cache').

(** *** Reference notions used to state what the finder computes *)

(** A 5-element index subset of a sequence of length [n], as a duplicate-free
    list of indices. *)
Definition index_subset (n : nat) (T : team) : Prop :=
  NoDup T ∧ length T = 5%nat ∧ ∀ i, i ∈ T → (i < n)%nat.

Definition disjoint_teams (T U : team) : Prop := ∀ i, i ∈ T → i ∉ U.

(** The sum of the values at the indices of [T] (0 for an index out of
    range, which [index_subset] excludes). *)
Definition tsum (scores : list Z) (T : team) : Z :=
  foldr (fun i acc => default 0 (scores !! i) + acc) 0 T.

(** The first earlier subset, in enumeration order, with the sum of [T] and
    disjoint from [T]. *)
Definition first_match (scores : list Z) (earlier : list team) (T : team)
  : option team :=
  List.find (isdisjoint T)
    (filter (fun U => tsum scores U = tsum scores T) earlier).

(** ** The standalone checker (example_checker.py) *)

(** A Python [str] is a list of characters; a character is a code point
    below 256. *)
Abbreviation str := (list ascii).

Definition code (c : ascii) : nat := nat_of_ascii c.

(** [str.isspace] on the code points below 256. *)
Definition isspace (c : ascii) : bool :=
  let n := code c in
  ((9 <=? n) && (n <=? 13) || (28 <=? n) && (n <=? 32)
   || (n =? 133) || (n =? 160))%nat.

(** The regular expression class [\d] on the code points below 256. *)
Definition isdigit (c : ascii) : bool :=
  let n := code c in ((48 <=? n) && (n <=? 57))%nat.

Definition is_sign (c : ascii) : bool :=
  ((code c =? 43) || (code c =? 45))%nat.

(** [s.split(sep)] for a one-character separator. *)
Fixpoint split (sep : ascii) (s : str) : list str :=
  match s with
  | [] => [[]]
  | c :: s' =>
      if bool_decide (c = sep) then [] :: split sep s'
      else match split sep s' with
           | [] => [[c]]
           | part :: parts => (c :: part) :: parts
           end
  end.

Fixpoint lstrip (s : str) : str :=
  match s with
  | [] => []
  | c :: s' => if isspace c then lstrip s' else s
  end.

(** [s.strip()] *)
Definition strip (s : str) : str := rev (lstrip (rev (lstrip s))).

Fixpoint take_digits (s : str) : str :=
  match s with
  | [] => []
  | c :: s' => if isdigit c then c :: take_digits s' else []
  end.

(** [\d+] at the head of [s]: the longest non-empty run of digits. *)
Definition match_digits (s : str) : option str :=
  match take_digits s with
  | [] => None
  | ds => Some ds
  end.

(** [re.match(r'^([+-]?\d+)', s)], giving group 1: the sign is tried first
    and given up when no digit follows it. *)
Definition re_match_int (s : str) : option str :=
  match s with
  | c :: s' =>
      if is_sign c then
        match match_digits s' with
        | Some ds => Some (c :: ds)
        | None => match_digits s
        end
      else match_digits s
  | [] => match_digits s
  end.

Definition digit_value (c : ascii) : Z := Z.of_nat (code c) - 48.

Definition int_of_digits (ds : str) : Z :=
  fold_left (fun acc c => 10 * acc + digit_value c) ds 0.

(** The default of [sys.get_int_max_str_digits()]: the longest run of
    digits that [int] converts. *)
Definition int_max_str_digits : Z := 4300.

(** The digits of a text matched by [re_match_int]: the text without its
    sign. *)
Definition digits_of (text : str) : str :=
  match text with
  | c :: ds => if is_sign c then ds else text
  | [] => []
  end.

(** [int(text)] on a text matched by [re_match_int]. Python integers are
    unbounded, but [int] raises ValueError for a text of more than
    [int_max_str_digits] digits, the sign not counted. *)
Definition int (text : str) : result Z :=
  if int_max_str_digits <? Z.of_nat (length (digits_of text)) then
    Raise ValueError
  else
    Ok match text with
       | c :: ds =>
           if (code c =? 45)%nat then - int_of_digits ds
           else if (code c =? 43)%nat then int_of_digits ds
           else int_of_digits text
       | [] => 0
       end.

Definition parse_int_prefix (s : str) : result (option Z) :=
  match re_match_int s with
  | Some text => v ← int text; Ok (Some v)
  | None => Ok None
  end.

(** What the checker prints, one constructor per [print] call. *)
Inductive line : Type :=
  | Usage (argv0 : str)
  | Warning (part : str)
  | Parsed (n : nat) (values : list Z)
  | ErrorTooFew
  | Found (s : Z) (prev combo : team) (prev_values combo_values : list Z)
  | NoPair.

Inductive termination : Type :=
  | Returned
  | SysExit (code : Z)
  | Uncaught (e : exn).

Record process : Type := {
  stdout : list line;
  how : termination
}.

Definition exit_status (p : process) : Z :=
  match how p with
  | Returned => 0
  | SysExit c => c
  | Uncaught _ => 1
  end.

(** A [for] loop whose body may raise: the state reached, and the
    exception that ended the loop, if one did. *)
Fixpoint for_each {A S : Type} (body : S → A → S * option exn) (st : S)
    (xs : list A) : S * option exn :=
  match xs with
  | [] => (st, None)
  | x :: xs' =>
      match body st x with
      | (st', None) => for_each body st' xs'
      | (st', Some e) => (st', Some e)
      end
  end.

(** The body of [for part in arg.split(',')], on the pair of the lines
    printed so far and the list [values]; an exception of
    [parse_int_prefix] leaves both as they are. *)
Definition parse_part (acc : list line * list Z) (part : str)
  : (list line * list Z) * option exn :=
  let part := strip part in
  match part with
  | [] => (acc, None)
  | _ =>
      match parse_int_prefix part with
      | Raise e => (acc, Some e)
      | Ok None => ((acc.1 ++ [Warning part], acc.2), None)
      | Ok (Some val) => ((acc.1, acc.2 ++ [val]), None)
      end
  end.

Definition comma : ascii := ascii_of_nat 44.

Definition parse_arg (acc : list line * list Z) (arg : str)
  : (list line * list Z) * option exn :=
  for_each parse_part acc (split comma arg).

(** The two nested parsing loops of [main]: the lines printed, the list
    [values], and the exception that ended the parsing, if one did. *)
Definition parse_args (args : list str)
  : (list line * list Z) * option exn :=
  for_each parse_arg ([], []) args.

(** [[values[i] for i in combo]] *)
Fixpoint values_at (values : list Z) (combo : team) : result (list Z) :=
  match combo with
  | [] => Ok []
  | i :: combo' =>
      match values !! i with
      | Some x => xs ← values_at values combo'; Ok (x :: xs)
      | None => Raise IndexError
      end
  end.

(** The scan of [main], [for combo in combinations(range(len(values)), 5)].
    It reports [prev] before [combo]. *)
Fixpoint scan_combos (values : list Z) (sum_to_combos : gmap Z (list team))
    (combos : list team) : result (list line) :=
  match combos with
  | [] => Ok [NoPair]
  | combo :: rest =>
      s ← sum_scores values combo;
      match sum_to_combos !! s with
      | Some prevs =>
          match List.find (fun prev => isdisjoint prev combo) prevs with
          | Some prev =>
              vp ← values_at values prev;
              vc ← values_at values combo;
              Ok [Found s prev combo vp vc]
          | None =>
              scan_combos values (<[s := prevs ++ [combo]]> sum_to_combos) rest
          end
      | None => scan_combos values (<[s := [combo]]> sum_to_combos) rest
      end
  end.

Definition checker_search (values : list Z) : result (list line) :=
  scan_combos values ∅ (combinations (range (length values)) 5).

(** [main], with the scan over the parsed values as the parameter
    [search]; [argv] is [sys.argv]. *)
Definition main_with (search : list Z → result (list line))
    (argv : list str) : process :=
  match argv with
  | [] => {| stdout := []; how := Uncaught IndexError |}
  | [argv0] => {| stdout := [Usage argv0]; how := SysExit 1 |}
  | _ :: args =>
      match parse_args args with
      | ((warnings, _), Some e) => {| stdout := warnings; how := Uncaught e |}
      | ((warnings, values), None) =>
          let out := warnings ++ [Parsed (length values) values] in
          if (length values <? 10)%nat then
            {| stdout := out ++ [ErrorTooFew]; how := SysExit 1 |}
          else
            match search values with
            | Ok report => {| stdout := out ++ report; how := Returned |}
            | Raise e => {| stdout := out; how := Uncaught e |}
            end
      end
  end.

Definition main (argv : list str) : process := main_with checker_search argv.

(** ** ModelBuilder: the CP-SAT problem that setup_base_model builds *)

(** The variables of the model, by the names the code gives them:
    [s[i]], [is_v_i] and [pairs_v]. *)
Inductive IntVar : Type :=
  | score_var (i : nat)
  | is_var (v : Z) (i : nat)
  | pairs_var (v : Z).

#[global] Instance IntVar_eq_dec : EqDecision IntVar.
Proof. solve_decision. Defined.

Inductive LinearExpr : Type :=
  | Const (c : Z)
  | Var (x : IntVar)
  | Plus (a b : LinearExpr)
  | Times (a : LinearExpr) (c : Z).

Inductive BoundedLinearExpression : Type :=
  | Eq (a b : LinearExpr)
  | Ne (a b : LinearExpr)
  | Le (a b : LinearExpr).

(** A Boolean variable [b] or its negation [b.Not()]. *)
Inductive Literal : Type :=
  | Lit (b : IntVar)
  | Not (b : IntVar).

(** [mdl.Add(expr)], possibly followed by [.OnlyEnforceIf(lit)]. *)
Record Constraint : Type := {
  expr : BoundedLinearExpression;
  enforcement : option Literal
}.

Record CpModel : Type := {
  variables : list (IntVar * (Z * Z));
  constraints : list Constraint
}.

Definition NewIntVar (lb ub : Z) (name : IntVar) (mdl : CpModel) : CpModel :=
  {| variables := variables mdl ++ [(name, (lb, ub))];
     constraints := constraints mdl |}.

Definition NewBoolVar (name : IntVar) (mdl : CpModel) : CpModel :=
  NewIntVar 0 1 name mdl.

Definition Add (e : BoundedLinearExpression) (mdl : CpModel) : CpModel :=
  {| variables := variables mdl;
     constraints := constraints mdl ++ [{| expr := e; enforcement := None |}] |}.

Definition AddOnlyEnforceIf (e : BoundedLinearExpression) (l : Literal)
    (mdl : CpModel) : CpModel :=
  {| variables := variables mdl;
     constraints := constraints mdl ++ [{| expr := e; enforcement := Some l |}] |}.

(** [l[i]] on a Python list, for a non-negative index. *)
Definition getitem {A : Type} (l : list A) (i : nat) : result A :=
  match l !! i with
  | Some x => Ok x
  | None => Raise IndexError
  end.

(** A [for] loop over [xs] whose body updates a state and may raise. *)
Fixpoint for_ {A S : Type} (xs : list A) (body : A → S → result S) (st : S)
  : result S :=
  match xs with
  | [] => Ok st
  | x :: xs' => st' ← body x st; for_ xs' body st'
  end.

(** [sum(vars)] on a list of variables: a left fold from the constant 0. *)
Definition sum_vars (vars : list IntVar) : LinearExpr :=
  foldl (fun acc x => Plus acc (Var x)) (Const 0) vars.

(** [sum(score[i] for i in T)] on the list of score variables. *)
Definition sum_expr (score : list IntVar) (T : team) : result LinearExpr :=
  for_ T (fun i acc => x ← getitem score i; Ok (Plus acc (Var x))) (Const 0).

(** The body of [for v in range(1, 101)]: the state is the model and the
    list [pair_vars]. *)
Definition count_pairs_of (N : nat) (score : list IntVar) (v : Z)
    (st : CpModel * list IntVar) : result (CpModel * list IntVar) :=
  '(mdl, eq_bools) ←
    for_ (range N) (fun i '(mdl, eq_bools) =>
      let b := is_var v i in
      let mdl := NewBoolVar b mdl in
      x ← getitem score i;
      let mdl := AddOnlyEnforceIf (Eq (Var x) (Const v)) (Lit b) mdl in
      let mdl := AddOnlyEnforceIf (Ne (Var x) (Const v)) (Not b) mdl in
      Ok (mdl, eq_bools ++ [b])) (st.1, []);
  let count_v := sum_vars eq_bools in
  let pair_v := pairs_var v in
  let mdl := NewIntVar 0 (Z.of_nat (N / 2)) pair_v mdl in
  let mdl := Add (Le (Times (Var pair_v) 2) count_v) mdl in
  let mdl := Add (Le count_v (Plus (Times (Var pair_v) 2) (Const 1))) mdl in
  Ok (mdl, st.2 ++ [pair_v]).

Definition setup_base_model (N : nat) : result (CpModel * list IntVar) :=
  let mdl := {| variables := []; constraints := [] |} in
  let score := map score_var (range N) in
  let mdl := foldl (fun mdl x => NewIntVar 1 100 x mdl) mdl score in
  s0 ← getitem score 0;
  let mdl := Add (Eq (Var s0) (Const 1)) mdl in
  mdl ← for_ (range (N - 1)) (fun i mdl =>
           a ← getitem score i; b ← getitem score (i + 1);
           Ok (Add (Le (Var a) (Var b)) mdl)) mdl;
  mdl ← for_ (range (N - 9)) (fun i mdl =>
           a ← getitem score i; b ← getitem score (i + 9);
           Ok (Add (Ne (Var a) (Var b)) mdl)) mdl;
  '(mdl, pair_vars) ←
    for_ (map Z.of_nat (seq 1 100)) (count_pairs_of N score) (mdl, []);
  let mdl := Add (Le (sum_vars pair_vars) (Const 4)) mdl in
  Ok (mdl, score).

(** *** What an assignment of the variables satisfies *)

Fixpoint eval (val : IntVar → Z) (e : LinearExpr) : Z :=
  match e with
  | Const c => c
  | Var x => val x
  | Plus a b => eval val a + eval val b
  | Times a c => eval val a * c
  end.

Definition holds_expr (val : IntVar → Z) (e : BoundedLinearExpression) : bool :=
  match e with
  | Eq a b => eval val a =? eval val b
  | Ne a b => negb (eval val a =? eval val b)
  | Le a b => eval val a <=? eval val b
  end.

Definition holds_literal (val : IntVar → Z) (l : Literal) : bool :=
  match l with
  | Lit b => val b =? 1
  | Not b => val b =? 0
  end.

Definition holds (val : IntVar → Z) (c : Constraint) : bool :=
  match enforcement c with
  | None => holds_expr val (expr c)
  | Some l => implb (holds_literal val l) (holds_expr val (expr c))
  end.

Definition in_domain (val : IntVar → Z) (d : IntVar * (Z * Z)) : bool :=
  (d.2.1 <=? val d.1) && (val d.1 <=? d.2.2).

Definition satisfies (val : IntVar → Z) (mdl : CpModel) : bool :=
  forallb (in_domain val) (variables mdl) && forallb (holds val) (constraints mdl).

(** ** SolverOracle: what the drivers see of cp_model.CpSolver *)

Inductive CpSolverStatus : Type :=
  | UNKNOWN
  | MODEL_INVALID
  | FEASIBLE
  | INFEASIBLE
  | OPTIMAL.

(** The solver parameters the drivers set. Durations are integers, in the
    resolution of the clock; the rounding of floats is not modelled. *)
Record Parameters : Type := {
  num_search_workers : Z;
  max_time_in_seconds : Z
}.

(** The outcome of [solver.Solve(mdl)]: the status and [solver.Value]. *)
Record Response : Type := {
  status : CpSolverStatus;
  Value : IntVar → Z
}.

(** The state of one run of [prove_with_cegar]: the list [block_clauses],
    the subset cache, the number of readings of [perf_counter] made so far
    and the oracle invocations made so far, oldest first. *)
Record cegar_state : Type := {
  block_clauses : list (team * team);
  cache : TEAMS_CACHE;
  reads : nat;
  calls : list (CpModel * Parameters)
}.

(** The disjoint pairs that [prove_static] constrains: [(teams[i], teams[j])]
    for [i < j] with [teams[i]] and [teams[j]] disjoint. *)
Fixpoint disjoint_pairs (teams : list team) : list (team * team) :=
  match teams with
  | [] => []
  | Ti :: rest =>
      map (pair Ti) (filter (fun Tj => isdisjoint Ti Tj) rest)
      ++ disjoint_pairs rest
  end.

(** The two nested loops of [prove_static], on the teams zipped with
    [team_sums]: for each [i], the [j] in [range(i + 1, len(teams))]. *)
Fixpoint add_static_constraints (ts : list (team * LinearExpr)) (mdl : CpModel)
  : CpModel :=
  match ts with
  | [] => mdl
  | (Ti, si) :: rest =>
      add_static_constraints rest
        (foldl (fun mdl '(Tj, sj) =>
                  if isdisjoint Ti Tj then Add (Ne si sj) mdl else mdl)
               mdl rest)
  end.

(** [[f(x) for x in xs]] for an [f] that may raise. *)
Fixpoint mapM {A B : Type} (f : A → result B) (xs : list A) : result (list B) :=
  match xs with
  | [] => Ok []
  | x :: xs' => y ← f x; ys ← mapM f xs'; Ok (y :: ys)
  end.

Section Drivers.

(** The external collaborators: the solver and the clock, whose [k]-th
    reading is [perf_counter k]. *)
Variable Solve : CpModel → Parameters → Response.
Variable perf_counter : nat → Z.

(** The model of one CEGAR iteration: the base model and one disequality
    for each blocking clause. *)
Definition cegar_model (N : nat) (blocks : list (team * team))
  : result (CpModel * list IntVar) :=
  '(mdl, score) ← setup_base_model N;
  mdl ← for_ blocks (fun '(T, U) mdl =>
           sT ← sum_expr score T; sU ← sum_expr score U;
           Ok (Add (Ne sT sU) mdl)) mdl;
  Ok (mdl, score).

(** One pass through the body of [while True]: [Some r] when the pass
    returns or raises, [None] when it reaches [continue]. The remaining
    time is computed exactly, on a clock read in whole units: the rounding
    of the floating-point subtraction of the code, and the OverflowError
    of a limit too large for a float, are not modelled; what is left of
    the remaining time in the properties is that it is clamped at 0. *)
Definition cegar_iteration (N : nat) (wallclock_limit threads t0 : Z)
    (st : cegar_state) : option (result bool) * cegar_state :=
  match cegar_model N (block_clauses st) with
  | Raise e => (Some (Raise e), st)
  | Ok (mdl, score) =>
      let params :=
        {| num_search_workers := threads;
           max_time_in_seconds :=
             Z.max 0 (wallclock_limit - (perf_counter (reads st) - t0)) |} in
      let response := Solve mdl params in
      let st := {| block_clauses := block_clauses st; cache := cache st;
                   reads := S (reads st);
                   calls := calls st ++ [(mdl, params)] |} in
      match status response with
      | INFEASIBLE => (Some (Ok true), st)
      | OPTIMAL | FEASIBLE =>
          let sol := map (Value response) score in
          let '(found, cache') := find_equal_pair sol (cache st) in
          let st := {| block_clauses := block_clauses st; cache := cache';
                       reads := reads st; calls := calls st |} in
          match found with
          | Raise e => (Some (Raise e), st)
          | Ok None => (Some (Ok false), st)
          | Ok (Some TU) =>
              (None,
               {| block_clauses := block_clauses st ++ [TU];
                  cache := cache st; reads := reads st; calls := calls st |})
          end
      | _ => (Some (Raise (TimeoutError N)), st)
      end
  end.

(** At most [fuel] passes of the loop; [None] when the loop is still
    running after them. *)
Fixpoint cegar_loop (fuel : nat) (N : nat) (wallclock_limit threads t0 : Z)
    (st : cegar_state) : option (result bool) * cegar_state :=
  match fuel with
  | O => (None, st)
  | S fuel' =>
      match cegar_iteration N wallclock_limit threads t0 st with
      | (Some r, st') => (Some r, st')
      | (None, st') => cegar_loop fuel' N wallclock_limit threads t0 st'
      end
  end.

Definition cegar_init (cache : TEAMS_CACHE) : cegar_state :=
  {| block_clauses := []; cache := cache; reads := 1; calls := [] |}.

Definition prove_with_cegar (fuel : nat) (N : nat)
    (wallclock_limit threads : Z) (cache : TEAMS_CACHE)
  : option (result bool) * cegar_state :=
  cegar_loop fuel N wallclock_limit threads (perf_counter 0)
    (cegar_init cache).

(** [prove_static] up to the solver call: the pairwise disequalities
    added to the base model [mdl]. *)
Definition static_model (mdl : CpModel) (score : list IntVar)
    (teams : list team) : result CpModel :=
  team_sums ← mapM (sum_expr score) teams;
  Ok (add_static_constraints (zip teams team_sums) mdl).

Definition prove_static (N : nat) (wallclock_limit threads : Z)
    (cache : TEAMS_CACHE) : result bool * TEAMS_CACHE :=
  match setup_base_model N with
  | Raise e => (Raise e, cache)
  | Ok (mdl, score) =>
      let '(teams, cache) := get_5_subsets N cache in
      (mdl ← static_model mdl score teams;
       let params := {| num_search_workers := threads;
                        max_time_in_seconds := wallclock_limit |} in
       match status (Solve mdl params) with
       | INFEASIBLE => Ok true
       | OPTIMAL | FEASIBLE => Ok false
       | _ => Raise (TimeoutError N)
       end, cache)
  end.

End Drivers.

Definition str_of (text : string) : str := list_ascii_of_string text.

(** The invariant of the scan: after the subsets [seen], each bucket holds
    the subsets of [seen] with its sum, in the order they were seen. *)
Definition bucket_inv (scores : list Z) (seen : list team)
    (by_sum : gmap Z (list team)) : Prop :=
  ∀ s, bucket by_sum s = filter (fun U => tsum scores U = s) seen.

(** No subset of [teams] has an earlier disjoint subset of equal sum, the
    subsets [seen] coming before those of [teams]. *)
Definition no_match (scores : list Z) (seen teams : list team) : Prop :=
  ∀ k T, teams !! k = Some T →
         first_match scores (seen ++ take k teams) T = None.

(** The enumeration puts [T] before [U]. *)
Definition enumerated_before (teams : list team) (T U : team) : Prop :=
  ∃ pre mid post, teams = pre ++ T :: mid ++ U :: post.

(** The reading of the finder's result as a pair in insertion order: the
    first component was enumerated, and bucketed, before the second. *)
Definition returned_in_insertion_order (scores : list Z) : Prop :=
  ∀ T U, (find_equal_pair scores ∅).1 = Ok (Some (T, U)) →
         enumerated_before (combinations (range (length scores)) 5) T U.

Definition ten_ones : list Z := [1;1;1;1;1;1;1;1;1;1].
Definition eleven_values : list Z := [3;1;4;1;5;9;2;6;5;3;8].
Definition nine_ones_two : list Z := [1;1;1;1;1;1;1;1;1;2].
Definition three_values : list Z := [5; -3; 0].


Definition checker_argv : list str :=
  [str_of "checker"; str_of "0,-5,250,1000"; str_of " +7x , 1, 1 "; str_of "1,1,q,1,1"].

(** *** Reference notions for the drivers *)

(** [sum(score[i] for i in T)] when [score[i]] is the variable [s[i]]. *)
Definition sum_expr_of (T : team) : LinearExpr :=
  foldl (fun acc i => Plus acc (Var (score_var i))) (Const 0) T.

(** The constraint [sum over A != sum over B]. *)
Definition ne_sums (AB : team * team) : Constraint :=
  {| expr := Ne (sum_expr_of AB.1) (sum_expr_of AB.2); enforcement := None |}.

Definition add_constraints (cs : list Constraint) (mdl : CpModel) : CpModel :=
  {| variables := variables mdl; constraints := constraints mdl ++ cs |}.

(** The values of the score variables, [[solver.Value(x) for x in score]]. *)
Definition solution (N : nat) (val : IntVar → Z) : list Z :=
  map val (map score_var (range N)).

(** A blocking pair [(T, U)] as [find_equal_pair] returns them: [U] is
    enumerated before [T] and they are disjoint. *)
Definition valid_block (N : nat) (TU : team * team) : Prop :=
  (TU.2, TU.1) ∈ disjoint_pairs (combinations (range N) 5).

(** The invariant of the CEGAR loop. *)
Definition cegar_inv (N : nat) (st : cegar_state) : Prop :=
  cache_ok (cache st)
  ∧ Forall (valid_block N) (block_clauses st)
  ∧ NoDup (block_clauses st).

(** The problems that [prove_with_cegar N] can hand to the solver: the
    CEGAR model of a list of blocking pairs. *)
Definition cegar_problem (N : nat) (mdl : CpModel) : Prop :=
  ∃ blocks score,
    Forall (valid_block N) blocks ∧ cegar_model N blocks = Ok (mdl, score).

(** The problem that [prove_static N] hands to the solver. *)
Definition static_problem (N : nat) (mdl : CpModel) : Prop :=
  ∃ base score,
    setup_base_model N = Ok (base, score)
    ∧ static_model base score (combinations (range N) 5) = Ok mdl.

(** On the problems [P], the solver never reports a solution that violates
    the problem it was handed. *)
Definition oracle_sound_on (P : CpModel → Prop)
    (Solve : CpModel → Parameters → Response) : Prop :=
  ∀ mdl params,
    P mdl →
    status (Solve mdl params) = FEASIBLE ∨ status (Solve mdl params) = OPTIMAL →
    satisfies (Value (Solve mdl params)) mdl = true.

Definition oracle_sound (Solve : CpModel → Parameters → Response) : Prop :=
  oracle_sound_on (fun _ => True) Solve.

(** On the problems [P], the solver decides: it answers INFEASIBLE only for
    a problem without solution, a solution only if it satisfies the
    problem, and nothing else. *)
Definition oracle_correct_on (P : CpModel → Prop)
    (Solve : CpModel → Parameters → Response) : Prop :=
  ∀ mdl params,
    P mdl →
    match status (Solve mdl params) with
    | INFEASIBLE => ∀ val, satisfies val mdl = false
    | FEASIBLE | OPTIMAL => satisfies (Value (Solve mdl params)) mdl = true
    | UNKNOWN | MODEL_INVALID => False
    end.

(** The number of disjoint pairs of 5-element subsets of [range(N)]. *)
Definition pair_count (N : nat) : nat :=
  length (disjoint_pairs (combinations (range N) 5)).

(** *** Sample solvers and inputs *)

(** The assignment that gives the scores [scores], each indicator its truth
    value and each pair counter half the number of occurrences. *)
Definition assignment_of (scores : list Z) (x : IntVar) : Z :=
  match x with
  | score_var i => default 0 (scores !! i)
  | is_var v i => if bool_decide (scores !! i = Some v) then 1 else 0
  | pairs_var v =>
      Z.of_nat (length (filter (fun x => x = v) scores) / 2)
  end.

(** A solver that tries the candidate assignments in turn and gives up when
    none satisfies the problem. *)
Fixpoint try_candidates (candidates : list (IntVar → Z)) (mdl : CpModel)
    (params : Parameters) : Response :=
  match candidates with
  | [] => {| status := UNKNOWN; Value := fun _ => 0 |}
  | val :: rest =>
      if satisfies val mdl then {| status := FEASIBLE; Value := val |}
      else try_candidates rest mdl params
  end.

Definition sample_solver : CpModel → Parameters → Response :=
  try_candidates [assignment_of [1;2;3;4;5;6;7;8;9;11];
                  assignment_of nine_ones_two].

Definition five_solver : CpModel → Parameters → Response :=
  fun _ _ => {| status := FEASIBLE; Value := assignment_of [1;2;3;4;5] |}.

Definition stopped_clock : nat → Z := fun _ => 0.

(** The model of a successful build. *)
Definition model_of (r : result (CpModel * list IntVar)) : CpModel :=
  match r with
  | Ok (mdl, _) => mdl
  | Raise _ => {| variables := []; constraints := [] |}
  end.


(** *** Reference notions for the further properties *)

(** The quadratic search that the buckets of [find_equal_pair] speed up:
    for each subset in turn, the first earlier subset with the same sum and
    disjoint from it. *)
Fixpoint naive_search (scores : list Z) (seen rest : list team)
  : option (team * team) :=
  match rest with
  | [] => None
  | T :: rest' =>
      match first_match scores seen T with
      | Some U => Some (T, U)
      | None => naive_search scores (seen ++ [T]) rest'
      end
  end.

(** The strings that [main] hands to [parse_int_prefix]: the parts of the
    arguments between commas, stripped, the empty ones left out. *)
Definition tokens (args : list str) : list str :=
  filter (fun t => t ≠ []) (strip <$> concat (split comma <$> args)).

(** The factor of an optional sign: -1 for a minus sign. *)
Definition signum (sign : str) : Z :=
  match sign with
  | c :: _ => if (code c =? 45)%nat then -1 else 1
  | [] => 1
  end.

(** *** The base model in closed form *)

Definition extend (vs : list (IntVar * (Z * Z))) (cs : list Constraint)
    (mdl : CpModel) : CpModel :=
  {| variables := variables mdl ++ vs; constraints := constraints mdl ++ cs |}.

Definition plain (e : BoundedLinearExpression) : Constraint :=
  {| expr := e; enforcement := None |}.

Definition enforced (e : BoundedLinearExpression) (l : Literal) : Constraint :=
  {| expr := e; enforcement := Some l |}.

(** [range(1, 101)] *)
Definition score_values : list Z := map Z.of_nat (seq 1 100).

Definition indicator_vars (N : nat) (v : Z) : list (IntVar * (Z * Z)) :=
  map (fun i => (is_var v i, (0, 1))) (range N)
  ++ [(pairs_var v, (0, Z.of_nat (N / 2)))].

Definition indicator_constraints (v : Z) (i : nat) : list Constraint :=
  [enforced (Eq (Var (score_var i)) (Const v)) (Lit (is_var v i));
   enforced (Ne (Var (score_var i)) (Const v)) (Not (is_var v i))].

(** [count_v], the sum of the indicators of the value [v]. *)
Definition count_expr (N : nat) (v : Z) : LinearExpr :=
  sum_vars (map (is_var v) (range N)).

Definition pair_constraints (N : nat) (v : Z) : list Constraint :=
  [plain (Le (Times (Var (pairs_var v)) 2) (count_expr N v));
   plain (Le (count_expr N v) (Plus (Times (Var (pairs_var v)) 2) (Const 1)))].

Definition value_constraints (N : nat) (v : Z) : list Constraint :=
  flat_map (indicator_constraints v) (range N) ++ pair_constraints N v.

(** The model that [setup_base_model N] returns, written out. *)
Definition base_model (N : nat) : CpModel :=
  {| variables :=
       map (fun x => (x, (1, 100))) (map score_var (range N))
       ++ flat_map (indicator_vars N) score_values;
     constraints :=
       [plain (Eq (Var (score_var 0)) (Const 1))]
       ++ flat_map (fun i => [plain (Le (Var (score_var i))
                                        (Var (score_var (i + 1))))])
            (range (N - 1))
       ++ flat_map (fun i => [plain (Ne (Var (score_var i))
                                        (Var (score_var (i + 9))))])
            (range (N - 9))
       ++ flat_map (value_constraints N) score_values
       ++ [plain (Le (sum_vars (map pairs_var score_values)) (Const 4))] |}.

(** *** The sequences the base model describes *)

(** The number of occurrences of [v] in [scores]. *)
Definition occurrences (v : Z) (scores : list Z) : nat :=
  length (filter (fun x => x = v) scores).

(** The number of duplicate pairs of [scores]: for each value of
    [range(1, 101)], half its number of occurrences, rounded down. *)
Definition duplicate_pairs (scores : list Z) : nat :=
  sum_list (map (fun v => occurrences v scores / 2)%nat score_values).

(** The sequences of [N] scores that pass the symmetry breaking and the
    pruning of [setup_base_model]. *)
Definition normalized (N : nat) (scores : list Z) : Prop :=
  length scores = N
  ∧ Forall (fun x => 1 ≤ x ≤ 100) scores
  ∧ scores !! 0%nat = Some 1
  ∧ (∀ i a b, scores !! i = Some a → scores !! (i + 1)%nat = Some b → a ≤ b)
  ∧ (∀ i a b, scores !! i = Some a → scores !! (i + 9)%nat = Some b → a ≠ b)
  ∧ (duplicate_pairs scores ≤ 4)%nat.

(** *** The property the tool is about *)

(** [scores] holds two disjoint 5-element index subsets with equal sums. *)
Definition has_equal_pair (scores : list Z) : Prop :=
  ∃ T U, index_subset (length scores) T ∧ index_subset (length scores) U
         ∧ disjoint_teams T U ∧ tsum scores T = tsum scores U.

Definition zsum (l : list Z) : Z := foldr Z.add 0 l.

(** The same property on the multiset of the scores: two lists of 5 values
    with equal sums that fit together in [scores]. *)
Definition has_equal_sublists (scores : list Z) : Prop :=
  ∃ A B, length A = 5%nat ∧ length B = 5%nat
         ∧ A ++ B ⊆+ scores ∧ zsum A = zsum B.

(** The position in [a ++ x :: b] of the position [j] of [a ++ b]. *)
Definition skip (n j : nat) : nat := if (j <? n)%nat then j else S j.

(** For each value of [vs], as many copies as [scores] has pairs of it. *)
Definition paired_values (vs scores : list Z) : list Z :=
  flat_map (fun v => replicate (occurrences v scores / 2) v) vs.

(** *** The symmetry breaking of the base model *)

(** The scores in the form that [setup_base_model] assumes: sorted, and
    moved so that the least one is 1. *)
Definition normalize (scores : list Z) : list Z :=
  let sorted := merge_sort Z.le scores in
  map (fun x => x + (1 - default 1 (head sorted))) sorted.

(** The statement that the drivers decide for [N]: every sequence of [N]
    scores between 1 and 100 has two disjoint 5-element index subsets with
    equal sums. *)
Definition always_equal_pair (N : nat) : Prop :=
  ∀ scores, length scores = N → Forall (fun x => 1 ≤ x ≤ 100) scores →
            has_equal_pair scores.

(** A sequence of [N] scores between 1 and 100 without such a pair. *)
Definition counterexample (N : nat) (scores : list Z) : Prop :=
  length scores = N ∧ Forall (fun x => 1 ≤ x ≤ 100) scores
  ∧ ¬ has_equal_pair scores.

(** On the problems [P], the answers of the solver can be trusted: it
    answers INFEASIBLE only for a problem without solution and reports a
    solution only if it satisfies the problem. It may give up. *)
Definition oracle_honest_on (P : CpModel → Prop)
    (Solve : CpModel → Parameters → Response) : Prop :=
  ∀ mdl params,
    P mdl →
    match status (Solve mdl params) with
    | INFEASIBLE => ∀ val, satisfies val mdl = false
    | FEASIBLE | OPTIMAL => satisfies (Value (Solve mdl params)) mdl = true
    | UNKNOWN | MODEL_INVALID => True
    end.

(** A solver that always answers INFEASIBLE. *)
Definition infeasible_solver : CpModel → Parameters → Response :=
  fun _ _ => {| status := INFEASIBLE; Value := fun _ => 0 |}.

Definition two_nine_ones : list Z := [2;1;1;1;1;1;1;1;1;1].
Definition eight_fours_five_four : list Z := [4;4;4;4;4;4;4;4;5;4].

(** *** The oracle invocations of a CEGAR run *)

(** The invocation that pass [i] (counted from 0) of a run of
    [prove_with_cegar] makes, [blocks] being the blocking pairs of the
    run: the base model with the first [i] pairs, the thread count, and
    what is left of the budget at the reading of the clock of that pass. *)
Definition expected_call (perf_counter : nat → Z) (N : nat)
    (wallclock_limit threads : Z) (blocks : list (team * team)) (i : nat)
  : CpModel * Parameters :=
  (add_constraints (map ne_sums (take i blocks)) (base_model N),
   {| num_search_workers := threads;
      max_time_in_seconds :=
        Z.max 0 (wallclock_limit - (perf_counter (S i) - perf_counter 0%nat)) |}).

(** The invariant of the log of invocations; [k] is 0 while the loop runs
    and 1 once it has stopped. *)
Definition call_log_inv (perf_counter : nat → Z) (N : nat)
    (wallclock_limit threads : Z) (k : nat) (st : cegar_state) : Prop :=
  cache_ok (cache st)
  ∧ Forall (valid_block N) (block_clauses st)
  ∧ reads st = S (length (calls st))
  ∧ length (calls st) = (length (block_clauses st) + k)%nat
  ∧ calls st
    = map (expected_call perf_counter N wallclock_limit threads
             (block_clauses st))
        (seq 0 (length (calls st))).

(** ** The sweep over N: main of equal_teams_solver.py *)

(** The parsed command line, [args]. *)
Record Args : Type := {
  args_limit : Z;
  args_threads : Z;
  args_start : Z;
  args_end : Z;
  args_no_cegar : bool
}.

(** [range(a, b)] of two integers. *)
Definition range_between (a b : Z) : list Z :=
  map (fun k => a + Z.of_nat k) (seq 0 (Z.to_nat (b - a))).

(** What the sweep carries from one [N] to the next: the subset cache and
    the number of readings of the clock made so far. *)
Record sweep_state : Type := {
  sweep_cache : TEAMS_CACHE;
  sweep_reads : nat
}.

Section Sweep.

Variable Solve : CpModel → Parameters → Response.
Variable perf_counter : nat → Z.

(** The passes granted to each run of the refinement loop. *)
Variable fuel : nat.

(** The body of [try]: the driver that [args.no_cegar] selects, on the
    integer [N]. For [N ≤ 0], [range(N)] is empty as it is for 0. The
    result is [None] when the refinement loop is still running after
    [fuel] passes. *)
Definition attempt (args : Args) (N : Z) (st : sweep_state)
  : option (result bool) * sweep_state :=
  if args_no_cegar args then
    let '(r, cache') :=
      prove_static Solve (Z.to_nat N) (args_limit args) (args_threads args)
        (sweep_cache st) in
    (Some r, {| sweep_cache := cache'; sweep_reads := sweep_reads st |})
  else
    let '(r, cst) :=
      prove_with_cegar Solve (fun k => perf_counter (sweep_reads st + k)) fuel
        (Z.to_nat N) (args_limit args) (args_threads args) (sweep_cache st) in
    (r, {| sweep_cache := cache cst;
           sweep_reads := sweep_reads st + reads cst |}).

(** The loop [for N in range(args.start, args.end + 1)], as the log of its
    attempts: the loop goes on after [False]; it ends, by [break], after
    [True] and after a TimeoutError, which is caught, and with the
    exception after an IndexError, which is not. *)
Fixpoint sweep (args : Args) (Ns : list Z) (st : sweep_state)
  : list (Z * option (result bool)) * sweep_state :=
  match Ns with
  | [] => ([], st)
  | N :: rest =>
      let '(r, st') := attempt args N st in
      match r with
      | Some (Ok false) =>
          let '(log, st'') := sweep args rest st' in ((N, r) :: log, st'')
      | _ => ([(N, r)], st')
      end
  end.

Definition solver_main (args : Args) (st : sweep_state)
  : list (Z * option (result bool)) * sweep_state :=
  sweep args (range_between (args_start args) (args_end args + 1)) st.

End Sweep.

Definition sample_args : Args :=
  {| args_limit := 60; args_threads := 1; args_start := 10; args_end := 11;
     args_no_cegar := false |}.

Definition fresh_state : sweep_state :=
  {| sweep_cache := ∅; sweep_reads := 0 |}.

(** *** Reference notions for the checker *)

#[global] Instance exn_eq_dec : EqDecision exn.
Proof. solve_decision. Defined.

#[global] Instance result_eq_dec {A : Type} `{EqDecision A} :
  EqDecision (result A).
Proof. solve_decision. Defined.

(** The three parts of what the parsing loops of [main] leave. *)
Definition printed_warnings (args : list str) : list line :=
  (parse_args args).1.1.

Definition parsed_values (args : list str) : list Z := (parse_args args).1.2.

Definition parse_failure (args : list str) : option exn := (parse_args args).2.

(** [s] starts with an integer: an optional sign, the digits [ds], at
    least one, and a rest that starts with no digit. *)
Definition leading_integer (s sign ds rest : str) : Prop :=
  s = sign ++ ds ++ rest
  ∧ (sign = [] ∨ ∃ c, sign = [c] ∧ is_sign c = true)
  ∧ ds ≠ []
  ∧ Forall (fun c => isdigit c = true) ds
  ∧ take_digits rest = [].

(** The integer that a token gives, if it gives one. *)
Definition leading_int (t : str) : option Z :=
  match parse_int_prefix t with
  | Ok v => v
  | Raise _ => None
  end.


(** A token of 4301 digits. *)
Definition long_token : str := replicate 4301 (ascii_of_nat 49).

(** * Properties *)

(** ** Sample runs *)

Example find_equal_pair_ones :
  (find_equal_pair ten_ones ∅).1
  = Ok (Some ([1;2;3;4;5]%nat, [0;6;7;8;9]%nat)).
Proof. vm_compute. reflexivity. Qed.

Example main_123 :
  main [str_of "checker"; str_of "1,2,3"] =
  {| stdout := [Parsed 3 [1;2;3]; ErrorTooFew]; how := SysExit 1 |}.
Proof. vm_compute. reflexivity. Qed.

Example main_ones :
  main [str_of "checker"; str_of "1,1,1,1,1"; str_of " +1x, 1 ,-0,,zz"; str_of "1,1,1, 1"] = 
  {| stdout := [Warning (str_of "zz"); Parsed 12 [1;1;1;1;1;1;1;0;1;1;1;1];
                Found 5 [0;6;8;9;10]%nat [1;2;3;4;5]%nat [1;1;1;1;1] [1;1;1;1;1]];
     how := Returned |}.
Proof. vm_compute. reflexivity. Qed.

(** ** Enumeration of the subsets *)

Lemma combinations_sublist {A : Type} (pool : list A) :
  ∀ r T, T ∈ combinations pool r → T `sublist_of` pool ∧ length T = r.
Proof.
  induction pool as [|x pool IH]; intros [|r] T HT; simpl in HT.
  - apply list_elem_of_singleton in HT as ->. split; [constructor | done].
  - by apply elem_of_nil in HT.
  - apply list_elem_of_singleton in HT as ->. split; [apply sublist_nil_l | done].
  - apply elem_of_app in HT as [HT | HT].
    + apply list_elem_of_fmap in HT as (T' & -> & HT').
      apply IH in HT' as [Hsub Hlen]. split; [by constructor | simpl; lia].
    + apply IH in HT as [Hsub Hlen]. split; [by constructor | done].
Qed.

Lemma combinations_complete {A : Type} (pool T : list A) :
  T `sublist_of` pool → T ∈ combinations pool (length T).
Proof.
  induction 1 as [|x T pool Hsub IH|x T pool Hsub IH]; simpl.
  - apply list_elem_of_singleton; done.
  - apply elem_of_app; left. apply list_elem_of_fmap. eauto.
  - destruct T as [|y T]; simpl in *.
    + apply list_elem_of_singleton; done.
    + apply elem_of_app; right. done.
Qed.

Lemma combinations_NoDup {A : Type} (pool : list A) :
  NoDup pool → ∀ r, NoDup (combinations pool r).
Proof.
  induction 1 as [|x pool Hx Hnd IH]; intros [|r]; simpl.
  - apply NoDup_singleton.
  - constructor.
  - apply NoDup_singleton.
  - apply NoDup_app; split_and!.
    + apply NoDup_fmap_2; [|apply IH]. by intros ?? [= ->].
    + intros T HT1 HT2.
      apply list_elem_of_fmap in HT1 as (T' & -> & _).
      apply combinations_sublist in HT2 as [Hsub _].
      apply Hx. apply (sublist_subseteq _ _ Hsub). left.
    + apply IH.
Qed.

Lemma team_index_subset (N : nat) (T : team) :
  T ∈ combinations (range N) 5 → index_subset N T.
Proof.
  intros HT. apply combinations_sublist in HT as [Hsub Hlen].
  split_and!; [|done|].
  - eapply sublist_NoDup; [apply NoDup_seq | exact Hsub].
  - intros i Hi. apply (sublist_subseteq _ _ Hsub), elem_of_seq in Hi. lia.
Qed.

(** ** Sums and disjointness *)

Lemma sum_from_tsum (scores : list Z) (T : team) :
  (∀ i, i ∈ T → (i < length scores)%nat) →
  ∀ acc, sum_from acc scores T = Ok (acc + tsum scores T).
Proof.
  induction T as [|i T IH]; intros Hin acc; simpl.
  - f_equal. lia.
  - destruct (lookup_lt_is_Some_2 scores i) as [x Hx].
    { apply Hin. left. }
    rewrite Hx. simpl. rewrite IH.
    + f_equal. lia.
    + intros j Hj. apply Hin. by right.
Qed.

Lemma sum_scores_tsum (scores : list Z) (T : team) :
  (∀ i, i ∈ T → (i < length scores)%nat) →
  sum_scores scores T = Ok (tsum scores T).
Proof. intros Hin. unfold sum_scores. by rewrite sum_from_tsum. Qed.

Lemma tsum_Permutation (scores : list Z) (T U : team) :
  T ≡ₚ U → tsum scores T = tsum scores U.
Proof.
  induction 1; simpl; try lia.
Qed.

Lemma isdisjoint_spec (T U : team) :
  isdisjoint T U = true ↔ disjoint_teams T U.
Proof.
  unfold isdisjoint, disjoint_teams. rewrite forallb_forall. split.
  - intros H i HiT HiU. apply list_elem_of_In in HiU. apply H in HiU.
    apply negb_true_iff, bool_decide_eq_false in HiU. done.
  - intros H u Hu. apply list_elem_of_In in Hu.
    apply negb_true_iff, bool_decide_eq_false. intros HuT. by apply (H u).
Qed.

Lemma disjoint_teams_sym (T U : team) :
  disjoint_teams T U → disjoint_teams U T.
Proof. intros H i HiU HiT. by apply (H i). Qed.


(** Two disjoint 5-element index subsets need at least 10 indices. *)
Lemma disjoint_subsets_length (n : nat) (T U : team) :
  index_subset n T → index_subset n U → disjoint_teams T U → (10 ≤ n)%nat.
Proof.
  intros (HndT & HlenT & HT) (HndU & HlenU & HU) Hdisj.
  assert (Hnd : NoDup (T ++ U)) by (apply NoDup_app; done).
  assert (Hsub : T ++ U ⊆+ seq 0 n).
  { apply NoDup_submseteq; [done|]. intros i Hi. apply elem_of_seq.
    apply elem_of_app in Hi as [Hi | Hi]; [apply HT in Hi | apply HU in Hi]; lia. }
  apply submseteq_length in Hsub.
  rewrite length_app, length_seq in Hsub. lia.
Qed.

(** Every 5-element index subset has the sum of one of the enumerated
    subsets, which holds the same indices. *)
Lemma index_subset_enumerated (n : nat) (T : team) :
  index_subset n T →
  ∃ T', T' ∈ combinations (range n) 5 ∧ T' ≡ₚ T.
Proof.
  intros (Hnd & Hlen & Hlt).
  set (T' := filter (fun i => i ∈ T) (seq 0 n)).
  assert (Hperm : T' ≡ₚ T).
  { apply NoDup_Permutation; [apply NoDup_filter, NoDup_seq | done |].
    intros i. unfold T'. rewrite list_elem_of_filter, elem_of_seq.
    split; [tauto|]. intros Hi. split; [done|]. apply Hlt in Hi. lia. }
  exists T'. split; [|done].
  rewrite <- Hlen, <- (Permutation_length Hperm).
  apply combinations_complete, sublist_filter.
Qed.

(** ** The scan of find_equal_pair *)

Lemma bucket_inv_empty (scores : list Z) : bucket_inv scores [] ∅.
Proof. intros s. unfold bucket. by rewrite lookup_empty. Qed.

Lemma bucket_inv_insert (scores : list Z) (seen : list team)
    (by_sum : gmap Z (list team)) (T : team) :
  bucket_inv scores seen by_sum →
  bucket_inv scores (seen ++ [T])
    (<[tsum scores T := bucket by_sum (tsum scores T) ++ [T]]> by_sum).
Proof.
  intros Hinv s. unfold bucket at 1. rewrite filter_app.
  destruct (decide (tsum scores T = s)) as [<- | Hne].
  - rewrite lookup_insert_eq. simpl. rewrite Hinv. f_equal.
    rewrite filter_cons_True by done. done.
  - rewrite lookup_insert_ne by done. fold (bucket by_sum s).
    rewrite Hinv, filter_cons_False by done. simpl. by rewrite app_nil_r.
Qed.

Lemma scan_teams_spec (scores : list Z) (rest : list team) :
  ∀ (seen : list team) (by_sum : gmap Z (list team)),
    (∀ T i, T ∈ rest → i ∈ T → (i < length scores)%nat) →
    bucket_inv scores seen by_sum →
    match scan_teams scores by_sum rest with
    | Ok (Some (T, U)) =>
        ∃ pre post, rest = pre ++ T :: post
                    ∧ first_match scores (seen ++ pre) T = Some U
                    ∧ no_match scores seen pre
    | Ok None => no_match scores seen rest
    | Raise _ => False
    end.
Proof.
  induction rest as [|T rest IH]; intros seen by_sum Hidx Hinv; simpl.
  - intros k T Hk. by rewrite lookup_nil in Hk.
  - rewrite sum_scores_tsum by (intros i; apply Hidx; left). simpl.
    rewrite Hinv. fold (first_match scores seen T).
    destruct (first_match scores seen T) as [U|] eqn:HU.
    + exists [], rest. split_and!; [done | by rewrite app_nil_r |].
      intros k T' Hk. by rewrite lookup_nil in Hk.
    + rewrite <- (Hinv (tsum scores T)).
      specialize (IH (seen ++ [T]) _
                    (fun T' i HT' => Hidx T' i (list_elem_of_further _ _ _ HT'))
                    (bucket_inv_insert _ _ _ T Hinv)).
      assert (Hcons : ∀ l, no_match scores (seen ++ [T]) l →
                           no_match scores seen (T :: l)).
      { intros l Hl [|k] T' Hk; simpl in Hk.
        - injection Hk as <-. simpl. by rewrite app_nil_r.
        - simpl. specialize (Hl k T' Hk). by rewrite <- app_assoc in Hl. }
      destruct (scan_teams _ _ rest) as [[[T' U]|]|e]; [| by apply Hcons | done].
      destruct IH as (pre & post & -> & Hfirst & Hno).
      exists (T :: pre), post. split_and!; [done | | by apply Hcons].
      by rewrite <- app_assoc in Hfirst.
Qed.

Lemma get_5_subsets_ok (N : nat) (cache : TEAMS_CACHE) :
  cache_ok cache →
  (get_5_subsets N cache).1 = combinations (range N) 5
  ∧ cache_ok (get_5_subsets N cache).2.
Proof.
  intros Hok. unfold get_5_subsets.
  destruct (cache !! N) as [teams|] eqn:Hc; simpl.
  - split; [by apply Hok | done].
  - split; [done|]. intros M teams HM.
    destruct (decide (N = M)) as [<- | Hne].
    + rewrite lookup_insert_eq in HM. by injection HM as <-.
    + rewrite lookup_insert_ne in HM by done. by apply Hok.
Qed.

Lemma find_equal_pair_scan (scores : list Z) (cache : TEAMS_CACHE) :
  cache_ok cache →
  (find_equal_pair scores cache).1
  = scan_teams scores ∅ (combinations (range (length scores)) 5)
  ∧ cache_ok (find_equal_pair scores cache).2.
Proof.
  intros Hok. unfold find_equal_pair.
  destruct (get_5_subsets_ok (length scores) cache Hok) as [Ht Hc].
  destruct (get_5_subsets _ _) as [teams cache']. simpl in *. by subst.
Qed.

(** What the finder returns, in terms of the enumeration: it never raises;
    a pair is the first subset [T] with an earlier match and the first such
    match [U]; [None] means that no subset has an earlier match. *)
Lemma find_equal_pair_spec (scores : list Z) (cache : TEAMS_CACHE) :
  cache_ok cache →
  match (find_equal_pair scores cache).1 with
  | Ok (Some (T, U)) =>
      ∃ pre post,
        combinations (range (length scores)) 5 = pre ++ T :: post
        ∧ first_match scores pre T = Some U
        ∧ no_match scores [] pre
  | Ok None => no_match scores [] (combinations (range (length scores)) 5)
  | Raise _ => False
  end.
Proof.
  intros Hok. destruct (find_equal_pair_scan scores cache Hok) as [-> _].
  apply (scan_teams_spec scores _ [] ∅).
  - intros T i HT Hi. apply team_index_subset in HT as (_ & _ & Hlt). by apply Hlt.
  - apply bucket_inv_empty.
Qed.

Lemma first_match_Some (scores : list Z) (earlier : list team) (T U : team) :
  first_match scores earlier T = Some U →
  U ∈ earlier ∧ tsum scores U = tsum scores T ∧ disjoint_teams T U.
Proof.
  unfold first_match. intros H. apply find_some in H as [Hin Hd].
  apply list_elem_of_In, list_elem_of_filter in Hin as [Hsum Hin].
  by apply isdisjoint_spec in Hd.
Qed.

Lemma first_match_None (scores : list Z) (earlier : list team) (T U : team) :
  first_match scores earlier T = None →
  U ∈ earlier → tsum scores U = tsum scores T → ¬ disjoint_teams T U.
Proof.
  unfold first_match. intros H Hin Hsum Hd.
  eapply find_none in H.
  - apply isdisjoint_spec in Hd. rewrite Hd in H. done.
  - apply list_elem_of_In, list_elem_of_filter. done.
Qed.

(** With no earlier match anywhere, no two enumerated subsets are disjoint
    with equal sums. *)
Lemma no_match_no_pair (scores : list Z) (teams : list team) (T U : team) :
  no_match scores [] teams → T ∈ teams → U ∈ teams → T ≠ [] →
  tsum scores T = tsum scores U → ¬ disjoint_teams T U.
Proof.
  intros Hno HT HU Hnil Hsum Hd.
  apply list_elem_of_lookup in HT as [i Hi]. apply list_elem_of_lookup in HU as [j Hj].
  destruct (decide (i = j)) as [-> | Hne].
  - assert (T = U) as -> by congruence.
    destruct U as [|u U]; [done|]. apply (Hd u); left.
  - destruct (decide (i < j)%nat).
    + eapply (first_match_None scores _ U T (Hno j U Hj)); [| done | by apply disjoint_teams_sym].
      simpl. apply list_elem_of_lookup. exists i. rewrite lookup_take_lt by lia. done.
    + eapply (first_match_None scores _ T U (Hno i T Hi)); [| done | done].
      simpl. apply list_elem_of_lookup. exists j. rewrite lookup_take_lt by lia. done.
Qed.

Lemma cache_ok_empty : cache_ok ∅.
Proof. intros N teams H. by rewrite lookup_empty in H. Qed.

Lemma find_equal_pair_sound (scores : list Z) (cache : TEAMS_CACHE) (T U : team) :
  cache_ok cache →
  (find_equal_pair scores cache).1 = Ok (Some (T, U)) →
  index_subset (length scores) T ∧ index_subset (length scores) U
  ∧ disjoint_teams T U ∧ tsum scores T = tsum scores U.
Proof.
  intros Hok Hres. pose proof (find_equal_pair_spec scores cache Hok) as Hspec.
  rewrite Hres in Hspec. destruct Hspec as (pre & post & Hteams & Hfirst & _).
  apply first_match_Some in Hfirst as (HU & Hsum & Hd).
  split_and!; [| | done | done].
  - apply team_index_subset. rewrite Hteams. apply elem_of_app; right; left.
  - apply team_index_subset. rewrite Hteams. apply elem_of_app; by left.
Qed.

Lemma find_equal_pair_total (scores : list Z) (cache : TEAMS_CACHE) :
  cache_ok cache → ∃ r, (find_equal_pair scores cache).1 = Ok r.
Proof.
  intros Hok. pose proof (find_equal_pair_spec scores cache Hok) as Hspec.
  destruct (find_equal_pair scores cache).1 as [r|e]; [eauto | done].
Qed.

Lemma disjoint_teams_Permutation (T T' U U' : team) :
  T' ≡ₚ T → U' ≡ₚ U → disjoint_teams T U → disjoint_teams T' U'.
Proof.
  intros HT HU Hd i Hi Hi'. apply (Hd i); [by rewrite <- HT | by rewrite <- HU].
Qed.

(** [None] is returned exactly when no two disjoint 5-element index subsets
    have equal sums. *)
Lemma find_equal_pair_None_iff (scores : list Z) (cache : TEAMS_CACHE) :
  cache_ok cache →
  (find_equal_pair scores cache).1 = Ok None ↔
  ¬ ∃ T U, index_subset (length scores) T ∧ index_subset (length scores) U
           ∧ disjoint_teams T U ∧ tsum scores T = tsum scores U.
Proof.
  intros Hok. split.
  - intros Hres (T & U & HT & HU & Hd & Hsum).
    pose proof (find_equal_pair_spec scores cache Hok) as Hspec.
    rewrite Hres in Hspec.
    destruct (index_subset_enumerated _ _ HT) as (T' & HT' & HpT).
    destruct (index_subset_enumerated _ _ HU) as (U' & HU' & HpU).
    apply (no_match_no_pair scores _ T' U' Hspec HT' HU').
    + intros ->. apply Permutation_length in HpT.
      destruct HT as (_ & Hlen & _). simpl in HpT. lia.
    + by rewrite (tsum_Permutation _ _ _ HpT), (tsum_Permutation _ _ _ HpU).
    + by apply (disjoint_teams_Permutation T T' U U').
  - intros Hnone. destruct (find_equal_pair_total scores cache Hok) as [[[T U]|] Hr];
      [|done].
    exfalso. apply Hnone. exists T, U. by apply (find_equal_pair_sound scores cache).
Qed.

(** ** C1, C2, C9: what find_equal_pair returns *)

(** C1. A pair [(T, U)] returned by [find_equal_pair] on [V] consists of two
    sets of exactly 5 distinct indices into [V] that are disjoint, and the
    values of [V] at the indices of [T] and at those of [U] have the same
    sum. *)
Theorem find_equal_pair_returns_valid_pair
    (V : list Z) (cache : TEAMS_CACHE) (T U : team) :
  cache_ok cache →
  (find_equal_pair V cache).1 = Ok (Some (T, U)) →
  index_subset (length V) T ∧ index_subset (length V) U
  ∧ disjoint_teams T U
  ∧ tsum V T = tsum V U.
Proof.
  intros Hok Hres. exact (find_equal_pair_sound V cache T U Hok Hres).
Qed.

Lemma find_equal_pair_returns_valid_pair_witness :
  index_subset 11 [1;2;3;4;10]%nat ∧ index_subset 11 [0;6;7;8;9]%nat
  ∧ disjoint_teams [1;2;3;4;10]%nat [0;6;7;8;9]%nat
  ∧ tsum eleven_values [1;2;3;4;10]%nat = tsum eleven_values [0;6;7;8;9]%nat.
Proof.
  apply (find_equal_pair_returns_valid_pair eleven_values ∅).
  - exact cache_ok_empty.
  - vm_compute. reflexivity.
Defined.

(** C2. [find_equal_pair] returns [None] on [V] if and only if no pair of
    disjoint 5-element index subsets of [V] has equal sums. *)
Theorem find_equal_pair_None_iff_no_pair (V : list Z) (cache : TEAMS_CACHE) :
  cache_ok cache →
  (find_equal_pair V cache).1 = Ok None ↔
  ¬ ∃ T U, index_subset (length V) T ∧ index_subset (length V) U
           ∧ disjoint_teams T U ∧ tsum V T = tsum V U.
Proof. apply find_equal_pair_None_iff. Qed.

Lemma find_equal_pair_None_iff_no_pair_witness :
  (find_equal_pair nine_ones_two ∅).1 = Ok None ↔
  ¬ ∃ T U, index_subset (length nine_ones_two) T ∧ index_subset (length nine_ones_two) U
           ∧ disjoint_teams T U
           ∧ tsum nine_ones_two T = tsum nine_ones_two U.
Proof.
  apply (find_equal_pair_None_iff_no_pair nine_ones_two ∅).
  exact cache_ok_empty.
Defined.

(** C9. [find_equal_pair] never raises, whatever the list of integers, and
    on a list of fewer than 10 values it returns [None]. *)
Theorem find_equal_pair_total_short_None (V : list Z) (cache : TEAMS_CACHE) :
  cache_ok cache →
  (∃ r, (find_equal_pair V cache).1 = Ok r)
  ∧ ((length V < 10)%nat → (find_equal_pair V cache).1 = Ok None).
Proof.
  intros Hok. split; [by apply find_equal_pair_total|].
  intros Hlen. apply find_equal_pair_None_iff; [done|].
  intros (T & U & HT & HU & Hd & _).
  pose proof (disjoint_subsets_length _ T U HT HU Hd). lia.
Qed.

Lemma find_equal_pair_total_short_None_witness :
  (∃ r, (find_equal_pair three_values ∅).1 = Ok r)
  ∧ ((length three_values < 10)%nat → (find_equal_pair three_values ∅).1 = Ok None).
Proof.
  apply (find_equal_pair_total_short_None three_values ∅). exact cache_ok_empty.
Defined.

(** ** C7: the order of the returned pair *)

(** C7, as stated, fails: on ten 1's the finder returns
    [((1,2,3,4,5), (0,6,7,8,9))], whose first component is enumerated after
    the second. *)
Lemma returned_pair_not_in_insertion_order :
  ¬ returned_in_insertion_order ten_ones.
Proof.
  intros H.
  destruct (H [1;2;3;4;5]%nat [0;6;7;8;9]%nat) as (pre & mid & post & Hteams).
  { vm_compute. reflexivity. }
  assert (Hnd : NoDup (combinations (range (length ten_ones)) 5))
    by apply combinations_NoDup, NoDup_seq.
  assert (HT : combinations (range (length ten_ones)) 5 !! 126%nat
               = Some [1;2;3;4;5]%nat) by (vm_compute; reflexivity).
  assert (HU : combinations (range (length ten_ones)) 5 !! 125%nat
               = Some [0;6;7;8;9]%nat) by (vm_compute; reflexivity).
  assert (HT' : combinations (range (length ten_ones)) 5 !! length pre
                = Some [1;2;3;4;5]%nat).
  { rewrite Hteams. by rewrite list_lookup_middle. }
  assert (HU' : combinations (range (length ten_ones)) 5
                  !! length (pre ++ [1;2;3;4;5]%nat :: mid)
                = Some [0;6;7;8;9]%nat).
  { rewrite Hteams.
    replace (pre ++ [1;2;3;4;5]%nat :: mid ++ [0;6;7;8;9]%nat :: post)
      with ((pre ++ [1;2;3;4;5]%nat :: mid) ++ [0;6;7;8;9]%nat :: post)
      by (by rewrite <- app_assoc).
    by rewrite list_lookup_middle. }
  pose proof (NoDup_lookup _ _ _ _ Hnd HT HT') as E1.
  pose proof (NoDup_lookup _ _ _ _ Hnd HU HU') as E2.
  rewrite length_app in E2. simpl in E2. lia.
Qed.

(** C7, amended. The returned pair is [(T, U)] with [T] the subset being
    scanned and [U] a subset bucketed before it: [U] is enumerated before
    [T]. The scan stops at the first match: no subset before [T] has an
    earlier disjoint subset of equal sum, and [U] is the first such subset
    for [T], in insertion order. *)
Theorem find_equal_pair_returns_later_then_earlier
    (V : list Z) (cache : TEAMS_CACHE) (T U : team) :
  cache_ok cache →
  (find_equal_pair V cache).1 = Ok (Some (T, U)) →
  enumerated_before (combinations (range (length V)) 5) U T
  ∧ ∃ pre post,
      combinations (range (length V)) 5 = pre ++ T :: post
      ∧ first_match V pre T = Some U
      ∧ no_match V [] pre.
Proof.
  intros Hok Hres. pose proof (find_equal_pair_spec V cache Hok) as Hspec.
  rewrite Hres in Hspec. destruct Hspec as (pre & post & Hteams & Hfirst & Hno).
  split; [|by exists pre, post].
  destruct (first_match_Some _ _ _ _ Hfirst) as (HU & _ & _).
  apply list_elem_of_split in HU as (pre1 & pre2 & ->).
  exists pre1, pre2, post. rewrite Hteams. by rewrite <- app_assoc.
Qed.

Lemma find_equal_pair_returns_later_then_earlier_witness :
  enumerated_before (combinations (range (length ten_ones)) 5)
    [0;6;7;8;9]%nat [1;2;3;4;5]%nat
  ∧ ∃ pre post,
      combinations (range (length ten_ones)) 5 = pre ++ [1;2;3;4;5]%nat :: post
      ∧ first_match ten_ones pre [1;2;3;4;5]%nat = Some [0;6;7;8;9]%nat
      ∧ no_match ten_ones [] pre.
Proof.
  apply (find_equal_pair_returns_later_then_earlier ten_ones ∅).
  - exact cache_ok_empty.
  - vm_compute. reflexivity.
Defined.

(** ** The checker: parsing *)




Lemma take_digits_all (ds : str) :
  Forall (fun c => isdigit c = true) ds → take_digits ds = ds.
Proof. induction 1 as [|c ds Hc _ IH]; simpl; [done|]. by rewrite Hc, IH. Qed.

Lemma take_digits_app (ds rest : str) :
  Forall (fun c => isdigit c = true) ds →
  take_digits rest = [] →
  take_digits (ds ++ rest) = ds.
Proof.
  intros Hall Hrest. induction Hall as [|c ds Hc _ IH]; simpl; [done|].
  by rewrite Hc, IH.
Qed.

Lemma match_digits_app (ds rest : str) :
  ds ≠ [] → Forall (fun c => isdigit c = true) ds → take_digits rest = [] →
  match_digits (ds ++ rest) = Some ds.
Proof.
  intros Hne Hall Hrest. unfold match_digits.
  rewrite take_digits_app by done. by destruct ds.
Qed.

Lemma isdigit_not_sign (c : ascii) : isdigit c = true → is_sign c = false.
Proof.
  unfold isdigit, is_sign. intros H.
  apply andb_true_iff in H as [H1 H2]. apply Nat.leb_le in H1, H2.
  apply orb_false_iff. split; apply Nat.eqb_neq; lia.
Qed.


(** [int] on digits, and on a sign and digits. *)
Lemma int_unsigned (ds : str) :
  ds ≠ [] → Forall (fun c => isdigit c = true) ds →
  int ds = if int_max_str_digits <? Z.of_nat (length ds)
           then Raise ValueError else Ok (int_of_digits ds).
Proof.
  intros Hne Hall. destruct ds as [|c ds]; [done|].
  assert (Hc : isdigit c = true) by (by inversion Hall).
  unfold int, digits_of. rewrite (isdigit_not_sign c Hc).
  destruct (int_max_str_digits <? _); [done|]. f_equal.
  pose proof (isdigit_not_sign c Hc) as Hs. unfold is_sign in Hs.
  apply orb_false_iff in Hs as [H43 H45]. by rewrite H45, H43.
Qed.

Lemma int_signed (sign : ascii) (ds : str) :
  is_sign sign = true →
  int (sign :: ds)
  = if int_max_str_digits <? Z.of_nat (length ds) then Raise ValueError
    else Ok (signum [sign] * int_of_digits ds).
Proof.
  intros Hs. unfold int, digits_of, signum. rewrite Hs.
  destruct (int_max_str_digits <? _); [done|]. f_equal.
  destruct (code sign =? 45)%nat eqn:E1; [lia|].
  unfold is_sign in Hs. rewrite E1, orb_false_r in Hs. rewrite Hs. lia.
Qed.

(** What [parse_int_prefix] returns on a string that starts with an
    integer. *)
Lemma parse_int_prefix_leading (s sign ds rest : str) :
  leading_integer s sign ds rest →
  parse_int_prefix s
  = if int_max_str_digits <? Z.of_nat (length ds) then Raise ValueError
    else Ok (Some (signum sign * int_of_digits ds)).
Proof.
  intros (-> & Hsign & Hne & Hall & Hrest). unfold parse_int_prefix.
  destruct Hsign as [-> | (c & -> & Hc)].
  - destruct ds as [|d ds]; [done|].
    assert (Hd : isdigit d = true) by (by inversion Hall).
    assert (re_match_int ([] ++ (d :: ds) ++ rest) = Some (d :: ds)) as ->.
    { simpl app. unfold re_match_int. rewrite (isdigit_not_sign d Hd).
      by apply (match_digits_app (d :: ds)). }
    rewrite int_unsigned by done.
    destruct (int_max_str_digits <? _); [done|]. simpl. do 2 f_equal.
    unfold signum. lia.
  - assert (re_match_int ([c] ++ ds ++ rest) = Some (c :: ds)) as ->.
    { simpl app. unfold re_match_int. by rewrite Hc, match_digits_app. }
    rewrite int_signed by done.
    by destruct (int_max_str_digits <? _).
Qed.





(** *** The parsing loops *)

Lemma for_each_app {A S : Type} (body : S → A → S * option exn)
    (xs ys : list A) :
  ∀ st, for_each body st (xs ++ ys)
        = match for_each body st xs with
          | (st', None) => for_each body st' ys
          | (st', Some e) => (st', Some e)
          end.
Proof.
  induction xs as [|x xs IH]; intros st; simpl; [done|].
  destruct (body st x) as [st' [e|]]; [done | apply IH].
Qed.

Lemma for_each_parse_arg (args : list str) :
  ∀ acc, for_each parse_arg acc args
         = for_each parse_part acc (concat (split comma <$> args)).
Proof.
  induction args as [|arg args IH]; intros acc; simpl; [done|].
  rewrite for_each_app. unfold parse_arg at 1.
  destruct (for_each parse_part acc (split comma arg)) as [acc' [e|]];
    [done | apply IH].
Qed.

Lemma parse_int_prefix_raises (s : str) (e : exn) :
  parse_int_prefix s = Raise e → e = ValueError.
Proof.
  unfold parse_int_prefix, int.
  destruct (re_match_int s) as [text|]; [|done].
  destruct (int_max_str_digits <? _); simpl; [|done]. by intros [= <-].
Qed.

Lemma parse_part_cases (acc : list line * list Z) (part : str) :
  parse_part acc part
  = if decide (strip part = []) then (acc, None)
    else match parse_int_prefix (strip part) with
         | Raise e => (acc, Some e)
         | Ok None => ((acc.1 ++ [Warning (strip part)], acc.2), None)
         | Ok (Some val) => ((acc.1, acc.2 ++ [val]), None)
         end.
Proof. unfold parse_part. by destruct (strip part). Qed.

(** The loop over the parts, on the tokens: the tokens up to the first one
    that [int] refuses give the warnings and the values. *)
Lemma for_each_parse_part (parts : list str) :
  ∀ acc, ∃ pre post,
    filter (fun t => t ≠ []) (strip <$> parts) = pre ++ post
    ∧ Forall (fun t => ∃ v, parse_int_prefix t = Ok v) pre
    ∧ (for_each parse_part acc parts).1
      = (acc.1 ++ (Warning <$> filter (fun t => parse_int_prefix t = Ok None) pre),
         acc.2 ++ omap leading_int pre)
    ∧ match post with
      | [] => (for_each parse_part acc parts).2 = None
      | t :: _ => parse_int_prefix t = Raise ValueError
                  ∧ (for_each parse_part acc parts).2 = Some ValueError
      end.
Proof.
  induction parts as [|part parts IH]; intros [out values].
  - exists [], []. simpl. rewrite !app_nil_r.
    split_and!; [done | apply Forall_nil_2 | done | done].
  - cbn [for_each fmap list_fmap]. rewrite parse_part_cases.
    destruct (decide (strip part = [])) as [Hs | Hs].
    + rewrite filter_cons_False by (intros H; by apply H). apply IH.
    + rewrite filter_cons_True by done.
      destruct (parse_int_prefix (strip part)) as [[val|]|e] eqn:Hp.
      * destruct (IH (out, values ++ [val])) as (pre & post & Hts & Hall & H1 & H2).
        exists (strip part :: pre), post. cbn [fst snd] in *. split_and!.
        -- simpl. by f_equal.
        -- constructor; [eauto | done].
        -- rewrite H1.
           rewrite filter_cons_False by (cbv beta; congruence).
           assert (Hl : leading_int (strip part) = Some val)
             by (unfold leading_int; by rewrite Hp).
           unfold omap. cbn [list_omap]. rewrite Hl.
           by rewrite <- app_assoc.
        -- exact H2.
      * destruct (IH (out ++ [Warning (strip part)], values))
          as (pre & post & Hts & Hall & H1 & H2).
        exists (strip part :: pre), post. cbn [fst snd] in *. split_and!.
        -- simpl. by f_equal.
        -- constructor; [eauto | done].
        -- rewrite H1.
           rewrite filter_cons_True by (cbv beta; congruence).
           assert (Hl : leading_int (strip part) = None)
             by (unfold leading_int; by rewrite Hp).
           unfold omap. cbn [list_omap fmap list_fmap]. rewrite Hl.
           by rewrite <- app_assoc.
        -- exact H2.
      * pose proof (parse_int_prefix_raises _ _ Hp) as ->.
        exists [], (strip part :: filter (fun t => t ≠ []) (strip <$> parts)).
        simpl. rewrite !app_nil_r.
        split_and!; done.
Qed.

(** What the parsing loops of [main] leave, on the tokens. *)
Lemma parse_args_spec (args : list str) :
  ∃ pre post,
    tokens args = pre ++ post
    ∧ Forall (fun t => ∃ v, parse_int_prefix t = Ok v) pre
    ∧ printed_warnings args
      = Warning <$> filter (fun t => parse_int_prefix t = Ok None) pre
    ∧ parsed_values args = omap leading_int pre
    ∧ match post with
      | [] => parse_failure args = None
      | t :: _ => parse_int_prefix t = Raise ValueError
                  ∧ parse_failure args = Some ValueError
      end.
Proof.
  unfold printed_warnings, parsed_values, parse_failure, parse_args, tokens.
  rewrite for_each_parse_arg.
  destruct (for_each_parse_part (concat (split comma <$> args)) ([], []))
    as (pre & post & Hts & Hall & H1 & H2).
  exists pre, post. rewrite H1. done.
Qed.

Lemma parse_failure_cases (args : list str) :
  parse_failure args = None ∨ parse_failure args = Some ValueError.
Proof.
  destruct (parse_args_spec args) as (pre & [|t post] & _ & _ & _ & _ & H).
  - by left.
  - right. apply H.
Qed.

(** [main] once the arguments are parsed. *)
Lemma main_with_parsed (search : list Z → result (list line))
    (argv0 : str) (args : list str) :
  args ≠ [] →
  main_with search (argv0 :: args)
  = match parse_failure args with
    | Some e => {| stdout := printed_warnings args; how := Uncaught e |}
    | None =>
        let out := printed_warnings args
                   ++ [Parsed (length (parsed_values args)) (parsed_values args)] in
        if (length (parsed_values args) <? 10)%nat then
          {| stdout := out ++ [ErrorTooFew]; how := SysExit 1 |}
        else
          match search (parsed_values args) with
          | Ok report => {| stdout := out ++ report; how := Returned |}
          | Raise e => {| stdout := out; how := Uncaught e |}
          end
    end.
Proof.
  intros Hargs. unfold main_with, printed_warnings, parsed_values, parse_failure.
  destruct args as [|arg args]; [done|].
  by destruct (parse_args (arg :: args)) as [[warnings values] [e|]].
Qed.

(** ** The checker: its scan and the finder's *)





(** ** C8: too few values *)

(** C8. When the checker is run with at least one argument and fewer than
    10 integers are parsed, the run ends in an error with a status other
    than 0 and does not run the search: the run is the same whatever the
    search would do. When the parsing comes to its end, the checker prints
    the parsed values and the error and exits with status 1; the parsing
    can only be cut short by the ValueError that [int] raises for more than
    4300 digits, which nothing catches. *)
Theorem checker_too_few_values (argv0 : str) (args : list str) :
  args ≠ [] →
  (length (parsed_values args) < 10)%nat →
  main (argv0 :: args)
  = match parse_failure args with
    | None =>
        {| stdout := printed_warnings args
                     ++ [Parsed (length (parsed_values args)) (parsed_values args);
                         ErrorTooFew];
           how := SysExit 1 |}
    | Some e => {| stdout := printed_warnings args; how := Uncaught e |}
    end
  ∧ (parse_failure args = None ∨ parse_failure args = Some ValueError)
  ∧ exit_status (main (argv0 :: args)) ≠ 0
  ∧ ∀ search, main_with search (argv0 :: args) = main (argv0 :: args).
Proof.
  intros Hargs Hlen.
  assert (Hmain : ∀ search, main_with search (argv0 :: args)
    = match parse_failure args with
      | None =>
          {| stdout := printed_warnings args
                       ++ [Parsed (length (parsed_values args)) (parsed_values args);
                           ErrorTooFew];
             how := SysExit 1 |}
      | Some e => {| stdout := printed_warnings args; how := Uncaught e |}
      end).
  { intros search. rewrite main_with_parsed by done.
    destruct (parse_failure args); [done|]. cbv zeta.
    apply Nat.ltb_lt in Hlen. rewrite Hlen. by rewrite <- app_assoc. }
  split_and!.
  - apply Hmain.
  - apply parse_failure_cases.
  - unfold main. rewrite Hmain. by destruct (parse_failure args).
  - intros search. unfold main. by rewrite !Hmain.
Qed.

Lemma checker_too_few_values_witness :
  main [str_of "checker"; str_of "1,2,3"]
  = match parse_failure [str_of "1,2,3"] with
    | None =>
        {| stdout := printed_warnings [str_of "1,2,3"]
                     ++ [Parsed (length (parsed_values [str_of "1,2,3"]))
                           (parsed_values [str_of "1,2,3"]);
                         ErrorTooFew];
           how := SysExit 1 |}
    | Some e => {| stdout := printed_warnings [str_of "1,2,3"];
                   how := Uncaught e |}
    end
  ∧ (parse_failure [str_of "1,2,3"] = None
     ∨ parse_failure [str_of "1,2,3"] = Some ValueError)
  ∧ exit_status (main [str_of "checker"; str_of "1,2,3"]) ≠ 0
  ∧ ∀ search, main_with search [str_of "checker"; str_of "1,2,3"]
              = main [str_of "checker"; str_of "1,2,3"].
Proof.
  apply (checker_too_few_values (str_of "checker") [str_of "1,2,3"]).
  - done.
  - vm_compute. lia.
Defined.

(** The sample run of the claim, and a run that a token of 4301 digits
    cuts short after two values. *)
Example too_few_values_run :
  main [str_of "checker"; str_of "1,2,3"]
  = {| stdout := [Parsed 3 [1; 2; 3]; ErrorTooFew]; how := SysExit 1 |}.
Proof. vm_compute. reflexivity. Qed.

Example long_token_run :
  main [str_of "checker"; str_of "1,zz,2"; long_token; str_of "3"]
  = {| stdout := [Warning (str_of "zz")]; how := Uncaught ValueError |}.
Proof. vm_compute. reflexivity. Qed.

(** ** C10: no range validation *)




Example no_range_validation_run :
  parsed_values (tail checker_argv) = [0; -5; 250; 1000; 7; 1; 1; 1; 1; 1; 1]
  ∧ printed_warnings (tail checker_argv) = [Warning (str_of "q")].
Proof. vm_compute. done. Qed.

(** ** The models the drivers build *)

Lemma for_ok {A S : Type} (xs : list A) (body : A → S → result S) :
  (∀ x st, x ∈ xs → ∃ st', body x st = Ok st') →
  ∀ st, ∃ st', for_ xs body st = Ok st'.
Proof.
  induction xs as [|x xs IH]; intros Hbody st; simpl; [eauto|].
  destruct (Hbody x st) as [st' ->]; [left|]. simpl.
  apply IH. intros y st'' Hy. apply Hbody. by right.
Qed.

Lemma getitem_score (N i : nat) :
  (i < N)%nat → getitem (map score_var (range N)) i = Ok (score_var i).
Proof.
  intros Hi. unfold getitem, range.
  rewrite list_lookup_fmap, lookup_seq_lt by done. done.
Qed.

Lemma bind_Ok {A B : Type} (a : A) (k : A → result B) : (Ok a ≫= k) = k a.
Proof. reflexivity. Qed.

Ltac bind_step := rewrite ?bind_Ok; cbv beta iota zeta.

Tactic Notation "for_step" "as" simple_intropattern(pat) :=
  match goal with
  | |- context [for_ ?xs ?body ?st0] =>
      let H := fresh "Hbody" in
      assert (H : ∀ x st, x ∈ xs → ∃ st', body x st = Ok st');
      [| destruct (for_ok xs body H st0) as [pat ->]; clear H; bind_step]
  end.

Lemma setup_base_model_ok (N : nat) :
  (1 ≤ N)%nat → ∃ mdl, setup_base_model N = Ok (mdl, map score_var (range N)).
Proof.
  intros HN. unfold setup_base_model. cbv zeta.
  rewrite getitem_score by lia. bind_step.
  for_step as mdl1.
  { intros i m Hi. apply elem_of_seq in Hi.
    rewrite !getitem_score by lia. bind_step. eauto. }
  for_step as mdl2.
  { intros i m Hi. apply elem_of_seq in Hi.
    rewrite !getitem_score by lia. bind_step. eauto. }
  for_step as [mdl3 pair_vars].
  { intros v m _. unfold count_pairs_of.
    for_step as [mdl' eq_bools].
    - intros i [mdl' eq_bools] Hi. apply elem_of_seq in Hi.
      rewrite getitem_score by lia. bind_step. eauto.
    - eauto. }
  eauto.
Qed.

Lemma sum_expr_fold (N : nat) (T : team) :
  (∀ i, i ∈ T → (i < N)%nat) →
  ∀ acc,
    for_ T (fun i acc => x ← getitem (map score_var (range N)) i;
                         Ok (Plus acc (Var x))) acc
    = Ok (foldl (fun acc i => Plus acc (Var (score_var i))) acc T).
Proof.
  induction T as [|i T IH]; intros Hin acc; simpl; [done|].
  rewrite getitem_score by (apply Hin; left). simpl.
  apply IH. intros j Hj. apply Hin. by right.
Qed.

Lemma sum_expr_ok (N : nat) (T : team) :
  (∀ i, i ∈ T → (i < N)%nat) →
  sum_expr (map score_var (range N)) T = Ok (sum_expr_of T).
Proof. intros Hin. by apply sum_expr_fold. Qed.

Lemma eval_sum_fold (val : IntVar → Z) (T : team) :
  ∀ acc, eval val (foldl (fun acc i => Plus acc (Var (score_var i))) acc T)
         = eval val acc + foldr (fun i r => val (score_var i) + r) 0 T.
Proof.
  induction T as [|i T IH]; intros acc; simpl; [lia|].
  rewrite IH. simpl. lia.
Qed.

Lemma solution_lookup (N : nat) (val : IntVar → Z) (i : nat) :
  (i < N)%nat → solution N val !! i = Some (val (score_var i)).
Proof.
  intros Hi. unfold solution, range.
  rewrite !list_lookup_fmap, lookup_seq_lt by done. done.
Qed.

Lemma length_solution (N : nat) (val : IntVar → Z) : length (solution N val) = N.
Proof. unfold solution, range. by rewrite !length_map, length_seq. Qed.

Lemma tsum_solution (N : nat) (val : IntVar → Z) (T : team) :
  (∀ i, i ∈ T → (i < N)%nat) →
  tsum (solution N val) T = foldr (fun i r => val (score_var i) + r) 0 T.
Proof.
  induction T as [|i T IH]; intros Hin; [done|].
  unfold tsum in *. cbn [foldr].
  rewrite solution_lookup by (apply Hin; left).
  rewrite IH; [done|]. intros j Hj. apply Hin. by right.
Qed.

(** The sum expression of a subset evaluates to the sum of the solution at
    its indices. *)
Lemma eval_sum_expr_of (N : nat) (val : IntVar → Z) (T : team) :
  (∀ i, i ∈ T → (i < N)%nat) →
  eval val (sum_expr_of T) = tsum (solution N val) T.
Proof.
  intros Hin. unfold sum_expr_of.
  rewrite eval_sum_fold, tsum_solution by done. simpl. lia.
Qed.

Lemma setup_base_model_0 : setup_base_model 0 = Raise IndexError.
Proof. reflexivity. Qed.

Lemma add_constraints_app (cs1 cs2 : list Constraint) (mdl : CpModel) :
  add_constraints cs2 (add_constraints cs1 mdl) = add_constraints (cs1 ++ cs2) mdl.
Proof. unfold add_constraints. simpl. by rewrite app_assoc. Qed.

Lemma add_constraints_nil (mdl : CpModel) : add_constraints [] mdl = mdl.
Proof. destruct mdl. unfold add_constraints. simpl. by rewrite app_nil_r. Qed.

Lemma disjoint_pairs_elem (teams : list team) (A B : team) :
  (A, B) ∈ disjoint_pairs teams → A ∈ teams ∧ B ∈ teams ∧ disjoint_teams A B.
Proof.
  induction teams as [|Ti rest IH]; simpl; intros H.
  - by apply elem_of_nil in H.
  - apply elem_of_app in H as [H | H].
    + apply list_elem_of_fmap in H as (Tj & [= -> ->] & HTj).
      apply list_elem_of_filter in HTj as [Hd HTj].
      split_and!; [left | by right |]. apply isdisjoint_spec. by apply Is_true_true.
    + destruct (IH H) as (HA & HB & Hd). split_and!; [by right | by right | done].
Qed.

Lemma disjoint_pairs_intro (pre mid post : list team) (A B : team) :
  disjoint_teams A B →
  (A, B) ∈ disjoint_pairs (pre ++ A :: mid ++ B :: post).
Proof.
  intros Hd. induction pre as [|T pre IH]; simpl.
  - apply elem_of_app; left. apply list_elem_of_fmap. exists B. split; [done|].
    apply list_elem_of_filter. split.
    + apply Is_true_true. by apply isdisjoint_spec.
    + apply elem_of_app; right; left.
  - apply elem_of_app; by right.
Qed.

Lemma valid_block_indices (N : nat) (TU : team * team) :
  valid_block N TU →
  index_subset N TU.1 ∧ index_subset N TU.2 ∧ disjoint_teams TU.1 TU.2.
Proof.
  intros H. apply disjoint_pairs_elem in H as (HU & HT & Hd).
  split_and!; [by apply team_index_subset.. | by apply disjoint_teams_sym].
Qed.

Lemma for_blocks_ok (N : nat) (blocks : list (team * team)) :
  Forall (valid_block N) blocks →
  ∀ mdl,
    for_ blocks (fun '(T, U) mdl =>
       sT ← sum_expr (map score_var (range N)) T;
       sU ← sum_expr (map score_var (range N)) U;
       Ok (Add (Ne sT sU) mdl)) mdl
    = Ok (add_constraints (map ne_sums blocks) mdl).
Proof.
  induction 1 as [|[T U] blocks Hv _ IH]; intros mdl.
  - simpl. by rewrite add_constraints_nil.
  - apply valid_block_indices in Hv as ((_ & _ & HT) & (_ & _ & HU) & _).
    cbn [for_]. simpl in HT, HU.
    rewrite (sum_expr_ok N T HT), (sum_expr_ok N U HU). bind_step.
    rewrite IH. f_equal.
    change (Add (Ne (sum_expr_of T) (sum_expr_of U)) mdl)
      with (add_constraints [ne_sums (T, U)] mdl).
    by rewrite add_constraints_app.
Qed.

(** The CEGAR model is the base model followed by one disequality of sums
    for each blocking pair. *)
Lemma cegar_model_ok (N : nat) (blocks : list (team * team))
    (base : CpModel) (score : list IntVar) :
  setup_base_model N = Ok (base, score) →
  Forall (valid_block N) blocks →
  score = map score_var (range N)
  ∧ cegar_model N blocks = Ok (add_constraints (map ne_sums blocks) base, score).
Proof.
  intros Hbase Hv.
  assert (HN : (1 ≤ N)%nat).
  { destruct N; [by rewrite setup_base_model_0 in Hbase | lia]. }
  destruct (setup_base_model_ok N HN) as [base' Hbase'].
  rewrite Hbase in Hbase'. injection Hbase' as -> ->. split; [done|].
  unfold cegar_model. rewrite Hbase. bind_step.
  by rewrite for_blocks_ok.
Qed.

Lemma mapM_sum_expr_ok (N : nat) (teams : list team) :
  (∀ T i, T ∈ teams → i ∈ T → (i < N)%nat) →
  mapM (sum_expr (map score_var (range N))) teams = Ok (map sum_expr_of teams).
Proof.
  induction teams as [|T teams IH]; intros Hin; [done|].
  cbn [mapM]. rewrite sum_expr_ok by (intros i; apply Hin; left). bind_step.
  rewrite IH by (intros T' i HT'; apply Hin; by right). done.
Qed.

Lemma add_static_inner (Ti : team) (rest : list team) :
  ∀ mdl,
    foldl (fun mdl '(Tj, sj) =>
             if isdisjoint Ti Tj then Add (Ne (sum_expr_of Ti) sj) mdl else mdl)
          mdl (zip rest (map sum_expr_of rest))
    = add_constraints
        (map ne_sums (map (pair Ti) (filter (fun Tj => isdisjoint Ti Tj) rest)))
        mdl.
Proof.
  induction rest as [|Tj rest IH]; intros mdl.
  - simpl. by rewrite add_constraints_nil.
  - cbn [map zip zip_with foldl]. rewrite IH.
    destruct (isdisjoint Ti Tj) eqn:Hd.
    + rewrite filter_cons_True by (by apply Is_true_true).
      cbn [map].
      change (Add (Ne (sum_expr_of Ti) (sum_expr_of Tj)) mdl)
        with (add_constraints [ne_sums (Ti, Tj)] mdl).
      by rewrite add_constraints_app.
    + rewrite filter_cons_False; [done|].
      intros H. apply Is_true_true in H. congruence.
Qed.

Lemma add_static_constraints_ok (teams : list team) :
  ∀ mdl,
    add_static_constraints (zip teams (map sum_expr_of teams)) mdl
    = add_constraints (map ne_sums (disjoint_pairs teams)) mdl.
Proof.
  induction teams as [|Ti rest IH]; intros mdl.
  - simpl. by rewrite add_constraints_nil.
  - cbn [map zip zip_with add_static_constraints disjoint_pairs].
    rewrite add_static_inner, IH, add_constraints_app, map_app. done.
Qed.

(** The static model is the base model followed by one disequality of sums
    for each disjoint pair of subsets. *)
Lemma static_model_ok (N : nat) (base : CpModel) :
  static_model base (map score_var (range N)) (combinations (range N) 5)
  = Ok (add_constraints (map ne_sums (disjoint_pairs (combinations (range N) 5)))
          base).
Proof.
  unfold static_model. rewrite mapM_sum_expr_ok.
  - bind_step. by rewrite add_static_constraints_ok.
  - intros T i HT. apply team_index_subset in HT as (_ & _ & Hlt). apply Hlt.
Qed.

Lemma satisfies_add_constraints (val : IntVar → Z) (cs : list Constraint)
    (mdl : CpModel) :
  satisfies val (add_constraints cs mdl)
  = satisfies val mdl && forallb (holds val) cs.
Proof.
  unfold satisfies, add_constraints. simpl.
  by rewrite forallb_app, andb_assoc.
Qed.

Lemma holds_ne_sums (N : nat) (val : IntVar → Z) (A B : team) :
  (∀ i, i ∈ A → (i < N)%nat) → (∀ i, i ∈ B → (i < N)%nat) →
  holds val (ne_sums (A, B)) = true
  ↔ tsum (solution N val) A ≠ tsum (solution N val) B.
Proof.
  intros HA HB. unfold holds, ne_sums. simpl.
  rewrite (eval_sum_expr_of N val A HA), (eval_sum_expr_of N val B HB).
  rewrite negb_true_iff. apply Z.eqb_neq.
Qed.

(** ** The CEGAR loop *)

Lemma valid_blocks_bound (N : nat) (blocks : list (team * team)) :
  Forall (valid_block N) blocks → NoDup blocks →
  (length blocks ≤ length (disjoint_pairs (combinations (range N) 5)))%nat.
Proof.
  intros Hv Hnd.
  rewrite <- (length_fmap (fun TU : team * team => (TU.2, TU.1)) blocks).
  apply submseteq_length, NoDup_submseteq.
  - apply NoDup_fmap_2_strong; [|done].
    intros [T U] [T' U'] _ _ [= -> ->]. done.
  - intros p Hp. apply list_elem_of_fmap in Hp as (TU & -> & HTU).
    rewrite Forall_forall in Hv. by apply Hv.
Qed.

Section CegarLoop.

Variable Solve : CpModel → Parameters → Response.
Variable perf_counter : nat → Z.
Variables (N : nat) (wallclock_limit threads t0 : Z).
Hypothesis Solve_sound : oracle_sound_on (cegar_problem N) Solve.

Abbreviation iteration := (cegar_iteration Solve perf_counter N wallclock_limit threads t0).
Abbreviation loop fuel := (cegar_loop Solve perf_counter fuel N wallclock_limit threads t0).

(** One pass of the loop keeps the invariant; a pass that continues appends
    one pair, which the list did not hold, and a pass that stops leaves the
    list as it is. Each pass calls the solver at most once. *)
Lemma cegar_iteration_spec (st st' : cegar_state) (r : option (result bool)) :
  cegar_inv N st →
  iteration st = (r, st') →
  cegar_inv N st'
  ∧ (length (calls st') ≤ S (length (calls st)))%nat
  ∧ match r with
    | None => ∃ TU, block_clauses st' = block_clauses st ++ [TU]
                    ∧ TU ∉ block_clauses st
    | Some _ => block_clauses st' = block_clauses st
    end.
Proof.
  intros (Hc & Hv & Hnd) Hit. unfold cegar_iteration in Hit.
  destruct (cegar_model N (block_clauses st)) as [[mdl score]|e] eqn:Hmdl.
  2: { injection Hit as <- <-. split_and!; [done | lia | done]. }
  destruct (setup_base_model N) as [[base score0]|e] eqn:Hbase.
  2: { unfold cegar_model in Hmdl. by rewrite Hbase in Hmdl. }
  destruct (cegar_model_ok N _ base score0 Hbase Hv) as [-> Hmdl'].
  rewrite Hmdl' in Hmdl. injection Hmdl as <- <-.
  set (mdl := add_constraints (map ne_sums (block_clauses st)) base) in *.
  set (params := Build_Parameters _ _) in *.
  assert (Hstop : ∀ r0,
    (Some r0, {| block_clauses := block_clauses st; cache := cache st;
                 reads := S (reads st);
                 calls := calls st ++ [(mdl, params)] |}) = (r, st') →
    cegar_inv N st'
    ∧ (length (calls st') ≤ S (length (calls st)))%nat
    ∧ match r with
      | None => ∃ TU, block_clauses st' = block_clauses st ++ [TU]
                      ∧ TU ∉ block_clauses st
      | Some _ => block_clauses st' = block_clauses st
      end).
  { intros r0 [= <- <-]. simpl. rewrite length_app. simpl.
    split_and!; [done | lia | done]. }
  assert (Hsat : status (Solve mdl params) = FEASIBLE
                 ∨ status (Solve mdl params) = OPTIMAL →
    (let sol := map (Value (Solve mdl params)) (map score_var (range N)) in
     let '(found, cache') := find_equal_pair sol (cache st) in
     match found with
     | Raise e =>
         (Some (Raise e),
          {| block_clauses := block_clauses st; cache := cache';
             reads := S (reads st); calls := calls st ++ [(mdl, params)] |})
     | Ok None =>
         (Some (Ok false),
          {| block_clauses := block_clauses st; cache := cache';
             reads := S (reads st); calls := calls st ++ [(mdl, params)] |})
     | Ok (Some TU) =>
         (None,
          {| block_clauses := block_clauses st ++ [TU]; cache := cache';
             reads := S (reads st); calls := calls st ++ [(mdl, params)] |})
     end) = (r, st') →
    cegar_inv N st'
    ∧ (length (calls st') ≤ S (length (calls st)))%nat
    ∧ match r with
      | None => ∃ TU, block_clauses st' = block_clauses st ++ [TU]
                      ∧ TU ∉ block_clauses st
      | Some _ => block_clauses st' = block_clauses st
      end).
  { intros Hstatus. cbv zeta.
    fold (solution N (Value (Solve mdl params))).
    set (sol := solution N (Value (Solve mdl params))).
    pose proof (find_equal_pair_spec sol (cache st) Hc) as Hspec.
    destruct (find_equal_pair_scan sol (cache st) Hc) as [_ Hc'].
    destruct (find_equal_pair sol (cache st)) as [found cache'].
    simpl in Hspec, Hc'.
    destruct found as [[[T U]|]|e]; [| |done].
    2: { intros [= <- <-]. simpl. rewrite length_app. simpl.
         split_and!; [done | lia | done]. }
    intros [= <- <-]. simpl. rewrite length_app. simpl.
    destruct Hspec as (pre & post & Hteams & Hfirst & _).
    unfold sol in Hteams. rewrite length_solution in Hteams.
    apply first_match_Some in Hfirst as (HU & Hsum & Hd).
    assert (Hvalid : valid_block N (T, U)).
    { unfold valid_block. simpl. rewrite Hteams.
      apply list_elem_of_split in HU as (pre1 & pre2 & ->).
      rewrite <- app_assoc. simpl.
      apply disjoint_pairs_intro. by apply disjoint_teams_sym. }
    assert (Hnew : (T, U) ∉ block_clauses st).
    { intros Hin.
      assert (Hpb : cegar_problem N mdl)
        by (exists (block_clauses st), (map score_var (range N)); done).
      pose proof (Solve_sound mdl params Hpb Hstatus) as Hs.
      unfold mdl in Hs. rewrite satisfies_add_constraints in Hs.
      apply andb_true_iff in Hs as [_ Hs]. rewrite forallb_forall in Hs.
      specialize (Hs (ne_sums (T, U))).
      destruct (valid_block_indices N (T, U) Hvalid)
        as ((_ & _ & HT) & (_ & _ & HU') & _). simpl in HT, HU'.
      apply (holds_ne_sums N (Value (Solve mdl params)) T U HT HU');
        [|by symmetry].
      apply Hs, in_map, list_elem_of_In, Hin. }
    split_and!; [split_and!; [done | | ] | lia | eauto].
    - apply Forall_app. split; [done | by constructor].
    - apply NoDup_app. split_and!; [done | | apply NoDup_singleton].
      intros x Hx Hx'. apply list_elem_of_singleton in Hx' as ->. done. }
  destruct (status (Solve mdl params)) eqn:Hst;
    [by apply (Hstop (Raise (TimeoutError N)))
    |by apply (Hstop (Raise (TimeoutError N)))
    |apply Hsat; [by left | exact Hit]
    |by apply (Hstop (Ok true))
    |apply Hsat; [by right | exact Hit]].
Qed.

Lemma cegar_loop_spec (fuel : nat) :
  ∀ (st st' : cegar_state) (r : option (result bool)),
    cegar_inv N st →
    loop fuel st = (r, st') →
    cegar_inv N st'
    ∧ block_clauses st `prefix_of` block_clauses st'
    ∧ (length (calls st') + length (block_clauses st)
       ≤ length (calls st) + length (block_clauses st') + 1)%nat
    ∧ (r = None →
       length (block_clauses st') = (length (block_clauses st) + fuel)%nat).
Proof.
  induction fuel as [|fuel IH]; intros st st' r Hinv Hloop; simpl in Hloop.
  - injection Hloop as <- <-. split_and!; [done | done | lia | lia].
  - destruct (iteration st) as [[r1|] st1] eqn:Hit.
    + injection Hloop as <- <-.
      destruct (cegar_iteration_spec st st1 _ Hinv Hit) as (Hinv1 & Hcalls & Hb).
      rewrite Hb. split_and!; [done | done | lia | done].
    + destruct (cegar_iteration_spec st st1 _ Hinv Hit)
        as (Hinv1 & Hcalls & TU & Hb & _).
      destruct (IH st1 st' r Hinv1 Hloop) as (Hinv' & Hpre & Hc & Hlen).
      rewrite Hb in Hpre, Hc, Hlen. rewrite length_app in Hc, Hlen. simpl in *.
      split_and!; [done | | lia | intros Hr; rewrite (Hlen Hr); lia].
      etrans; [|exact Hpre]. by apply prefix_app_r.
Qed.

(** More fuel does not change a run that has stopped, and continues a run
    that has not. *)
Lemma cegar_loop_add (fuel1 fuel2 : nat) (st : cegar_state) :
  loop (fuel1 + fuel2) st
  = match loop fuel1 st with
    | (Some r, st') => (Some r, st')
    | (None, st') => loop fuel2 st'
    end.
Proof.
  revert st. induction fuel1 as [|fuel1 IH]; intros st; simpl; [done|].
  destruct (iteration st) as [[r1|] st1]; [done|]. apply IH.
Qed.

(** The loop stops within one pass more than there are disjoint pairs. *)
Lemma cegar_loop_stops (fuel : nat) (st : cegar_state) :
  cegar_inv N st →
  (length (disjoint_pairs (combinations (range N) 5)) < fuel)%nat →
  ∃ r st', loop fuel st = (Some r, st').
Proof.
  intros Hinv Hfuel.
  destruct (loop fuel st) as [[r|] st'] eqn:Hloop; [eauto|].
  destruct (cegar_loop_spec fuel st st' None Hinv Hloop)
    as ((_ & Hv & Hnd) & _ & _ & Hlen).
  pose proof (valid_blocks_bound N _ Hv Hnd). specialize (Hlen eq_refl). lia.
Qed.

End CegarLoop.

Lemma cegar_init_inv (N : nat) (cache : TEAMS_CACHE) :
  cache_ok cache → cegar_inv N (cegar_init cache).
Proof. intros Hc. split_and!; [done | constructor | constructor]. Qed.

Lemma oracle_sound_any (P : CpModel → Prop)
    (Solve : CpModel → Parameters → Response) :
  oracle_sound Solve → oracle_sound_on P Solve.
Proof. intros H mdl params _. by apply H. Qed.

Lemma try_candidates_sound (candidates : list (IntVar → Z)) :
  oracle_sound (try_candidates candidates).
Proof.
  intros mdl params _. induction candidates as [|val rest IH]; simpl.
  - intros [H | H]; discriminate.
  - destruct (satisfies val mdl) eqn:Hs; simpl; [done | exact IH].
Qed.

Example sample_run :
  let run := prove_with_cegar sample_solver stopped_clock 3 10 60 1 ∅ in
  run.1 = Some (Ok false)
  ∧ block_clauses run.2 = [([1;2;3;7;9]%nat, [0;4;5;6;8]%nat)]
  ∧ length (calls run.2) = 2%nat.
Proof. vm_compute. done. Qed.

(** ** C6: the blocking clauses only grow *)

(** C6. Throughout a run of [prove_with_cegar], with a solver whose
    solutions satisfy the problem they are given for, the list
    [block_clauses] only grows: its value after [fuel1] passes is an initial
    segment of its value after any larger number of passes, so no element
    is removed; and it never holds the same pair twice. *)
Theorem block_clauses_only_grow
    (Solve : CpModel → Parameters → Response) (perf_counter : nat → Z)
    (N : nat) (wallclock_limit threads : Z) (cache : TEAMS_CACHE)
    (fuel1 fuel2 : nat) :
  oracle_sound Solve → cache_ok cache → (fuel1 ≤ fuel2)%nat →
  block_clauses
    (prove_with_cegar Solve perf_counter fuel1 N wallclock_limit threads cache).2
  `prefix_of`
  block_clauses
    (prove_with_cegar Solve perf_counter fuel2 N wallclock_limit threads cache).2
  ∧ NoDup (block_clauses
      (prove_with_cegar Solve perf_counter fuel2 N wallclock_limit threads cache).2).
Proof.
  intros Hsound Hc Hle. unfold prove_with_cegar.
  pose proof (oracle_sound_any (cegar_problem N) Solve Hsound) as Hs.
  pose proof (cegar_init_inv N cache Hc) as Hinit.
  split.
  - replace fuel2 with (fuel1 + (fuel2 - fuel1))%nat by lia.
    rewrite cegar_loop_add.
    destruct (cegar_loop _ _ fuel1 _ _ _ _ _) as [[r|] st1] eqn:H1; [done|].
    destruct (cegar_loop_spec Solve perf_counter N wallclock_limit threads
                (perf_counter 0%nat) Hs fuel1 _ _ _ Hinit H1) as (Hinv1 & _).
    destruct (cegar_loop _ _ (fuel2 - fuel1) _ _ _ _ st1) as [r2 st2] eqn:H2.
    by destruct (cegar_loop_spec Solve perf_counter N wallclock_limit threads
                   (perf_counter 0%nat) Hs _ _ _ _ Hinv1 H2) as (_ & Hpre & _).
  - destruct (cegar_loop _ _ fuel2 _ _ _ _ _) as [r2 st2] eqn:H2.
    by destruct (cegar_loop_spec Solve perf_counter N wallclock_limit threads
                   (perf_counter 0%nat) Hs _ _ _ _ Hinit H2) as ((_ & _ & Hnd) & _).
Qed.

Lemma block_clauses_only_grow_witness :
  block_clauses (prove_with_cegar sample_solver stopped_clock 1 10 60 1 ∅).2
  `prefix_of`
  block_clauses (prove_with_cegar sample_solver stopped_clock 3 10 60 1 ∅).2
  ∧ NoDup (block_clauses
             (prove_with_cegar sample_solver stopped_clock 3 10 60 1 ∅).2).
Proof.
  apply (block_clauses_only_grow sample_solver stopped_clock 10 60 1 ∅ 1 3).
  - apply try_candidates_sound.
  - exact cache_ok_empty.
  - lia.
Defined.

(** ** C5: the refinement loop terminates *)

(** C5. With a solver whose solutions satisfy the problem they are given
    for, every pass of the loop of [prove_with_cegar] that does not stop
    appends a blocking pair that the list did not hold; so the loop stops
    (it returns or raises) within [pair_count N + 1] passes, after at most
    [pair_count N] refinements and [pair_count N + 1] calls of the solver,
    [pair_count N] being the number of disjoint pairs of 5-subsets of
    [range(N)]. *)
Theorem cegar_terminates
    (Solve : CpModel → Parameters → Response) (perf_counter : nat → Z)
    (N : nat) (wallclock_limit threads : Z) (cache : TEAMS_CACHE) :
  oracle_sound Solve → cache_ok cache →
  (∀ fuel st st',
     prove_with_cegar Solve perf_counter fuel N wallclock_limit threads cache
     = (None, st) →
     cegar_iteration Solve perf_counter N wallclock_limit threads
       (perf_counter 0%nat) st = (None, st') →
     ∃ TU, block_clauses st' = block_clauses st ++ [TU]
           ∧ TU ∉ block_clauses st)
  ∧ ∀ fuel, (pair_count N < fuel)%nat →
      ∃ r st,
        prove_with_cegar Solve perf_counter fuel N wallclock_limit threads cache
        = (Some r, st)
        ∧ (length (block_clauses st) ≤ pair_count N)%nat
        ∧ (length (calls st) ≤ pair_count N + 1)%nat.
Proof.
  intros Hsound Hc. unfold prove_with_cegar.
  pose proof (oracle_sound_any (cegar_problem N) Solve Hsound) as Hs.
  pose proof (cegar_init_inv N cache Hc) as Hinit.
  split.
  - intros fuel st st' Hrun Hit.
    destruct (cegar_loop_spec Solve perf_counter N wallclock_limit threads
                (perf_counter 0%nat) Hs fuel _ _ _ Hinit Hrun) as (Hinv & _).
    by destruct (cegar_iteration_spec Solve perf_counter N wallclock_limit
                   threads (perf_counter 0%nat) Hs st st' None Hinv Hit)
      as (_ & _ & HTU).
  - intros fuel Hfuel.
    destruct (cegar_loop_stops Solve perf_counter N wallclock_limit threads
                (perf_counter 0%nat) Hs fuel _ Hinit Hfuel) as (r & st & Hrun).
    exists r, st. split; [done|].
    destruct (cegar_loop_spec Solve perf_counter N wallclock_limit threads
                (perf_counter 0%nat) Hs fuel _ _ _ Hinit Hrun)
      as ((_ & Hv & Hnd) & _ & Hcalls & _).
    pose proof (valid_blocks_bound N _ Hv Hnd) as Hb. fold (pair_count N) in Hb.
    simpl in Hcalls. lia.
Qed.

Lemma cegar_terminates_witness :
  (∀ fuel st st',
     prove_with_cegar sample_solver stopped_clock fuel 10 60 1 ∅ = (None, st) →
     cegar_iteration sample_solver stopped_clock 10 60 1 (stopped_clock 0%nat) st
     = (None, st') →
     ∃ TU, block_clauses st' = block_clauses st ++ [TU]
           ∧ TU ∉ block_clauses st)
  ∧ ∀ fuel, (pair_count 10 < fuel)%nat →
      ∃ r st,
        prove_with_cegar sample_solver stopped_clock fuel 10 60 1 ∅ = (Some r, st)
        ∧ (length (block_clauses st) ≤ pair_count 10)%nat
        ∧ (length (calls st) ≤ pair_count 10 + 1)%nat.
Proof.
  apply (cegar_terminates sample_solver stopped_clock 10 60 1 ∅).
  - apply try_candidates_sound.
  - exact cache_ok_empty.
Defined.

Example pair_count_10 : pair_count 10 = 126%nat.
Proof. vm_compute. reflexivity. Qed.

(** ** C4: an exhausted budget *)





Example expired_budget_run :
  let run := prove_with_cegar five_solver stopped_clock 1 5 0 1 ∅ in
  run.1 = Some (Ok false)
  ∧ map (fun c => max_time_in_seconds c.2) (calls run.2) = [0].
Proof. vm_compute. done. Qed.



(** ** C3: the two drivers agree *)


Lemma holds_ne_sums_swap (N : nat) (val : IntVar → Z) (A B : team) :
  (∀ i, i ∈ A → (i < N)%nat) → (∀ i, i ∈ B → (i < N)%nat) →
  holds val (ne_sums (A, B)) = true → holds val (ne_sums (B, A)) = true.
Proof.
  intros HA HB H. apply (holds_ne_sums N val B A HB HA).
  apply (holds_ne_sums N val A B HA HB) in H. congruence.
Qed.

(** A solution of the static model is a solution of every CEGAR model. *)
Lemma static_solution_cegar (N : nat) (base : CpModel)
    (blocks : list (team * team)) (val : IntVar → Z) :
  Forall (valid_block N) blocks →
  satisfies val
    (add_constraints (map ne_sums (disjoint_pairs (combinations (range N) 5))) base)
  = true →
  satisfies val (add_constraints (map ne_sums blocks) base) = true.
Proof.
  intros Hv. rewrite !satisfies_add_constraints, !andb_true_iff.
  intros [Hbase Hpairs]. split; [done|].
  rewrite forallb_forall in Hpairs. apply forallb_forall. intros c Hc.
  apply in_map_iff in Hc as ([T U] & <- & HTU).
  rewrite Forall_forall in Hv. apply list_elem_of_In in HTU.
  pose proof (Hv _ HTU) as Hvalid.
  destruct (valid_block_indices N (T, U) Hvalid)
    as ((_ & _ & HT) & (_ & _ & HU) & _). simpl in HT, HU.
  apply (holds_ne_sums_swap N val U T HU HT).
  apply Hpairs, in_map, list_elem_of_In, Hvalid.
Qed.

(** A solution of a CEGAR model in which no two disjoint subsets have equal
    sums is a solution of the static model. *)
Lemma counterexample_solves_static (N : nat) (base : CpModel)
    (blocks : list (team * team)) (val : IntVar → Z) :
  satisfies val (add_constraints (map ne_sums blocks) base) = true →
  (¬ ∃ T U, index_subset N T ∧ index_subset N U ∧ disjoint_teams T U
            ∧ tsum (solution N val) T = tsum (solution N val) U) →
  satisfies val
    (add_constraints (map ne_sums (disjoint_pairs (combinations (range N) 5))) base)
  = true.
Proof.
  rewrite !satisfies_add_constraints, !andb_true_iff.
  intros [Hbase _] Hnone. split; [done|].
  apply forallb_forall. intros c Hc.
  apply in_map_iff in Hc as ([A B] & <- & HAB).
  apply list_elem_of_In, disjoint_pairs_elem in HAB as (HA & HB & Hd).
  apply team_index_subset in HA, HB.
  apply (holds_ne_sums N val A B); [apply HA | apply HB |].
  intros Hsum. apply Hnone. by exists A, B.
Qed.

Section Agreement.

Variable Solve : CpModel → Parameters → Response.
Variable perf_counter : nat → Z.
Variables (N : nat) (wallclock_limit threads t0 : Z).
Hypothesis Solve_correct : oracle_correct_on (cegar_problem N) Solve.



End Agreement.


(** A sample run of both drivers on [N = 10]: the sample solver decides
    every problem the drivers build, since nine 1's and a 2 satisfy the
    static model. *)
Lemma base_model_of (N : nat) (base : CpModel) (score : list IntVar) :
  setup_base_model N = Ok (base, score) →
  base = model_of (setup_base_model N).
Proof. intros H. by rewrite H. Qed.

Lemma nine_ones_two_solves_static :
  satisfies (assignment_of nine_ones_two)
    (add_constraints (map ne_sums (disjoint_pairs (combinations (range 10) 5)))
       (model_of (setup_base_model 10)))
  = true.
Proof. vm_compute. reflexivity. Qed.

(** A solver that tries two candidates decides every problem that the
    second candidate solves. *)
Lemma try_two_correct (a b : IntVar → Z) (mdl : CpModel) (params : Parameters) :
  satisfies b mdl = true →
  match status (try_candidates [a; b] mdl params) with
  | UNKNOWN | MODEL_INVALID => False
  | INFEASIBLE => ∀ val, satisfies val mdl = false
  | FEASIBLE | OPTIMAL =>
      satisfies (Value (try_candidates [a; b] mdl params)) mdl = true
  end.
Proof.
  intros Hb. unfold try_candidates.
  destruct (satisfies a mdl) eqn:Ha; simpl; [done|]. by rewrite Hb.
Qed.

Lemma sample_solver_correct_cegar :
  oracle_correct_on (cegar_problem 10) sample_solver.
Proof.
  intros mdl params (blocks & score & Hv & Hmdl).
  destruct (setup_base_model_ok 10 ltac:(lia)) as [base Hbase].
  destruct (cegar_model_ok 10 blocks base _ Hbase Hv) as [_ Hmdl'].
  assert (mdl = add_constraints (map ne_sums blocks) base) as -> by congruence.
  apply try_two_correct.
  apply (static_solution_cegar 10 base blocks _ Hv).
  rewrite (base_model_of _ _ _ Hbase).
  exact nine_ones_two_solves_static.
Qed.

Lemma sample_solver_correct_static :
  oracle_correct_on (static_problem 10) sample_solver.
Proof.
  intros mdl params (base & score & Hbase & Hmdl).
  destruct (setup_base_model_ok 10 ltac:(lia)) as [base' Hbase'].
  assert (score = map score_var (range 10)) as -> by congruence.
  pose proof (static_model_ok 10 base) as Hs.
  assert (mdl = add_constraints
                  (map ne_sums (disjoint_pairs (combinations (range 10) 5))) base)
    as -> by congruence.
  apply try_two_correct.
  rewrite (base_model_of _ _ _ Hbase).
  exact nine_ones_two_solves_static.
Qed.


Example sample_static_run :
  (prove_static sample_solver 10 60 1 ∅).1 = Ok false.
Proof. vm_compute. reflexivity. Qed.

Example five_solver_solves_base :
  satisfies (assignment_of [1;2;3;4;5]) (model_of (setup_base_model 5)) = true.
Proof. vm_compute. reflexivity. Qed.

(** * Further properties *)

(** ** The subset enumeration and its cache *)

(** X1. [get_5_subsets] memoises: after a call the cache holds the returned
    list for [N], a second call returns the same list and leaves the cache
    as it is, the entries of the other keys are untouched, and an entry
    that was present is returned as it is, without recomputation. *)
Theorem get_5_subsets_memo (N : nat) (cache : TEAMS_CACHE) :
  let '(teams, cache') := get_5_subsets N cache in
  cache' !! N = Some teams
  ∧ get_5_subsets N cache' = (teams, cache')
  ∧ (∀ M, M ≠ N → cache' !! M = cache !! M)
  ∧ (∀ teams0, cache !! N = Some teams0 → teams = teams0 ∧ cache' = cache).
Proof.
  unfold get_5_subsets. destruct (cache !! N) as [teams|] eqn:Hc.
  - rewrite Hc. split_and!; [done | done | done |]. by intros ? [= <-].
  - rewrite lookup_insert_eq. split_and!; [done | done | | done].
    intros M HM. by rewrite lookup_insert_ne.
Qed.

Lemma sublist_seq_sorted (T : list nat) :
  ∀ a n, T `sublist_of` seq a n → StronglySorted lt T.
Proof.
  intros a n. revert a T. induction n as [|n IH]; intros a T Hsub; simpl in Hsub.
  - apply sublist_nil_r in Hsub as ->. constructor.
  - inversion Hsub as [|x l1 l2 Hs|x l1 l2 Hs]; subst.
    + constructor; [by eapply IH|].
      apply Forall_forall. intros i Hi.
      apply (sublist_subseteq _ _ Hs), elem_of_seq in Hi. lia.
    + by eapply IH.
Qed.

Lemma sorted_sublist_seq (T : list nat) :
  StronglySorted lt T →
  ∀ a n, (∀ i, i ∈ T → (a ≤ i < a + n)%nat) → T `sublist_of` seq a n.
Proof.
  intros HT a n. revert a T HT. induction n as [|n IH]; intros a T HT Hin; simpl.
  - destruct T as [|i T]; [constructor|]. specialize (Hin i ltac:(left)). lia.
  - destruct T as [|i T]; [apply sublist_nil_l|].
    apply StronglySorted_cons in HT as [Hlt HT].
    destruct (decide (i = a)) as [-> | Hne].
    + constructor. apply IH; [done|]. intros j Hj.
      rewrite Forall_forall in Hlt. specialize (Hlt j Hj).
      specialize (Hin j ltac:(by right)). lia.
    + apply sublist_cons. apply IH.
      * by apply StronglySorted_cons.
      * intros j Hj. pose proof (Hin j Hj) as Hj'.
        apply elem_of_cons in Hj as [-> | Hj].
        -- specialize (Hin i ltac:(left)). lia.
        -- rewrite Forall_forall in Hlt. specialize (Hlt j Hj).
           specialize (Hin i ltac:(left)). lia.
Qed.

(** X2. The tuples that [get_5_subsets N] returns are exactly the strictly
    increasing 5-tuples of indices below [N], each once. *)
Theorem teams_are_sorted_subsets (N : nat) (cache : TEAMS_CACHE) (T : team) :
  cache_ok cache →
  (T ∈ (get_5_subsets N cache).1
   ↔ length T = 5%nat ∧ StronglySorted lt T ∧ ∀ i, i ∈ T → (i < N)%nat)
  ∧ NoDup (get_5_subsets N cache).1.
Proof.
  intros Hok. destruct (get_5_subsets_ok N cache Hok) as [-> _].
  split; [|apply combinations_NoDup, NoDup_seq].
  split.
  - intros HT. apply combinations_sublist in HT as [Hsub Hlen].
    split_and!; [done | by eapply sublist_seq_sorted |].
    intros i Hi. apply (sublist_subseteq _ _ Hsub), elem_of_seq in Hi. lia.
  - intros (Hlen & Hs & Hlt). rewrite <- Hlen.
    apply combinations_complete, sorted_sublist_seq; [done|].
    intros i Hi. specialize (Hlt i Hi). lia.
Qed.

Lemma scan_teams_naive (scores : list Z) (rest : list team) :
  ∀ (seen : list team) (by_sum : gmap Z (list team)),
    (∀ T i, T ∈ rest → i ∈ T → (i < length scores)%nat) →
    bucket_inv scores seen by_sum →
    scan_teams scores by_sum rest = Ok (naive_search scores seen rest).
Proof.
  induction rest as [|T rest IH]; intros seen by_sum Hidx Hinv; simpl; [done|].
  rewrite sum_scores_tsum by (intros i; apply Hidx; left). simpl.
  rewrite Hinv. fold (first_match scores seen T).
  destruct (first_match scores seen T) as [U|]; [done|].
  apply IH; [|by apply bucket_inv_insert].
  intros T' i HT'. apply Hidx. by right.
Qed.

(** ** The finder as a search *)

(** X4. [find_equal_pair] returns what the quadratic search returns: the
    buckets change the cost, not the result. *)
Theorem find_equal_pair_is_naive_search (scores : list Z) (cache : TEAMS_CACHE) :
  cache_ok cache →
  (find_equal_pair scores cache).1
  = Ok (naive_search scores [] (combinations (range (length scores)) 5)).
Proof.
  intros Hok. destruct (find_equal_pair_scan scores cache Hok) as [-> _].
  apply scan_teams_naive; [|apply bucket_inv_empty].
  intros T i HT Hi. apply team_index_subset in HT as (_ & _ & Hlt). by apply Hlt.
Qed.

(** X5. [find_equal_pair] leaves an entry for [len(scores)] in the cache
    and touches no other entry; a second call on the same scores returns
    the same result and leaves the cache as it is. *)
Theorem find_equal_pair_fills_cache (scores : list Z) (cache : TEAMS_CACHE) :
  let cache' := (find_equal_pair scores cache).2 in
  is_Some (cache' !! length scores)
  ∧ (∀ M, M ≠ length scores → cache' !! M = cache !! M)
  ∧ find_equal_pair scores cache' = ((find_equal_pair scores cache).1, cache').
Proof.
  unfold find_equal_pair.
  pose proof (get_5_subsets_memo (length scores) cache) as H.
  destruct (get_5_subsets (length scores) cache) as [teams cache'].
  destruct H as (Hl & Hagain & Hother & _). simpl.
  split_and!; [by eexists | done |]. by rewrite Hagain.
Qed.

Lemma teams_are_sorted_subsets_witness :
  ([0; 2; 3; 5; 6]%nat ∈ (get_5_subsets 7 ∅).1
   ↔ length [0; 2; 3; 5; 6]%nat = 5%nat
     ∧ StronglySorted lt [0; 2; 3; 5; 6]%nat
     ∧ ∀ i, i ∈ [0; 2; 3; 5; 6]%nat → (i < 7)%nat)
  ∧ NoDup (get_5_subsets 7 ∅).1.
Proof.
  apply (teams_are_sorted_subsets 7 ∅ [0; 2; 3; 5; 6]%nat). exact cache_ok_empty.
Defined.

Lemma find_equal_pair_is_naive_search_witness :
  (find_equal_pair ten_ones ∅).1
  = Ok (naive_search ten_ones [] (combinations (range (length ten_ones)) 5)).
Proof.
  apply (find_equal_pair_is_naive_search ten_ones ∅). exact cache_ok_empty.
Defined.

Section Counting.

Local Open Scope nat_scope.

Lemma fact_S (n : nat) : fact (S n) = S n * fact n.
Proof. reflexivity. Qed.

Lemma length_combinations {A : Type} (pool : list A) :
  ∀ r,
    (r ≤ length pool →
     length (combinations pool r) * (fact r * fact (length pool - r))
     = fact (length pool))%nat
    ∧ ((length pool < r)%nat → combinations pool r = []).
Proof.
  induction pool as [|x pool IH]; intros r.
  - destruct r as [|r]; simpl; split; intros; try lia; done.
  - destruct r as [|r].
    + simpl. split; [intros _; lia | lia].
    + cbn [combinations length]. split.
      * intros Hr. rewrite length_app, length_map.
        destruct (IH r) as [IH1 _]. specialize (IH1 ltac:(lia)).
        destruct (IH (S r)) as [IH2 IH2'].
        replace (S (length pool) - S r) with (length pool - r) by lia.
        rewrite (fact_S (length pool)).
        destruct (decide (S r ≤ length pool)) as [Hle | Hgt].
        -- specialize (IH2 Hle).
           replace (length pool - r) with (S (length pool - S r)) in * by lia.
           set (m := length pool - S r) in *.
           transitivity (S r * (length (combinations pool r) * (fact r * fact (S m)))
                         + S m * (length (combinations pool (S r))
                                  * (fact (S r) * fact m))).
           { rewrite !fact_S. ring. }
           rewrite IH1, IH2. unfold m. nia.
        -- rewrite (IH2' ltac:(lia)). simpl length.
           assert (r = length pool) as -> by lia.
           rewrite Nat.sub_diag in *.
           transitivity (S (length pool)
                         * (length (combinations pool (length pool))
                            * (fact (length pool) * fact 0))).
           { rewrite !fact_S. simpl fact. ring. }
           by rewrite IH1.
      * intros Hr. destruct (IH r) as [_ IH1]. destruct (IH (S r)) as [_ IH2].
        simpl in Hr. rewrite IH1, IH2 by lia. done.
Qed.

(** X3. [get_5_subsets N] returns [N (N-1) (N-2) (N-3) (N-4) / 120] tuples,
    the number of 5-element subsets of [N] indices: none for [N < 5]. *)
Theorem get_5_subsets_count (N : nat) (cache : TEAMS_CACHE) :
  cache_ok cache →
  120 * length (get_5_subsets N cache).1 = N * (N - 1) * (N - 2) * (N - 3) * (N - 4).
Proof.
  intros Hok. destruct (get_5_subsets_ok N cache Hok) as [-> _].
  destruct (length_combinations (range N) 5) as [Hle Hgt].
  unfold range in *. rewrite length_seq in *.
  destruct (decide (5 ≤ N)) as [H5 | H5].
  - specialize (Hle H5).
    destruct N as [|[|[|[|[|n]]]]]; try lia.
    replace (S (S (S (S (S n)))) - 5) with n in Hle by lia.
    pose proof (lt_O_fact n) as Hpos.
    set (f := length _) in *.
    change (fact (S (S (S (S (S n))))))
      with (S (S (S (S (S n)))) * (S (S (S (S n))) * (S (S (S n)) * (S (S n) * (S n * fact n))))) in Hle.
    change (fact 5) with 120 in Hle.
    replace (S (S (S (S (S n)))) - 1) with (S (S (S (S n)))) by lia.
    replace (S (S (S (S (S n)))) - 2) with (S (S (S n))) by lia.
    replace (S (S (S (S (S n)))) - 3) with (S (S n)) by lia.
    replace (S (S (S (S (S n)))) - 4) with (S n) by lia.
    apply (Nat.mul_cancel_r _ _ (fact n)); [lia|]. lia.
  - rewrite (Hgt ltac:(lia)). simpl length.
    destruct N as [|[|[|[|[|n]]]]]; simpl; lia.
Qed.

Lemma get_5_subsets_count_witness :
  120 * length (get_5_subsets 10 ∅).1 = 10 * (10 - 1) * (10 - 2) * (10 - 3) * (10 - 4).
Proof. apply (get_5_subsets_count 10 ∅). exact cache_ok_empty. Defined.

End Counting.

(** ** The checker: what it parses *)

Lemma take_digits_split (s : str) :
  ∃ rest, s = take_digits s ++ rest
          ∧ Forall (fun c => isdigit c = true) (take_digits s)
          ∧ take_digits rest = [].
Proof.
  induction s as [|c s IH]; simpl.
  - exists []. split_and!; [done | constructor | done].
  - destruct (isdigit c) eqn:Hc.
    + destruct IH as (rest & Hs & Hall & Hrest). exists rest.
      split_and!; [simpl; by f_equal | by constructor | done].
    + exists (c :: s). split_and!; [done | constructor | simpl; by rewrite Hc].
Qed.

Lemma match_digits_Some (s ds : str) :
  match_digits s = Some ds →
  ∃ rest, s = ds ++ rest ∧ ds ≠ []
          ∧ Forall (fun c => isdigit c = true) ds ∧ take_digits rest = [].
Proof.
  unfold match_digits. intros H.
  destruct (take_digits_split s) as (rest & Hs & Hall & Hrest).
  destruct (take_digits s) as [|d ds'] eqn:Htd; [done|].
  injection H as <-. exists rest. done.
Qed.

Lemma match_digits_None (s : str) :
  match_digits s = None → take_digits s = [].
Proof. unfold match_digits. by destruct (take_digits s). Qed.

(** A string that the regular expression matches starts with an
    integer. *)
Lemma re_match_int_leading (s text : str) :
  re_match_int s = Some text →
  ∃ sign ds rest, leading_integer s sign ds rest.
Proof.
  intros Hm. unfold re_match_int in Hm.
  destruct s as [|c s']; [discriminate Hm|].
  destruct (is_sign c) eqn:Hc.
  - destruct (match_digits s') as [ds|] eqn:Hd.
    + apply match_digits_Some in Hd as (rest & -> & Hne & Hall & Hrest).
      exists [c], ds, rest. split_and!; [done | right; eauto | done..].
    + apply match_digits_Some in Hm as (rest & Hs & Hne & Hall & Hrest).
      destruct text as [|d ds]; [done|]. injection Hs as <- _.
      inversion Hall; subst. by rewrite isdigit_not_sign in Hc.
  - apply match_digits_Some in Hm as (rest & Hs & Hne & Hall & Hrest).
    exists [], text, rest. split_and!; [done | by left | done..].
Qed.

(** X6. On strings of code points below 256, [parse_int_prefix] returns an
    integer exactly for the strings made of an optional sign [+] or [-],
    at least one and at most 4300 digits, and a rest that does not start
    with a digit; the integer is the decimal value of the digits, negated
    after [-]. With more than 4300 digits it raises ValueError, the
    default limit of [int], and it raises nothing else. It returns [None]
    for every other string. *)
Theorem parse_int_prefix_spec (s : str) :
  (∀ v, parse_int_prefix s = Ok (Some v)
        ↔ ∃ sign ds rest,
            leading_integer s sign ds rest
            ∧ Z.of_nat (length ds) ≤ int_max_str_digits
            ∧ v = signum sign * int_of_digits ds)
  ∧ (∀ e, parse_int_prefix s = Raise e
          ↔ e = ValueError
            ∧ ∃ sign ds rest,
                leading_integer s sign ds rest
                ∧ int_max_str_digits < Z.of_nat (length ds))
  ∧ (parse_int_prefix s = Ok None
     ↔ ¬ ∃ sign ds rest, leading_integer s sign ds rest).
Proof.
  assert (Hlead : ∀ r, parse_int_prefix s = r → r ≠ Ok None →
            ∃ sign ds rest,
              leading_integer s sign ds rest
              ∧ r = if int_max_str_digits <? Z.of_nat (length ds)
                    then Raise ValueError
                    else Ok (Some (signum sign * int_of_digits ds))).
  { intros r Hr Hne.
    destruct (re_match_int s) as [text|] eqn:Hm.
    - destruct (re_match_int_leading s text Hm) as (sign & ds & rest & Hl).
      exists sign, ds, rest. split; [done|].
      by rewrite <- Hr, (parse_int_prefix_leading _ _ _ _ Hl).
    - unfold parse_int_prefix in Hr. rewrite Hm in Hr. congruence. }
  split_and!.
  - intros v. split.
    + intros Hv. destruct (Hlead _ Hv ltac:(done)) as (sign & ds & rest & Hl & Hr).
      exists sign, ds, rest.
      destruct (Z.ltb_spec int_max_str_digits (Z.of_nat (length ds)));
        [done|]. injection Hr as ->. done.
    + intros (sign & ds & rest & Hl & Hlen & ->).
      rewrite (parse_int_prefix_leading _ _ _ _ Hl).
      by destruct (Z.ltb_spec int_max_str_digits (Z.of_nat (length ds)));
        [lia|].
  - intros e. split.
    + intros He. destruct (Hlead _ He ltac:(done)) as (sign & ds & rest & Hl & Hr).
      destruct (Z.ltb_spec int_max_str_digits (Z.of_nat (length ds)));
        [|done]. injection Hr as ->. split; [done|].
      by exists sign, ds, rest.
    + intros (-> & sign & ds & rest & Hl & Hlen).
      rewrite (parse_int_prefix_leading _ _ _ _ Hl).
      by destruct (Z.ltb_spec int_max_str_digits (Z.of_nat (length ds)));
        [|lia].
  - split.
    + intros Hn (sign & ds & rest & Hl).
      rewrite (parse_int_prefix_leading _ _ _ _ Hl) in Hn.
      by destruct (int_max_str_digits <? _).
    + intros Hnone. pose proof (Hlead _ eq_refl) as H.
      destruct (parse_int_prefix s) as [[v|]|e]; [|done|]; exfalso;
        destruct (H ltac:(done)) as (sign & ds & rest & Hl & _);
        apply Hnone; by exists sign, ds, rest.
Qed.

(** ** The parsing loop as a map and a filter *)

(** X7. The parsing loops of [main] on the tokens: the tokens up to the
    first one that [int] refuses, all of them when there is none, give the
    values, the integers of the tokens that have one, in order, and the
    warnings, the other tokens, in order; each of these tokens gives
    either a value or a warning. The first token that [int] refuses, one
    with more than 4300 digits, ends the parsing with ValueError, and the
    tokens after it are not looked at. *)
Theorem parse_args_tokens (args : list str) :
  ∃ pre post,
    tokens args = pre ++ post
    ∧ Forall (fun t => ∃ v, parse_int_prefix t = Ok v) pre
    ∧ printed_warnings args
      = Warning <$> filter (fun t => parse_int_prefix t = Ok None) pre
    ∧ parsed_values args = omap leading_int pre
    ∧ (length (printed_warnings args) + length (parsed_values args)
       = length pre)%nat
    ∧ match post with
      | [] => parse_failure args = None
      | t :: _ => parse_int_prefix t = Raise ValueError
                  ∧ parse_failure args = Some ValueError
      end.
Proof.
  destruct (parse_args_spec args) as (pre & post & Hts & Hall & Hw & Hv & Hf).
  exists pre, post. split_and!; [done..| |done].
  rewrite Hw, Hv, length_fmap. clear Hts Hw Hv Hf.
  induction Hall as [|t ts [v Ht] _ IH]; [done|].
  unfold omap in *. cbn [list_omap].
  assert (Hl : leading_int t = v) by (unfold leading_int; by rewrite Ht).
  rewrite Hl. destruct v as [v|].
  - rewrite filter_cons_False by (cbv beta; congruence). simpl. lia.
  - rewrite filter_cons_True by done. simpl. lia.
Qed.
Lemma split_no_sep (sep : ascii) (s : str) :
  ∀ part, part ∈ split sep s → sep ∉ part.
Proof.
  induction s as [|c s IH]; simpl; intros part Hp.
  - apply list_elem_of_singleton in Hp as ->. apply not_elem_of_nil.
  - case_bool_decide as E.
    + apply elem_of_cons in Hp as [-> | Hp]; [apply not_elem_of_nil | by apply IH].
    + destruct (split sep s) as [|p ps] eqn:Hs.
      * apply list_elem_of_singleton in Hp as ->.
        intros H. apply list_elem_of_singleton in H. congruence.
      * apply elem_of_cons in Hp as [-> | Hp].
        -- intros H. apply elem_of_cons in H as [H | H]; [congruence|].
           apply (IH p); [left | done].
        -- apply IH. by right.
Qed.

Lemma lstrip_suffix (s : str) : ∃ pre, s = pre ++ lstrip s.
Proof.
  induction s as [|c s [pre IH]]; simpl.
  - by exists [].
  - destruct (isspace c); [exists (c :: pre); simpl; by f_equal | by exists []].
Qed.

Lemma lstrip_head (s : str) (c : ascii) (t : str) :
  lstrip s = c :: t → isspace c = false.
Proof.
  induction s as [|d s IH]; simpl; [done|].
  destruct (isspace d) eqn:Hd; [done|]. by intros [= <- _].
Qed.

Lemma lstrip_snoc (s : str) (c : ascii) :
  isspace c = false → lstrip (s ++ [c]) = lstrip s ++ [c].
Proof.
  intros Hc. induction s as [|d s IH]; simpl; [by rewrite Hc|].
  by destruct (isspace d).
Qed.

(** A stripped string is a part of the string, and neither starts nor ends
    with a space character. *)
Lemma strip_spec (s : str) :
  (∃ pre post, s = pre ++ strip s ++ post)
  ∧ (∀ c t, strip s = c :: t → isspace c = false)
  ∧ (∀ t c, strip s = t ++ [c] → isspace c = false).
Proof.
  unfold strip. split_and!.
  - destruct (lstrip_suffix s) as [pre Hpre].
    destruct (lstrip_suffix (rev (lstrip s))) as [post Hpost].
    exists pre, (rev post). rewrite Hpre at 1. f_equal.
    rewrite <- rev_app_distr, <- Hpost. by rewrite rev_involutive.
  - intros c t Hs.
    destruct (lstrip s) as [|d u] eqn:Hl; [done|].
    pose proof (lstrip_head _ _ _ Hl) as Hd.
    simpl in Hs. rewrite lstrip_snoc in Hs by done.
    rewrite rev_unit in Hs. by injection Hs as <- _.
  - intros t c Hs.
    assert (Hr : lstrip (rev (lstrip s)) = c :: rev t).
    { rewrite <- (rev_involutive (lstrip (rev (lstrip s)))), Hs.
      by rewrite rev_unit. }
    by apply lstrip_head in Hr.
Qed.

(** X8. The strings that [main] hands to [parse_int_prefix] are not empty,
    hold no comma and neither start nor end with a space character. *)
Theorem tokens_clean (args : list str) (t : str) :
  t ∈ tokens args →
  t ≠ [] ∧ (comma ∉ t)
  ∧ (∀ c u, t = c :: u → isspace c = false)
  ∧ (∀ u c, t = u ++ [c] → isspace c = false).
Proof.
  unfold tokens. intros Ht. apply list_elem_of_filter in Ht as [Hne Ht].
  apply list_elem_of_fmap in Ht as (part & -> & Hpart).
  apply list_elem_of_In, in_concat in Hpart as (parts & Hparts & Hpart).
  apply list_elem_of_In, list_elem_of_fmap in Hparts as (arg & -> & _).
  apply list_elem_of_In in Hpart.
  pose proof (split_no_sep comma arg part Hpart) as Hcomma.
  destruct (strip_spec part) as ((pre & post & Hpp) & Hhead & Hlast).
  split_and!; [done | | done | done].
  intros Hin. apply Hcomma. rewrite Hpp.
  apply elem_of_app; right. apply elem_of_app; by left.
Qed.

Lemma tokens_clean_witness :
  str_of "+7x" ≠ [] ∧ (comma ∉ str_of "+7x")
  ∧ (∀ c u, str_of "+7x" = c :: u → isspace c = false)
  ∧ (∀ u c, str_of "+7x" = u ++ [c] → isspace c = false).
Proof.
  apply (tokens_clean [str_of "1, +7x ,"] (str_of "+7x")).
  vm_compute. right. left.
Defined.

(** ** The checker: what it reports *)





(** ** The base model, written out *)

Lemma extend_extend (vs1 vs2 : list (IntVar * (Z * Z))) (cs1 cs2 : list Constraint)
    (mdl : CpModel) :
  extend vs2 cs2 (extend vs1 cs1 mdl) = extend (vs1 ++ vs2) (cs1 ++ cs2) mdl.
Proof. unfold extend. simpl. by rewrite !app_assoc. Qed.

Lemma extend_nil (mdl : CpModel) : extend [] [] mdl = mdl.
Proof. destruct mdl. unfold extend. simpl. by rewrite !app_nil_r. Qed.

Lemma Add_extend (e : BoundedLinearExpression) (mdl : CpModel) :
  Add e mdl = extend [] [plain e] mdl.
Proof. unfold Add, extend. simpl. by rewrite app_nil_r. Qed.

Lemma AddOnlyEnforceIf_extend (e : BoundedLinearExpression) (l : Literal)
    (mdl : CpModel) :
  AddOnlyEnforceIf e l mdl = extend [] [enforced e l] mdl.
Proof. unfold AddOnlyEnforceIf, extend. simpl. by rewrite app_nil_r. Qed.

Lemma NewIntVar_extend (lb ub : Z) (x : IntVar) (mdl : CpModel) :
  NewIntVar lb ub x mdl = extend [(x, (lb, ub))] [] mdl.
Proof. unfold NewIntVar, extend. simpl. by rewrite app_nil_r. Qed.

Lemma for_extend {A : Type} (xs : list A) (body : A → CpModel → result CpModel)
    (V : A → list (IntVar * (Z * Z))) (C : A → list Constraint) :
  (∀ x mdl, x ∈ xs → body x mdl = Ok (extend (V x) (C x) mdl)) →
  ∀ mdl, for_ xs body mdl = Ok (extend (flat_map V xs) (flat_map C xs) mdl).
Proof.
  induction xs as [|x xs IH]; intros Hbody mdl; simpl.
  - by rewrite extend_nil.
  - rewrite Hbody by left. bind_step.
    rewrite IH by (intros y m Hy; apply Hbody; by right).
    by rewrite extend_extend.
Qed.

Lemma for_extend_acc {A B : Type} (xs : list A)
    (body : A → CpModel * list B → result (CpModel * list B))
    (V : A → list (IntVar * (Z * Z))) (C : A → list Constraint) (g : A → B) :
  (∀ x st, x ∈ xs → body x st = Ok (extend (V x) (C x) st.1, st.2 ++ [g x])) →
  ∀ st, for_ xs body st
        = Ok (extend (flat_map V xs) (flat_map C xs) st.1, st.2 ++ map g xs).
Proof.
  induction xs as [|x xs IH]; intros Hbody st; simpl.
  - rewrite extend_nil, app_nil_r. by destruct st.
  - rewrite Hbody by left. bind_step.
    rewrite IH by (intros y m Hy; apply Hbody; by right). simpl.
    by rewrite extend_extend, <- app_assoc.
Qed.

Lemma foldl_NewIntVar (lb ub : Z) (xs : list IntVar) :
  ∀ mdl, foldl (fun mdl x => NewIntVar lb ub x mdl) mdl xs
         = extend (map (fun x => (x, (lb, ub))) xs) [] mdl.
Proof.
  induction xs as [|x xs IH]; intros mdl; simpl.
  - by rewrite extend_nil.
  - rewrite IH, NewIntVar_extend, extend_extend. done.
Qed.

Lemma flat_map_nil {A B : Type} (xs : list A) :
  flat_map (fun _ : A => @nil B) xs = [].
Proof. by induction xs. Qed.

Lemma flat_map_singleton {A B : Type} (f : A → B) (xs : list A) :
  flat_map (fun x => [f x]) xs = map f xs.
Proof. induction xs; simpl; by f_equal. Qed.

Lemma count_pairs_of_extend (N : nat) (v : Z) (st : CpModel * list IntVar) :
  count_pairs_of N (map score_var (range N)) v st
  = Ok (extend (indicator_vars N v) (value_constraints N v) st.1,
        st.2 ++ [pairs_var v]).
Proof.
  unfold count_pairs_of.
  rewrite (for_extend_acc (range N) _
             (fun i => [(is_var v i, (0, 1))])
             (indicator_constraints v) (is_var v)).
  - bind_step. simpl fst. simpl snd.
    rewrite NewIntVar_extend, !Add_extend, !extend_extend.
    rewrite !app_nil_r, !app_nil_l.
    unfold indicator_vars, value_constraints, pair_constraints, count_expr.
    by rewrite (flat_map_singleton (fun i => (is_var v i, (0, 1)))).
  - intros i [mdl eq_bools] Hi. apply elem_of_seq in Hi.
    rewrite getitem_score by lia. bind_step. simpl.
    unfold NewBoolVar.
    rewrite NewIntVar_extend, !AddOnlyEnforceIf_extend, !extend_extend. done.
Qed.

Lemma setup_base_model_closed_form (N : nat) :
  (1 ≤ N)%nat →
  setup_base_model N = Ok (base_model N, map score_var (range N)).
Proof.
  intros HN. unfold setup_base_model. cbv zeta.
  rewrite getitem_score by lia. bind_step.
  rewrite foldl_NewIntVar, Add_extend, extend_extend.
  rewrite (for_extend (range (N - 1)) _ (fun _ => [])
             (fun i => [plain (Le (Var (score_var i)) (Var (score_var (i + 1))))])).
  2: { intros i mdl Hi. apply elem_of_seq in Hi.
       rewrite !getitem_score by lia. bind_step. by rewrite Add_extend. }
  bind_step. rewrite extend_extend.
  rewrite (for_extend (range (N - 9)) _ (fun _ => [])
             (fun i => [plain (Ne (Var (score_var i)) (Var (score_var (i + 9))))])).
  2: { intros i mdl Hi. apply elem_of_seq in Hi.
       rewrite !getitem_score by lia. bind_step. by rewrite Add_extend. }
  bind_step. rewrite extend_extend.
  rewrite (for_extend_acc _ (count_pairs_of N (map score_var (range N)))
             (indicator_vars N) (value_constraints N) pairs_var).
  2: { intros v st _. apply count_pairs_of_extend. }
  bind_step. simpl fst. simpl snd.
  rewrite Add_extend, !extend_extend. rewrite !flat_map_nil.
  unfold extend, base_model. cbn [variables constraints].
  rewrite !app_nil_r, !app_nil_l. unfold score_values. cbn [app].
  by rewrite <- app_assoc.
Qed.

(** ** What the base model means *)

Lemma in_score_values (v : Z) : In v score_values ↔ 1 ≤ v ≤ 100.
Proof.
  unfold score_values. rewrite in_map_iff. split.
  - intros (n & <- & Hn). apply in_seq in Hn. lia.
  - intros Hv. exists (Z.to_nat v). split; [lia|]. apply in_seq. lia.
Qed.

Lemma base_variable_cases (N : nat) (d : IntVar * (Z * Z)) :
  In d (variables (base_model N)) ↔
  (∃ i, (i < N)%nat ∧ d = (score_var i, (1, 100)))
  ∨ (∃ v i, In v score_values ∧ (i < N)%nat ∧ d = (is_var v i, (0, 1)))
  ∨ (∃ v, In v score_values ∧ d = (pairs_var v, (0, Z.of_nat (N / 2)))).
Proof.
  unfold base_model, indicator_vars, range. cbn [variables].
  rewrite in_app_iff, in_flat_map, !in_map_iff. split.
  - intros [(x & <- & Hx) | (v & Hv & Hd)].
    + apply in_map_iff in Hx as (i & <- & Hi). apply in_seq in Hi.
      left. exists i. split; [lia | done].
    + apply in_app_iff in Hd as [Hd | [<- | []]].
      * apply in_map_iff in Hd as (i & <- & Hi). apply in_seq in Hi.
        right; left. exists v, i. split_and!; [done | lia | done].
      * right; right. by exists v.
  - intros [(i & Hi & ->) | [(v & i & Hv & Hi & ->) | (v & Hv & ->)]].
    + left. exists (score_var i). split; [done|].
      apply in_map_iff. exists i. split; [done|]. apply in_seq. lia.
    + right. exists v. split; [done|]. apply in_app_iff; left.
      apply in_map_iff. exists i. split; [done|]. apply in_seq. lia.
    + right. exists v. split; [done|]. apply in_app_iff; right. by left.
Qed.

Lemma base_constraint_cases (N : nat) (c : Constraint) :
  In c (constraints (base_model N)) ↔
  c = plain (Eq (Var (score_var 0)) (Const 1))
  ∨ (∃ i, (i < N - 1)%nat
          ∧ c = plain (Le (Var (score_var i)) (Var (score_var (i + 1)))))
  ∨ (∃ i, (i < N - 9)%nat
          ∧ c = plain (Ne (Var (score_var i)) (Var (score_var (i + 9)))))
  ∨ (∃ v i, In v score_values ∧ (i < N)%nat ∧ In c (indicator_constraints v i))
  ∨ (∃ v, In v score_values ∧ In c (pair_constraints N v))
  ∨ c = plain (Le (sum_vars (map pairs_var score_values)) (Const 4)).
Proof.
  unfold base_model, value_constraints, range. cbn [constraints].
  rewrite !in_app_iff, !in_flat_map. split.
  - intros [[<- | []] | [(i & Hi & [<- | []]) | [(i & Hi & [<- | []])
             | [(v & Hv & Hc) | [<- | []]]]]].
    + by left.
    + apply in_seq in Hi. right; left. exists i. split; [lia | done].
    + apply in_seq in Hi. right; right; left. exists i. split; [lia | done].
    + apply in_app_iff in Hc as [Hc | Hc].
      * apply in_flat_map in Hc as (i & Hi & Hc). apply in_seq in Hi.
        right; right; right; left. exists v, i. split_and!; [done | lia | done].
      * right; right; right; right; left. by exists v.
    + by do 5 right.
  - intros [-> | [(i & Hi & ->) | [(i & Hi & ->) | [(v & i & Hv & Hi & Hc)
             | [(v & Hv & Hc) | ->]]]]].
    + left. by left.
    + right; left. exists i. split; [apply in_seq; lia | by left].
    + right; right; left. exists i. split; [apply in_seq; lia | by left].
    + right; right; right; left. exists v. split; [done|].
      apply in_app_iff; left. apply in_flat_map. exists i.
      split; [apply in_seq; lia | done].
    + right; right; right; left. exists v. split; [done|].
      apply in_app_iff; by right.
    + do 4 right. by left.
Qed.

Lemma eval_sum_vars_from (val : IntVar → Z) (xs : list IntVar) :
  ∀ acc, eval val (foldl (fun acc x => Plus acc (Var x)) acc xs)
         = eval val acc + foldr (fun x r => val x + r) 0 xs.
Proof.
  induction xs as [|x xs IH]; intros acc; simpl; [lia|].
  rewrite IH. simpl. lia.
Qed.

Lemma eval_sum_vars (val : IntVar → Z) (xs : list IntVar) :
  eval val (sum_vars xs) = foldr (fun x r => val x + r) 0 xs.
Proof. unfold sum_vars. rewrite eval_sum_vars_from. simpl. lia. Qed.

(** The sum of correct indicators of [v] is the number of occurrences. *)
Lemma sum_indicators (val : IntVar → Z) (v : Z) (idx : list nat) :
  (∀ i, i ∈ idx →
        val (is_var v i) = if decide (val (score_var i) = v) then 1 else 0) →
  foldr (fun x r => val x + r) 0 (map (is_var v) idx)
  = Z.of_nat (occurrences v (map (fun i => val (score_var i)) idx)).
Proof.
  unfold occurrences. induction idx as [|i idx IH]; intros Hind; [done|].
  cbn [map foldr]. rewrite IH by (intros j Hj; apply Hind; by right).
  rewrite (Hind i) by left.
  destruct (decide (val (score_var i) = v)) as [Hv | Hv].
  - rewrite filter_cons_True by done. simpl length. lia.
  - rewrite filter_cons_False by done. lia.
Qed.

Lemma sum_pair_vars (val : IntVar → Z) (f : Z → nat) (vs : list Z) :
  (∀ v, v ∈ vs → val (pairs_var v) = Z.of_nat (f v)) →
  foldr (fun x r => val x + r) 0 (map pairs_var vs)
  = Z.of_nat (sum_list (map f vs)).
Proof.
  induction vs as [|v vs IH]; intros Hp; [done|].
  simpl. rewrite IH by (intros w Hw; apply Hp; by right).
  rewrite (Hp v) by left. lia.
Qed.

Lemma solution_map (N : nat) (val : IntVar → Z) :
  solution N val = map (fun i => val (score_var i)) (range N).
Proof. unfold solution. by rewrite map_map. Qed.

Lemma holds_plain_Eq (val : IntVar → Z) (a b : LinearExpr) :
  holds val (plain (Eq a b)) = true ↔ eval val a = eval val b.
Proof. unfold holds, plain. simpl. apply Z.eqb_eq. Qed.

Lemma holds_plain_Le (val : IntVar → Z) (a b : LinearExpr) :
  holds val (plain (Le a b)) = true ↔ eval val a ≤ eval val b.
Proof. unfold holds, plain. simpl. apply Z.leb_le. Qed.

Lemma holds_plain_Ne (val : IntVar → Z) (a b : LinearExpr) :
  holds val (plain (Ne a b)) = true ↔ eval val a ≠ eval val b.
Proof. unfold holds, plain. simpl. rewrite negb_true_iff. apply Z.eqb_neq. Qed.

Lemma holds_enforced_Lit (val : IntVar → Z) (e : BoundedLinearExpression)
    (b : IntVar) :
  holds val (enforced e (Lit b)) = true ↔ (val b = 1 → holds_expr val e = true).
Proof.
  unfold holds, enforced. simpl.
  destruct (Z.eqb_spec (val b) 1); simpl; [tauto|]. split; [done | tauto].
Qed.

Lemma holds_enforced_Not (val : IntVar → Z) (e : BoundedLinearExpression)
    (b : IntVar) :
  holds val (enforced e (Not b)) = true ↔ (val b = 0 → holds_expr val e = true).
Proof.
  unfold holds, enforced. simpl.
  destruct (Z.eqb_spec (val b) 0); simpl; [tauto|]. split; [done | tauto].
Qed.

Lemma in_domain_iff (val : IntVar → Z) (x : IntVar) (lo hi : Z) :
  in_domain val (x, (lo, hi)) = true ↔ lo ≤ val x ≤ hi.
Proof.
  unfold in_domain. simpl. rewrite andb_true_iff, !Z.leb_le. tauto.
Qed.

Lemma half_unique (p : Z) (c : nat) :
  p * 2 ≤ Z.of_nat c → Z.of_nat c ≤ p * 2 + 1 → p = Z.of_nat (c / 2).
Proof.
  intros H1 H2. rewrite Nat2Z.inj_div. simpl Z.of_nat.
  apply Z.div_unique with (r := Z.of_nat c - p * 2); lia.
Qed.

(** What a solution of the base model says about its scores and its
    auxiliary variables. *)
Lemma base_model_facts (N : nat) (val : IntVar → Z) :
  satisfies val (base_model N) = true →
  (∀ i, (i < N)%nat → 1 ≤ val (score_var i) ≤ 100)
  ∧ val (score_var 0) = 1
  ∧ (∀ i, (i < N - 1)%nat → val (score_var i) ≤ val (score_var (i + 1)))
  ∧ (∀ i, (i < N - 9)%nat → val (score_var i) ≠ val (score_var (i + 9)))
  ∧ (∀ v, In v score_values →
          val (pairs_var v) = Z.of_nat (occurrences v (solution N val) / 2))
  ∧ eval val (sum_vars (map pairs_var score_values)) ≤ 4.
Proof.
  intros Hsat. unfold satisfies in Hsat.
  apply andb_true_iff in Hsat as [Hdom Hcs].
  rewrite forallb_forall in Hdom, Hcs.
  assert (Hd : ∀ d, _ → in_domain val d = true)
    by (intros d H; exact (Hdom d (proj2 (base_variable_cases N d) H))).
  assert (Hc : ∀ c, _ → holds val c = true)
    by (intros c H; exact (Hcs c (proj2 (base_constraint_cases N c) H))).
  clear Hdom Hcs.
  assert (Hind : ∀ v i, In v score_values → (i < N)%nat →
    val (is_var v i) = if decide (val (score_var i) = v) then 1 else 0).
  { intros v i Hv Hi.
    assert (Hb : 0 ≤ val (is_var v i) ≤ 1).
    { apply in_domain_iff, Hd. right; left. by exists v, i. }
    assert (Hcs : ∀ c, In c (indicator_constraints v i) → holds val c = true).
    { intros c Hin. apply Hc. do 3 right. left. exists v, i. done. }
    assert (H1 : val (is_var v i) = 1 → val (score_var i) = v).
    { intros E. apply Z.eqb_eq.
      apply (proj1 (holds_enforced_Lit val (Eq (Var (score_var i)) (Const v))
                      (is_var v i))); [|done].
      apply Hcs. by left. }
    assert (H0 : val (is_var v i) = 0 → val (score_var i) ≠ v).
    { intros E. apply Z.eqb_neq, negb_true_iff.
      apply (proj1 (holds_enforced_Not val (Ne (Var (score_var i)) (Const v))
                      (is_var v i))); [|done].
      apply Hcs. right. by left. }
    destruct (decide (val (score_var i) = v)) as [Hs | Hs].
    - destruct (decide (val (is_var v i) = 0)) as [E | E]; [|lia].
      by apply H0 in E.
    - destruct (decide (val (is_var v i) = 1)) as [E | E]; [|lia].
      by apply H1 in E. }
  split_and!.
  - intros i Hi. apply in_domain_iff, Hd. left. by exists i.
  - apply (holds_plain_Eq val (Var (score_var 0)) (Const 1)), Hc. by left.
  - intros i Hi.
    apply (holds_plain_Le val (Var (score_var i)) (Var (score_var (i + 1)))), Hc.
    right; left. by exists i.
  - intros i Hi.
    apply (holds_plain_Ne val (Var (score_var i)) (Var (score_var (i + 9)))), Hc.
    right; right; left. by exists i.
  - intros v Hv.
    assert (Hcs : ∀ c, In c (pair_constraints N v) → holds val c = true).
    { intros c Hin. apply Hc. do 4 right. left. by exists v. }
    assert (Hcount : eval val (count_expr N v)
                     = Z.of_nat (occurrences v (solution N val))).
    { unfold count_expr. rewrite eval_sum_vars, solution_map.
      apply sum_indicators. intros i Hi. apply Hind; [done|].
      apply elem_of_seq in Hi. lia. }
    apply half_unique.
    + rewrite <- Hcount.
      apply (holds_plain_Le val (Times (Var (pairs_var v)) 2) (count_expr N v)).
      apply Hcs. by left.
    + rewrite <- Hcount.
      apply (holds_plain_Le val (count_expr N v)
               (Plus (Times (Var (pairs_var v)) 2) (Const 1))).
      apply Hcs. right. by left.
  - apply (holds_plain_Le val (sum_vars (map pairs_var score_values)) (Const 4)), Hc.
    by do 5 right.
Qed.

Lemma solution_lookup_Some (N : nat) (val : IntVar → Z) (i : nat) (a : Z) :
  solution N val !! i = Some a → (i < N)%nat ∧ a = val (score_var i).
Proof.
  intros H. assert (Hi : (i < N)%nat).
  { apply lookup_lt_Some in H. by rewrite length_solution in H. }
  rewrite solution_lookup in H by done. split; [done | congruence].
Qed.

(** The scores of a solution of the base model are normalized. *)
Lemma base_model_sound (N : nat) (val : IntVar → Z) :
  (1 ≤ N)%nat →
  satisfies val (base_model N) = true →
  normalized N (solution N val).
Proof.
  intros HN Hsat.
  destruct (base_model_facts N val Hsat) as (Hr & H0 & Hle & Hne & Hp & Hsum).
  split_and!.
  - apply length_solution.
  - apply Forall_forall. intros x Hx.
    apply list_elem_of_lookup in Hx as [i Hi].
    apply solution_lookup_Some in Hi as [Hi ->]. by apply Hr.
  - rewrite solution_lookup by lia. by rewrite H0.
  - intros i a b Ha Hb.
    apply solution_lookup_Some in Ha as [Hi ->].
    apply solution_lookup_Some in Hb as [Hi' ->]. apply Hle. lia.
  - intros i a b Ha Hb.
    apply solution_lookup_Some in Ha as [Hi ->].
    apply solution_lookup_Some in Hb as [Hi' ->]. apply Hne. lia.
  - rewrite eval_sum_vars in Hsum.
    rewrite (sum_pair_vars val (fun v => occurrences v (solution N val) / 2)%nat)
      in Hsum by (intros v Hv; apply Hp; by apply list_elem_of_In).
    unfold duplicate_pairs. lia.
Qed.

Lemma assignment_solution (N : nat) (scores : list Z) :
  length scores = N → solution N (assignment_of scores) = scores.
Proof.
  intros Hlen. apply list_eq. intros i.
  destruct (decide (i < N)%nat) as [Hi | Hi].
  - rewrite solution_lookup by done. simpl.
    destruct (lookup_lt_is_Some_2 scores i ltac:(lia)) as [a ->]. done.
  - rewrite !lookup_ge_None_2; [done | lia |]. rewrite length_solution. lia.
Qed.

Lemma occurrences_le (v : Z) (scores : list Z) :
  (occurrences v scores ≤ length scores)%nat.
Proof. unfold occurrences. apply length_filter. Qed.

Lemma half_bounds (c : nat) :
  Z.of_nat (c / 2) * 2 ≤ Z.of_nat c ∧ Z.of_nat c ≤ Z.of_nat (c / 2) * 2 + 1.
Proof.
  pose proof (Nat.div_mod_eq c 2) as H.
  pose proof (Nat.mod_upper_bound c 2 ltac:(lia)) as H'. lia.
Qed.

(** Every normalized sequence is the scores of a solution of the base
    model. *)
Lemma base_model_complete (N : nat) (scores : list Z) :
  normalized N scores →
  satisfies (assignment_of scores) (base_model N) = true
  ∧ solution N (assignment_of scores) = scores.
Proof.
  intros (Hlen & Hrange & H0 & Hle & Hne & Hdup).
  split; [|by apply assignment_solution].
  set (val := assignment_of scores).
  assert (Hscore : ∀ i, (i < N)%nat →
    ∃ a, scores !! i = Some a ∧ val (score_var i) = a ∧ 1 ≤ a ≤ 100).
  { intros i Hi. destruct (lookup_lt_is_Some_2 scores i ltac:(lia)) as [a Ha].
    exists a. split; [done|]. split; [unfold val; simpl; by rewrite Ha|].
    rewrite Forall_forall in Hrange. apply Hrange.
    apply list_elem_of_lookup. eauto. }
  assert (Hind : ∀ v i, (i < N)%nat →
    val (is_var v i) = if decide (val (score_var i) = v) then 1 else 0).
  { intros v i Hi. destruct (Hscore i Hi) as (a & Ha & Hv & _).
    rewrite Hv. unfold val. simpl. rewrite Ha.
    case_bool_decide as E; destruct (decide (a = v)); congruence. }
  assert (Hcount : ∀ v, eval val (count_expr N v)
                        = Z.of_nat (occurrences v scores)).
  { intros v. unfold count_expr. rewrite eval_sum_vars.
    rewrite (sum_indicators val v (range N))
      by (intros i Hi; apply Hind; apply elem_of_seq in Hi; lia).
    rewrite <- solution_map. unfold val. by rewrite assignment_solution. }
  unfold satisfies. apply andb_true_iff. split; apply forallb_forall.
  - intros d Hd.
    apply base_variable_cases in Hd
      as [(i & Hi & ->) | [(v & i & Hv & Hi & ->) | (v & Hv & ->)]];
      apply in_domain_iff.
    + destruct (Hscore i Hi) as (a & _ & -> & Ha). done.
    + rewrite (Hind v i Hi). destruct (decide _); lia.
    + change (val (pairs_var v)) with (Z.of_nat (occurrences v scores / 2)).
      pose proof (occurrences_le v scores) as Ho. rewrite Hlen in Ho.
      pose proof (Nat.Div0.div_le_mono _ _ 2 Ho). lia.
  - intros c Hc.
    apply base_constraint_cases in Hc
      as [-> | [(i & Hi & ->) | [(i & Hi & ->) | [(v & i & Hv & Hi & Hc)
          | [(v & Hv & Hc) | ->]]]]].
    + apply holds_plain_Eq. cbn [eval]. unfold val. simpl. by rewrite H0.
    + apply holds_plain_Le. cbn [eval].
      destruct (Hscore i ltac:(lia)) as (a & Ha & -> & _).
      destruct (Hscore (i + 1)%nat ltac:(lia)) as (b & Hb & -> & _).
      by apply (Hle i).
    + apply holds_plain_Ne. cbn [eval].
      destruct (Hscore i ltac:(lia)) as (a & Ha & -> & _).
      destruct (Hscore (i + 9)%nat ltac:(lia)) as (b & Hb & -> & _).
      by apply (Hne i).
    + destruct Hc as [<- | [<- | []]].
      * apply holds_enforced_Lit. intros E. cbn [holds_expr eval]. apply Z.eqb_eq.
        rewrite (Hind v i Hi) in E. by destruct (decide _).
      * apply holds_enforced_Not. intros E. cbn [holds_expr eval].
        apply negb_true_iff, Z.eqb_neq.
        rewrite (Hind v i Hi) in E. by destruct (decide _).
    + destruct (half_bounds (occurrences v scores)) as [Hlo Hhi].
      destruct Hc as [<- | [<- | []]]; apply holds_plain_Le;
        cbn [eval]; rewrite Hcount;
        change (val (pairs_var v)) with (Z.of_nat (occurrences v scores / 2));
        lia.
    + apply holds_plain_Le. rewrite eval_sum_vars.
      rewrite (sum_pair_vars val (fun v => occurrences v scores / 2)%nat)
        by done.
      unfold duplicate_pairs in Hdup. cbn [eval]. lia.
Qed.

(** X11. [setup_base_model] raises IndexError for [N = 0], at [score[0]],
    and otherwise returns the model written out as [base_model N] with the
    [N] score variables [s[0]], ..., [s[N-1]]. *)
Theorem setup_base_model_result (N : nat) :
  setup_base_model N
  = match N with
    | O => Raise IndexError
    | S _ => Ok (base_model N, map score_var (range N))
    end.
Proof.
  destruct N as [|n]; [reflexivity|].
  apply setup_base_model_closed_form. lia.
Qed.

(** X12. The meaning of the model that [setup_base_model] builds: the lists
    of scores of its solutions are exactly the normalized sequences, those
    of [N] values between 1 and 100 that start with 1, never decrease, have
    no two equal values 9 places apart, and have at most 4 duplicate
    pairs. *)
Theorem base_model_solutions (N : nat) (scores : list Z) :
  (1 ≤ N)%nat →
  ∃ mdl score,
    setup_base_model N = Ok (mdl, score)
    ∧ ((∃ val, satisfies val mdl = true ∧ map val score = scores)
       ↔ normalized N scores).
Proof.
  intros HN. exists (base_model N), (map score_var (range N)).
  split; [by apply setup_base_model_closed_form|].
  fold (solution N). split.
  - intros (val & Hsat & <-). by apply base_model_sound.
  - intros Hn. exists (assignment_of scores). by apply base_model_complete.
Qed.

Lemma nine_ones_two_normalized : normalized 10 nine_ones_two.
Proof.
  split_and!.
  - done.
  - unfold nine_ones_two. repeat constructor; lia.
  - done.
  - intros i a b Ha Hb. unfold nine_ones_two in *.
    do 10 (destruct i as [|i]; [simpl in Ha, Hb; simplify_eq; lia|]).
    by rewrite lookup_ge_None_2 in Ha by (simpl; lia).
  - intros i a b Ha Hb. unfold nine_ones_two in *.
    destruct i as [|i]; [simpl in Ha, Hb; simplify_eq; lia|].
    by rewrite lookup_ge_None_2 in Hb by (simpl; lia).
  - vm_compute. lia.
Qed.

Lemma base_model_solutions_witness :
  ∃ mdl score,
    setup_base_model 10 = Ok (mdl, score)
    ∧ ((∃ val, satisfies val mdl = true ∧ map val score = nine_ones_two)
       ↔ normalized 10 nine_ones_two).
Proof. apply (base_model_solutions 10 nine_ones_two). lia. Defined.

(** ** The property on indices and on multisets *)

Lemma skip_lookup {A : Type} (a b : list A) (x : A) (j : nat) :
  (a ++ x :: b) !! skip (length a) j = (a ++ b) !! j.
Proof.
  unfold skip. destruct (Nat.ltb_spec j (length a)) as [Hj | Hj].
  - by rewrite !lookup_app_l.
  - rewrite !lookup_app_r by lia.
    replace (S j - length a)%nat with (S (j - length a)) by lia. done.
Qed.

Lemma skip_inj (n i j : nat) : skip n i = skip n j → i = j.
Proof.
  unfold skip.
  destruct (Nat.ltb_spec i n), (Nat.ltb_spec j n); lia.
Qed.

Lemma skip_ne (n j : nat) : skip n j ≠ n.
Proof. unfold skip. destruct (Nat.ltb_spec j n); lia. Qed.

(** The values of a sub-multiset sit at distinct positions. *)
Lemma submseteq_positions {A : Type} (l1 : list A) :
  ∀ l2, l1 ⊆+ l2 →
        ∃ I, NoDup I ∧ Forall2 (fun i x => l2 !! i = Some x) I l1.
Proof.
  induction l1 as [|x l1 IH]; intros l2 Hsub.
  - exists []. split; constructor.
  - apply submseteq_cons_l in Hsub as (k & Hperm & Hsub).
    assert (Hx : x ∈ l2) by (rewrite Hperm; left).
    apply list_elem_of_split in Hx as (a & b & ->).
    assert (Hk : k ≡ₚ a ++ b).
    { apply (Permutation.Permutation_cons_inv (a := x)). rewrite <- Hperm.
      symmetry. apply Permutation_middle. }
    rewrite Hk in Hsub. destruct (IH _ Hsub) as (I & Hnd & HI).
    exists (length a :: map (skip (length a)) I). split.
    + constructor.
      * intros Hin. apply list_elem_of_fmap in Hin as (j & Hj & _).
        symmetry in Hj. by apply skip_ne in Hj.
      * apply NoDup_fmap_2_strong; [|done].
        intros i j _ _. apply skip_inj.
    + constructor.
      * by rewrite list_lookup_middle.
      * apply Forall2_fmap_l. eapply Forall2_impl; [exact HI|].
        intros j y Hj. simpl. by rewrite skip_lookup.
Qed.

Lemma map_lookup_seq (l : list Z) :
  map (fun i => default 0 (l !! i)) (seq 0 (length l)) = l.
Proof.
  apply list_eq. intros i. rewrite list_lookup_fmap.
  destruct (decide (i < length l)%nat) as [Hi | Hi].
  - rewrite lookup_seq_lt by done. simpl.
    destruct (lookup_lt_is_Some_2 l i Hi) as [x ->]. done.
  - rewrite lookup_seq_ge by lia. simpl. by rewrite lookup_ge_None_2 by lia.
Qed.

(** The values at distinct positions form a sub-multiset. *)
Lemma positions_submseteq (l : list Z) (I : list nat) :
  NoDup I → (∀ i, i ∈ I → (i < length l)%nat) →
  map (fun i => default 0 (l !! i)) I ⊆+ l.
Proof.
  intros Hnd Hlt.
  set (I' := filter (fun i => i ∈ I) (seq 0 (length l))).
  assert (Hperm : I' ≡ₚ I).
  { apply NoDup_Permutation; [apply NoDup_filter, NoDup_seq | done |].
    intros i. unfold I'. rewrite list_elem_of_filter, elem_of_seq.
    split; [tauto|]. intros Hi. split; [done|]. apply Hlt in Hi. lia. }
  rewrite <- Hperm.
  trans (map (fun i => default 0 (l !! i)) (seq 0 (length l))).
  - apply sublist_submseteq, fmap_sublist, sublist_filter.
  - by rewrite map_lookup_seq.
Qed.

Lemma tsum_zsum (scores : list Z) (T : team) :
  tsum scores T = zsum (map (fun i => default 0 (scores !! i)) T).
Proof. unfold tsum, zsum. induction T as [|i T IH]; simpl; by f_equal. Qed.

Lemma positions_values (l : list Z) (I : list nat) (A : list Z) :
  Forall2 (fun i x => l !! i = Some x) I A →
  map (fun i => default 0 (l !! i)) I = A ∧ ∀ i, i ∈ I → (i < length l)%nat.
Proof.
  induction 1 as [|i x I A Hi _ [IH1 IH2]]; simpl.
  - split; [done|]. intros i Hi. by apply elem_of_nil in Hi.
  - split; [rewrite Hi; simpl; by f_equal|].
    intros j Hj. apply elem_of_cons in Hj as [-> | Hj]; [|by apply IH2].
    by apply lookup_lt_Some in Hi.
Qed.

(** The two formulations of the property agree. *)
Lemma has_equal_pair_sublists (scores : list Z) :
  has_equal_pair scores ↔ has_equal_sublists scores.
Proof.
  split.
  - intros (T & U & (HndT & HlenT & HT) & (HndU & HlenU & HU) & Hd & Hsum).
    exists (map (fun i => default 0 (scores !! i)) T),
           (map (fun i => default 0 (scores !! i)) U).
    rewrite !length_map, <- !tsum_zsum, <- map_app.
    split_and!; [done | done | | done].
    apply positions_submseteq.
    + apply NoDup_app. done.
    + intros i Hi. apply elem_of_app in Hi as [Hi | Hi]; auto.
  - intros (A & B & HlenA & HlenB & Hsub & Hsum).
    destruct (submseteq_positions _ _ Hsub) as (I & Hnd & HI).
    apply Forall2_app_inv_r in HI as (T & U & HT & HU & ->).
    apply NoDup_app in Hnd as (HndT & Hd & HndU).
    destruct (positions_values _ _ _ HT) as [HvT HltT].
    destruct (positions_values _ _ _ HU) as [HvU HltU].
    exists T, U. split_and!.
    + split_and!; [done | apply Forall2_length in HT; lia | done].
    + split_and!; [done | apply Forall2_length in HU; lia | done].
    + exact Hd.
    + by rewrite !tsum_zsum, HvT, HvU.
Qed.

(** The property depends only on the multiset of the scores. *)
Lemma has_equal_pair_Permutation (scores scores' : list Z) :
  scores ≡ₚ scores' → has_equal_pair scores → has_equal_pair scores'.
Proof.
  intros Hperm. rewrite !has_equal_pair_sublists.
  intros (A & B & HA & HB & Hsub & Hsum). exists A, B.
  split_and!; [done | done | by rewrite <- Hperm | done].
Qed.

Lemma zsum_shift (c : Z) (A : list Z) :
  zsum (map (fun x => x + c) A) = zsum A + Z.of_nat (length A) * c.
Proof. unfold zsum. induction A as [|x A IH]; simpl length; simpl; lia. Qed.

(** The property is kept when every score is moved by the same amount. *)
Lemma has_equal_pair_shift (c : Z) (scores : list Z) :
  has_equal_pair scores → has_equal_pair (map (fun x => x + c) scores).
Proof.
  rewrite !has_equal_pair_sublists.
  intros (A & B & HA & HB & Hsub & Hsum).
  exists (map (fun x => x + c) A), (map (fun x => x + c) B).
  rewrite !length_map, <- map_app, !zsum_shift, HA, HB.
  split_and!; [done | done | by apply fmap_submseteq | lia].
Qed.

(** ** Why the pruning loses nothing *)

Lemma filter_eq_replicate (v : Z) (l : list Z) :
  filter (fun x => x = v) l = replicate (occurrences v l) v.
Proof.
  unfold occurrences. induction l as [|x l IH]; [done|].
  destruct (decide (x = v)) as [-> | Hne].
  - rewrite filter_cons_True by done. simpl. by f_equal.
  - by rewrite filter_cons_False by done.
Qed.

Lemma occurrences_filter_ne (v w : Z) (l : list Z) :
  w ≠ v → occurrences w (filter (fun x => ¬ x = v) l) = occurrences w l.
Proof.
  intros Hne. unfold occurrences. induction l as [|x l IH]; [done|].
  destruct (decide (x = v)) as [-> | Hx].
  - rewrite (filter_cons_False (fun x => ¬ x = v)) by tauto.
    rewrite (filter_cons_False (fun x => x = w)) by congruence. exact IH.
  - rewrite (filter_cons_True (fun x => ¬ x = v)) by done.
    destruct (decide (x = w)) as [-> | Hw].
    + rewrite !(filter_cons_True (fun x => x = w)) by done. simpl. by f_equal.
    + by rewrite !(filter_cons_False (fun x => x = w)) by done.
Qed.

Lemma paired_values_length (vs scores : list Z) :
  length (paired_values vs scores)
  = sum_list (map (fun v => occurrences v scores / 2)%nat vs).
Proof.
  unfold paired_values. induction vs as [|v vs IH]; [done|].
  cbn [flat_map map]. rewrite length_app, length_replicate, IH. done.
Qed.

Lemma replicate_half_twice (c : nat) (v : Z) :
  replicate (c / 2) v ++ replicate (c / 2) v ⊆+ replicate c v.
Proof.
  rewrite <- replicate_add.
  pose proof (Nat.div_mod_eq c 2) as H.
  replace c with ((c / 2 + c / 2) + c mod 2)%nat at 3 by lia.
  rewrite (replicate_add (c / 2 + c / 2)).
  apply submseteq_inserts_r. done.
Qed.

(** Twice the paired values fit in the scores. *)
Lemma paired_values_twice (vs : list Z) :
  NoDup vs → ∀ scores,
    paired_values vs scores ++ paired_values vs scores ⊆+ scores.
Proof.
  induction 1 as [|v vs Hv Hnd IH]; intros scores.
  - apply submseteq_nil_l.
  - unfold paired_values. cbn [flat_map]. fold (paired_values vs scores).
    set (r := replicate (occurrences v scores / 2) v).
    assert (Hrest : paired_values vs scores
                    = paired_values vs (filter (fun x => ¬ x = v) scores)).
    { unfold paired_values. clear IH Hnd r.
      induction vs as [|w vs IHvs]; [done|]. simpl.
      rewrite occurrences_filter_ne
        by (intros ->; apply Hv; left).
      f_equal. apply IHvs. intros Hin. apply Hv. by right. }
    trans ((r ++ r) ++ (paired_values vs scores ++ paired_values vs scores)).
    { apply Permutation_submseteq.
      rewrite <- !app_assoc. apply Permutation_app_head.
      rewrite !app_assoc. apply Permutation_app_tail.
      apply Permutation_app_comm. }
    trans (filter (fun x => x = v) scores ++ filter (fun x => ¬ x = v) scores);
      [|by rewrite filter_app_complement].
    apply submseteq_app.
    + rewrite filter_eq_replicate. apply replicate_half_twice.
    + rewrite Hrest. apply IH.
Qed.

Lemma NoDup_score_values : NoDup score_values.
Proof.
  unfold score_values. apply NoDup_fmap_2; [|apply NoDup_seq].
  intros x y. lia.
Qed.

(** Five duplicate pairs give two disjoint subsets with equal sums: one
    value of each pair on each side. *)
Lemma duplicate_pairs_equal_pair (scores : list Z) :
  (5 ≤ duplicate_pairs scores)%nat → has_equal_pair scores.
Proof.
  intros H5. apply has_equal_pair_sublists.
  set (p := paired_values score_values scores).
  assert (Hlen : (5 ≤ length p)%nat)
    by (unfold p; rewrite paired_values_length; exact H5).
  exists (take 5 p), (take 5 p).
  rewrite length_take. split_and!; [lia | lia | | done].
  trans (p ++ p); [|apply paired_values_twice, NoDup_score_values].
  apply sublist_submseteq, sublist_app; apply sublist_take.
Qed.

(** ** The symmetry breaking and the pruning lose nothing *)

Lemma has_equal_pair_dec (scores : list Z) :
  has_equal_pair scores ∨ ¬ has_equal_pair scores.
Proof.
  pose proof (find_equal_pair_None_iff scores ∅ cache_ok_empty) as Hiff.
  destruct (find_equal_pair_total scores ∅ cache_ok_empty) as [[[T U]|] Hr].
  - left. exists T, U. by apply (find_equal_pair_sound scores ∅).
  - right. by apply Hiff.
Qed.

Lemma sorted_lookup_le (l : list Z) :
  StronglySorted Z.le l →
  ∀ i j a b, (i ≤ j)%nat → l !! i = Some a → l !! j = Some b → a ≤ b.
Proof.
  induction 1 as [|x l Hs IH Hx]; intros i j a b Hij Ha Hb; [done|].
  destruct i as [|i], j as [|j]; simpl in Ha, Hb.
  - simplify_eq. lia.
  - simplify_eq. rewrite Forall_forall in Hx. apply Hx.
    by apply list_elem_of_lookup_2 in Hb.
  - lia.
  - apply (IH i j); [lia | done | done].
Qed.

(** Ten equal values in a row hold two disjoint subsets with equal sums. *)
Lemma ten_equal_pair (l : list Z) (i : nat) (a : Z) :
  StronglySorted Z.le l →
  l !! i = Some a → l !! (i + 9)%nat = Some a → has_equal_pair l.
Proof.
  intros Hs Hi Hj. apply has_equal_pair_sublists.
  exists (replicate 5 a), (replicate 5 a).
  rewrite !length_replicate. split_and!; [done | done | | done].
  rewrite <- replicate_add.
  assert (Heq : take 10 (drop i l) = replicate (5 + 5) a).
  { apply list_eq. intros k.
    destruct (decide (k < 10)%nat) as [Hk | Hk].
    - rewrite lookup_take_lt by done. rewrite lookup_drop.
      rewrite lookup_replicate_2 by (simpl; lia).
      destruct (lookup_lt_is_Some_2 l (i + k)) as [x Hx].
      { apply lookup_lt_Some in Hj. lia. }
      rewrite Hx. f_equal.
      pose proof (sorted_lookup_le l Hs i (i + k)%nat a x ltac:(lia) Hi Hx).
      pose proof (sorted_lookup_le l Hs (i + k)%nat (i + 9)%nat x a ltac:(lia) Hx Hj).
      lia.
    - rewrite lookup_take_ge by lia.
      symmetry. apply lookup_replicate_None. lia. }
  rewrite <- Heq. apply sublist_submseteq.
  trans (drop i l); [apply sublist_take | apply sublist_drop].
Qed.

Lemma merge_sort_sorted (scores : list Z) :
  StronglySorted Z.le (merge_sort Z.le scores).
Proof. apply (StronglySorted_merge_sort Z.le). Qed.

Lemma map_shift_back (c : Z) (l : list Z) :
  map (fun x => x + - c) (map (fun x => x + c) l) = l.
Proof.
  rewrite map_map. rewrite <- (map_id l) at 2. apply map_ext. intros x. lia.
Qed.

(** Normalizing keeps the property, both ways. *)
Lemma has_equal_pair_normalize (scores : list Z) :
  has_equal_pair (normalize scores) ↔ has_equal_pair scores.
Proof.
  unfold normalize. cbv zeta.
  set (sorted := merge_sort Z.le scores).
  set (c := 1 - default 1 (head sorted)).
  assert (Hperm : sorted ≡ₚ scores) by apply merge_sort_Permutation.
  split.
  - intros H. apply (has_equal_pair_Permutation sorted); [done|].
    rewrite <- (map_shift_back c sorted). by apply has_equal_pair_shift.
  - intros H. apply has_equal_pair_shift.
    by apply (has_equal_pair_Permutation scores).
Qed.

(** A sequence of [N ≥ 1] scores between 1 and 100 without two disjoint
    subsets of equal sums is, once normalized, one of the sequences that
    the base model admits. *)
Lemma normalize_normalized (N : nat) (scores : list Z) :
  counterexample N scores → (1 ≤ N)%nat →
  normalized N (normalize scores).
Proof.
  intros (Hlen & Hrange & Hnone) HN.
  assert (Hnone' : ¬ has_equal_pair (normalize scores))
    by (by rewrite has_equal_pair_normalize).
  revert Hnone'. unfold normalize. cbv zeta.
  set (sorted := merge_sort Z.le scores).
  assert (Hperm : sorted ≡ₚ scores) by apply merge_sort_Permutation.
  assert (Hs : StronglySorted Z.le sorted) by apply merge_sort_sorted.
  assert (Hrange' : Forall (fun x => 1 ≤ x ≤ 100) sorted) by (by rewrite Hperm).
  assert (Hlen' : length sorted = N) by (by rewrite Hperm).
  assert (Hnone0 : ¬ has_equal_pair sorted).
  { intros H. apply Hnone. by apply (has_equal_pair_Permutation sorted). }
  clearbody sorted. clear Hperm Hrange Hlen Hnone scores.
  assert (Hhead : ∃ m, head sorted = Some m)
    by (destruct sorted; [simpl in Hlen'; lia | eauto]).
  destruct Hhead as [m Hhead]. rewrite Hhead.
  change (default 1 (Some m)) with m.
  rewrite head_lookup in Hhead.
  set (c := 1 - m). intros Hnone'.
  assert (Hm : ∀ x, x ∈ sorted → m ≤ x ≤ 100).
  { intros x Hx. rewrite Forall_forall in Hrange'. split; [|by apply Hrange'].
    apply list_elem_of_lookup in Hx as [i Hi].
    apply (sorted_lookup_le sorted Hs 0%nat i m x); [lia | done | done]. }
  assert (Hm1 : 1 ≤ m).
  { rewrite Forall_forall in Hrange'. apply Hrange'.
    by apply list_elem_of_lookup_2 in Hhead. }
  split_and!.
  - by rewrite length_map.
  - apply Forall_forall. intros y Hy.
    apply list_elem_of_fmap in Hy as (x & -> & Hx). apply Hm in Hx. unfold c. cbv beta. lia.
  - rewrite list_lookup_fmap, Hhead. simpl. f_equal. unfold c. lia.
  - intros i a b Ha Hb. rewrite list_lookup_fmap in Ha, Hb.
    destruct (sorted !! i) as [a'|] eqn:Ha'; [|done].
    destruct (sorted !! (i + 1)%nat) as [b'|] eqn:Hb'; [|done].
    simpl in Ha, Hb. simplify_eq.
    pose proof (sorted_lookup_le sorted Hs i (i + 1)%nat a' b' ltac:(lia) Ha' Hb').
    lia.
  - intros i a b Ha Hb Hab. rewrite list_lookup_fmap in Ha, Hb.
    destruct (sorted !! i) as [a'|] eqn:Ha'; [|done].
    destruct (sorted !! (i + 9)%nat) as [b'|] eqn:Hb'; [|done].
    simpl in Ha, Hb. simplify_eq.
    apply Hnone0. apply (ten_equal_pair sorted i a' Hs Ha').
    rewrite Hb'. f_equal. lia.
  - set (ns := map (fun x => x + c) sorted) in *.
    destruct (decide (5 ≤ duplicate_pairs ns)%nat) as [H5 | H5]; [|lia].
    exfalso. apply Hnone'. by apply duplicate_pairs_equal_pair.
Qed.

Lemma has_equal_pair_solution (N : nat) (val : IntVar → Z) :
  has_equal_pair (solution N val)
  ↔ ∃ T U, index_subset N T ∧ index_subset N U ∧ disjoint_teams T U
           ∧ tsum (solution N val) T = tsum (solution N val) U.
Proof. unfold has_equal_pair. by rewrite length_solution. Qed.

(** The static model of [N ≥ 1] without solution: the statement holds
    for [N]. *)
Lemma static_unsat_always (N : nat) :
  (1 ≤ N)%nat →
  (∀ val, satisfies val
            (add_constraints
               (map ne_sums (disjoint_pairs (combinations (range N) 5)))
               (base_model N)) = false) →
  always_equal_pair N.
Proof.
  intros HN Hunsat scores Hlen Hrange.
  destruct (has_equal_pair_dec scores) as [H | Hnone]; [done|]. exfalso.
  assert (Hc : counterexample N scores) by done.
  pose proof (normalize_normalized N scores Hc HN) as Hnorm.
  destruct (base_model_complete N _ Hnorm) as [Hsat Hsol].
  set (val := assignment_of (normalize scores)) in *.
  pose proof (counterexample_solves_static N (base_model N) [] val) as Hs.
  rewrite Hunsat in Hs. cbn [map] in Hs. rewrite add_constraints_nil in Hs.
  specialize (Hs Hsat). apply not_false_iff_true in Hs; [done|].
  rewrite <- has_equal_pair_solution, Hsol.
  by rewrite has_equal_pair_normalize.
Qed.

(** The scores of a solution of the static model are a counterexample. *)
Lemma static_solution_counterexample (N : nat) (val : IntVar → Z) :
  (1 ≤ N)%nat →
  satisfies val
    (add_constraints (map ne_sums (disjoint_pairs (combinations (range N) 5)))
       (base_model N)) = true →
  normalized N (solution N val) ∧ counterexample N (solution N val).
Proof.
  intros HN. rewrite satisfies_add_constraints, andb_true_iff.
  intros [Hbase Hpairs].
  pose proof (base_model_sound N val HN Hbase) as Hnorm.
  split; [done|]. destruct Hnorm as (Hlen & Hrange & _).
  split_and!; [done | done |].
  set (sol := solution N val) in *.
  pose proof (find_equal_pair_None_iff sol ∅ cache_ok_empty) as Hiff.
  fold (has_equal_pair sol) in Hiff. apply Hiff.
  pose proof (find_equal_pair_spec sol ∅ cache_ok_empty) as Hspec.
  destruct ((find_equal_pair sol ∅).1) as [[[T U]|]|e]; [|done|done].
  exfalso. destruct Hspec as (pre & post & Hteams & Hfirst & _).
  rewrite Hlen in Hteams.
  apply first_match_Some in Hfirst as (HU & Hsum & Hd).
  assert (Hvalid : valid_block N (T, U)).
  { unfold valid_block. simpl. rewrite Hteams.
    apply list_elem_of_split in HU as (pre1 & pre2 & ->).
    rewrite <- app_assoc. simpl.
    apply disjoint_pairs_intro. by apply disjoint_teams_sym. }
  destruct (valid_block_indices N (T, U) Hvalid)
    as ((_ & _ & HT) & (_ & _ & HU') & _). simpl in HT, HU'.
  rewrite forallb_forall in Hpairs.
  specialize (Hpairs (ne_sums (U, T))).
  apply (holds_ne_sums N val U T HU' HT); [|exact Hsum].
  apply Hpairs, in_map, list_elem_of_In, Hvalid.
Qed.

(** ** What the verdicts of the drivers mean *)

Lemma oracle_correct_honest (P : CpModel → Prop)
    (Solve : CpModel → Parameters → Response) :
  oracle_correct_on P Solve → oracle_honest_on P Solve.
Proof.
  intros H mdl params HP. specialize (H mdl params HP).
  by destruct (status (Solve mdl params)).
Qed.

Lemma oracle_honest_sound (P : CpModel → Prop)
    (Solve : CpModel → Parameters → Response) :
  oracle_honest_on P Solve → oracle_sound_on P Solve.
Proof.
  intros H mdl params HP Hst. specialize (H mdl params HP).
  by destruct Hst as [Hst | Hst]; rewrite Hst in H.
Qed.

(** What [prove_static] returns for [N ≥ 1]: the answer of the solver on
    the base model with one disequality for each disjoint pair. *)
Lemma prove_static_status (Solve : CpModel → Parameters → Response) (N : nat)
    (limit threads : Z) (cache : TEAMS_CACHE) :
  (1 ≤ N)%nat → cache_ok cache →
  (prove_static Solve N limit threads cache).1
  = match status (Solve
                    (add_constraints
                       (map ne_sums (disjoint_pairs (combinations (range N) 5)))
                       (base_model N))
                    {| num_search_workers := threads;
                       max_time_in_seconds := limit |}) with
    | INFEASIBLE => Ok true
    | OPTIMAL | FEASIBLE => Ok false
    | _ => Raise (TimeoutError N)
    end.
Proof.
  intros HN Hc. unfold prove_static.
  rewrite (setup_base_model_closed_form N HN).
  destruct (get_5_subsets_ok N cache Hc) as [Hteams _].
  destruct (get_5_subsets N cache) as [teams' cache']. simpl in Hteams.
  subst teams'. rewrite static_model_ok. done.
Qed.

Lemma static_problem_model (N : nat) (mdl : CpModel) :
  static_problem N mdl ↔
  (1 ≤ N)%nat
  ∧ mdl = add_constraints
            (map ne_sums (disjoint_pairs (combinations (range N) 5)))
            (base_model N).
Proof.
  split.
  - intros (base & score & Hbase & Hmdl).
    assert (HN : (1 ≤ N)%nat).
    { destruct N; [by rewrite setup_base_model_0 in Hbase | lia]. }
    split; [done|].
    rewrite (setup_base_model_closed_form N HN) in Hbase.
    injection Hbase as <- <-. rewrite static_model_ok in Hmdl. congruence.
  - intros [HN ->]. exists (base_model N), (map score_var (range N)).
    split; [by apply setup_base_model_closed_form | apply static_model_ok].
Qed.

Lemma prove_static_0 (Solve : CpModel → Parameters → Response)
    (limit threads : Z) (cache : TEAMS_CACHE) :
  prove_static Solve 0 limit threads cache = (Raise IndexError, cache).
Proof. reflexivity. Qed.

Lemma prove_with_cegar_0 (Solve : CpModel → Parameters → Response)
    (perf_counter : nat → Z) (fuel : nat) (limit threads : Z)
    (cache : TEAMS_CACHE) :
  prove_with_cegar Solve perf_counter (S fuel) 0 limit threads cache
  = (Some (Raise IndexError), cegar_init cache).
Proof. reflexivity. Qed.

Section Verdicts.

Variable Solve : CpModel → Parameters → Response.
Variable perf_counter : nat → Z.
Variables (N : nat) (wallclock_limit threads t0 : Z).
Hypothesis Solve_honest : oracle_honest_on (cegar_problem N) Solve.

(** The pass at which a run stops starts from a state that satisfies the
    invariant. *)
Lemma cegar_loop_last (fuel : nat) :
  ∀ (st st' : cegar_state) (r : result bool),
    cegar_inv N st →
    cegar_loop Solve perf_counter fuel N wallclock_limit threads t0 st
    = (Some r, st') →
    ∃ st0, cegar_inv N st0
           ∧ cegar_iteration Solve perf_counter N wallclock_limit threads t0 st0
             = (Some r, st').
Proof.
  induction fuel as [|fuel IH]; intros st st' r Hinv Hloop; simpl in Hloop;
    [done|].
  destruct (cegar_iteration _ _ _ _ _ _ st) as [[r1|] st1] eqn:Hit.
  - injection Hloop as <- <-. eauto.
  - apply (IH st1); [|done].
    by destruct (cegar_iteration_spec Solve perf_counter N wallclock_limit
                   threads t0 (oracle_honest_sound _ _ Solve_honest)
                   st st1 None Hinv Hit) as (Hinv1 & _).
Qed.

(** A pass that returns a Boolean, under a solver whose answers can be
    trusted: [True] on a model without solution, [False] on a solution
    without two disjoint subsets of equal sums. *)
Lemma cegar_iteration_verdict (st st' : cegar_state) (b : bool) :
  (1 ≤ N)%nat →
  cegar_inv N st →
  cegar_iteration Solve perf_counter N wallclock_limit threads t0 st
  = (Some (Ok b), st') →
  if b
  then ∀ val, satisfies val
                (add_constraints (map ne_sums (block_clauses st)) (base_model N))
              = false
  else ∃ val,
         satisfies val
           (add_constraints (map ne_sums (block_clauses st)) (base_model N))
         = true
         ∧ ¬ has_equal_pair (solution N val).
Proof.
  intros HN (Hc & Hv & Hnd) Hit. unfold cegar_iteration in Hit.
  pose proof (setup_base_model_closed_form N HN) as Hbase.
  destruct (cegar_model_ok N _ _ _ Hbase Hv) as [_ Hmdl].
  rewrite Hmdl in Hit.
  set (mdl := add_constraints (map ne_sums (block_clauses st)) (base_model N))
    in *.
  set (params := Build_Parameters _ _) in *.
  assert (Hpb : cegar_problem N mdl)
    by (exists (block_clauses st), (map score_var (range N)); done).
  pose proof (Solve_honest mdl params Hpb) as Hhonest.
  assert (Hsat : satisfies (Value (Solve mdl params)) mdl = true →
    (let sol := map (Value (Solve mdl params)) (map score_var (range N)) in
     let '(found, cache') := find_equal_pair sol (cache st) in
     match found with
     | Raise e =>
         (Some (Raise e),
          {| block_clauses := block_clauses st; cache := cache';
             reads := S (reads st); calls := calls st ++ [(mdl, params)] |})
     | Ok None =>
         (Some (Ok false),
          {| block_clauses := block_clauses st; cache := cache';
             reads := S (reads st); calls := calls st ++ [(mdl, params)] |})
     | Ok (Some TU) =>
         (None,
          {| block_clauses := block_clauses st ++ [TU]; cache := cache';
             reads := S (reads st); calls := calls st ++ [(mdl, params)] |})
     end) = (Some (Ok b), st') →
    b = false
    ∧ ∃ val, satisfies val mdl = true ∧ ¬ has_equal_pair (solution N val)).
  { intros Hs. cbv zeta. fold (solution N (Value (Solve mdl params))).
    set (sol := solution N (Value (Solve mdl params))).
    pose proof (find_equal_pair_None_iff sol (cache st) Hc) as Hiff.
    destruct (find_equal_pair_total sol (cache st) Hc) as [found Hfound].
    destruct (find_equal_pair sol (cache st)) as [found' cache'].
    simpl in Hfound, Hiff. subst found'.
    destruct found as [TU|]; [done|]. intros [= <- <-]. split; [done|].
    exists (Value (Solve mdl params)). split; [done|]. by apply Hiff. }
  destruct (status (Solve mdl params)) eqn:Hst; try done.
  - by destruct (Hsat Hhonest Hit) as [-> ?].
  - by injection Hit as <- <-.
  - by destruct (Hsat Hhonest Hit) as [-> ?].
Qed.

End Verdicts.

(** ** More than 108 scores *)

Section Pigeonhole.

Local Open Scope nat_scope.

Lemma sum_list_map_ext {A : Type} (f g : A → nat) (xs : list A) :
  (∀ x, x ∈ xs → f x = g x) →
  sum_list (map f xs) = sum_list (map g xs).
Proof.
  induction xs as [|x xs IH]; intros H; [done|]. simpl.
  rewrite (H x) by left. rewrite IH; [done|]. intros y Hy. apply H. by right.
Qed.

(** The occurrences of the values of [vs] add up to the length of a list
    that holds no other value. *)
Lemma length_occurrences (vs : list Z) :
  NoDup vs → ∀ l, (∀ x, x ∈ l → x ∈ vs) →
  length l = sum_list (map (fun v => occurrences v l) vs).
Proof.
  induction 1 as [|v vs Hv Hnd IH]; intros l Hl.
  - destruct l as [|x l]; [done|]. exfalso.
    specialize (Hl x ltac:(left)). by apply elem_of_nil in Hl.
  - simpl.
    rewrite <- (sum_list_map_ext
                  (fun w => occurrences w (filter (fun x => ¬ x = v) l))).
    + rewrite <- IH.
      * unfold occurrences. rewrite <- length_app.
        apply Permutation_length. symmetry. apply filter_app_complement.
      * intros x Hx. apply list_elem_of_filter in Hx as [Hne Hx].
        apply Hl in Hx. apply elem_of_cons in Hx as [-> | Hx]; done.
    + intros w Hw. apply occurrences_filter_ne. intros ->. done.
Qed.

Lemma sum_halves {A : Type} (f : A → nat) (xs : list A) :
  sum_list (map f xs) ≤ length xs + 2 * sum_list (map (fun x => f x / 2) xs).
Proof.
  induction xs as [|x xs IH]; [simpl; lia|].
  cbn [map sum_list sum_list_with length].
  change (id (f x)) with (f x). change (id (f x / 2)) with (f x / 2).
  pose proof (Nat.div_mod_eq (f x) 2) as H.
  pose proof (Nat.mod_upper_bound (f x) 2 ltac:(lia)) as H'. lia.
Qed.

(** All but 100 scores between 1 and 100 are in duplicate pairs. *)
Lemma duplicate_pairs_bound (scores : list Z) :
  Forall (fun x => (1 ≤ x ≤ 100)%Z) scores →
  length scores ≤ 100 + 2 * duplicate_pairs scores.
Proof.
  intros Hrange.
  rewrite (length_occurrences score_values NoDup_score_values scores).
  - unfold duplicate_pairs.
    etrans; [apply sum_halves|]. unfold score_values at 1.
    rewrite length_map, length_seq. done.
  - intros x Hx. rewrite Forall_forall in Hrange.
    apply list_elem_of_In, in_score_values. by apply Hrange.
Qed.

End Pigeonhole.

(** More than 108 scores between 1 and 100 always hold five duplicate
    pairs, so the base model has no solution. *)
Lemma base_model_unsat (N : nat) (val : IntVar → Z) :
  (109 ≤ N)%nat → satisfies val (base_model N) = false.
Proof.
  intros HN. apply not_true_is_false. intros Hsat.
  destruct (base_model_sound N val ltac:(lia) Hsat)
    as (Hlen & Hrange & _ & _ & _ & Hdup).
  pose proof (duplicate_pairs_bound _ Hrange). lia.
Qed.

Lemma infeasible_solver_honest_static (N : nat) :
  (109 ≤ N)%nat → oracle_honest_on (static_problem N) infeasible_solver.
Proof.
  intros HN mdl params Hpb. apply static_problem_model in Hpb as [_ ->].
  intros val. rewrite satisfies_add_constraints.
  by rewrite (base_model_unsat N val HN).
Qed.

Lemma infeasible_solver_honest_cegar (N : nat) :
  (109 ≤ N)%nat → oracle_honest_on (cegar_problem N) infeasible_solver.
Proof.
  intros HN mdl params (blocks & score & Hv & Hmdl).
  pose proof (setup_base_model_closed_form N ltac:(lia)) as Hbase.
  destruct (cegar_model_ok N blocks _ _ Hbase Hv) as [_ Hmdl'].
  assert (mdl = add_constraints (map ne_sums blocks) (base_model N)) as ->
    by congruence.
  intros val. rewrite satisfies_add_constraints.
  by rewrite (base_model_unsat N val HN).
Qed.

Lemma infeasible_static_run (N : nat) (limit threads : Z) :
  (1 ≤ N)%nat →
  (prove_static infeasible_solver N limit threads ∅).1 = Ok true.
Proof.
  intros HN. by rewrite (prove_static_status _ N _ _ ∅ HN cache_ok_empty).
Qed.

Lemma infeasible_cegar_run (N : nat) (limit threads : Z) :
  (1 ≤ N)%nat →
  (prove_with_cegar infeasible_solver stopped_clock 1 N limit threads ∅).1
  = Some (Ok true).
Proof.
  intros HN. unfold prove_with_cegar, cegar_loop, cegar_iteration.
  pose proof (setup_base_model_closed_form N HN) as Hbase.
  destruct (cegar_model_ok N [] _ _ Hbase ltac:(constructor)) as [_ Hmdl].
  cbn [cegar_init block_clauses]. rewrite Hmdl. reflexivity.
Qed.

(** ** The verdicts of the drivers *)

(** X13. A [True] returned by [prove_static], when the solver answers
    INFEASIBLE only for problems without solution, means that every
    sequence of [N] scores between 1 and 100, in any order, has two
    disjoint 5-element index subsets with equal sums: the symmetry
    breaking and the pruning of the base model lose no sequence. *)
Theorem prove_static_True
    (Solve : CpModel → Parameters → Response) (N : nat)
    (limit threads : Z) (cache : TEAMS_CACHE) :
  oracle_honest_on (static_problem N) Solve →
  cache_ok cache →
  (prove_static Solve N limit threads cache).1 = Ok true →
  always_equal_pair N.
Proof.
  intros Hh Hc Hres. destruct N as [|n]; [by rewrite prove_static_0 in Hres|].
  set (N := S n) in *. assert (HN : (1 ≤ N)%nat) by (unfold N; lia).
  rewrite (prove_static_status Solve N limit threads cache HN Hc) in Hres.
  set (mdl := add_constraints _ _) in Hres.
  set (params := Build_Parameters _ _) in Hres.
  assert (Hpb : static_problem N mdl) by (by apply static_problem_model).
  specialize (Hh mdl params Hpb).
  destruct (status (Solve mdl params)); try done.
  by apply static_unsat_always.
Qed.

(** X14. A [False] returned by [prove_static], when the solutions that the
    solver reports satisfy the problem, comes with a counterexample: the
    scores of the solution are [N] values between 1 and 100, in the
    normalized form, without two disjoint 5-element index subsets of
    equal sums. *)
Theorem prove_static_False
    (Solve : CpModel → Parameters → Response) (N : nat)
    (limit threads : Z) (cache : TEAMS_CACHE) :
  oracle_honest_on (static_problem N) Solve →
  cache_ok cache →
  (prove_static Solve N limit threads cache).1 = Ok false →
  ∃ scores, normalized N scores ∧ counterexample N scores.
Proof.
  intros Hh Hc Hres. destruct N as [|n]; [by rewrite prove_static_0 in Hres|].
  set (N := S n) in *. assert (HN : (1 ≤ N)%nat) by (unfold N; lia).
  rewrite (prove_static_status Solve N limit threads cache HN Hc) in Hres.
  set (mdl := add_constraints _ _) in Hres.
  set (params := Build_Parameters _ _) in Hres.
  assert (Hpb : static_problem N mdl) by (by apply static_problem_model).
  specialize (Hh mdl params Hpb).
  exists (solution N (Value (Solve mdl params))).
  destruct (status (Solve mdl params)); try done;
    by apply static_solution_counterexample.
Qed.

(** X15. A [True] returned by [prove_with_cegar], after any number of
    refinements and whatever the clock shows, when the solver answers
    INFEASIBLE only for problems without solution and reports only
    solutions of the problem, means that every sequence of [N] scores
    between 1 and 100 has two disjoint 5-element index subsets with equal
    sums. *)
Theorem prove_with_cegar_True
    (Solve : CpModel → Parameters → Response) (perf_counter : nat → Z)
    (fuel N : nat) (limit threads : Z) (cache : TEAMS_CACHE) :
  oracle_honest_on (cegar_problem N) Solve →
  cache_ok cache →
  (prove_with_cegar Solve perf_counter fuel N limit threads cache).1
  = Some (Ok true) →
  always_equal_pair N.
Proof.
  intros Hh Hc Hres.
  destruct (prove_with_cegar Solve perf_counter fuel N limit threads cache)
    as [r st'] eqn:Hrun. simpl in Hres. subst r.
  destruct N as [|n].
  { destruct fuel; [done|]. by rewrite prove_with_cegar_0 in Hrun. }
  set (N := S n) in *. assert (HN : (1 ≤ N)%nat) by (unfold N; lia).
  destruct (cegar_loop_last Solve perf_counter N limit threads
              (perf_counter 0%nat) Hh fuel _ _ _ (cegar_init_inv N cache Hc) Hrun)
    as (st0 & Hinv0 & Hit).
  pose proof (cegar_iteration_verdict Solve perf_counter N limit threads
                (perf_counter 0%nat) Hh st0 st' true HN Hinv0 Hit) as Hunsat.
  cbv iota in Hunsat. destruct Hinv0 as (_ & Hv0 & _).
  apply (static_unsat_always N HN). intros val.
  apply not_true_is_false. intros Hs.
  apply (static_solution_cegar N _ _ _ Hv0) in Hs.
  by rewrite Hunsat in Hs.
Qed.

(** X16. A [False] returned by [prove_with_cegar], when the solutions that
    the solver reports satisfy the problem, comes with a counterexample:
    the scores of the last solution are [N] values between 1 and 100, in
    the normalized form, without two disjoint 5-element index subsets of
    equal sums. *)
Theorem prove_with_cegar_False
    (Solve : CpModel → Parameters → Response) (perf_counter : nat → Z)
    (fuel N : nat) (limit threads : Z) (cache : TEAMS_CACHE) :
  oracle_honest_on (cegar_problem N) Solve →
  cache_ok cache →
  (prove_with_cegar Solve perf_counter fuel N limit threads cache).1
  = Some (Ok false) →
  ∃ scores, normalized N scores ∧ counterexample N scores.
Proof.
  intros Hh Hc Hres.
  destruct (prove_with_cegar Solve perf_counter fuel N limit threads cache)
    as [r st'] eqn:Hrun. simpl in Hres. subst r.
  destruct N as [|n].
  { destruct fuel; [done|]. by rewrite prove_with_cegar_0 in Hrun. }
  set (N := S n) in *. assert (HN : (1 ≤ N)%nat) by (unfold N; lia).
  destruct (cegar_loop_last Solve perf_counter N limit threads
              (perf_counter 0%nat) Hh fuel _ _ _ (cegar_init_inv N cache Hc) Hrun)
    as (st0 & Hinv0 & Hit).
  destruct (cegar_iteration_verdict Solve perf_counter N limit threads
              (perf_counter 0%nat) Hh st0 st' false HN Hinv0 Hit)
    as (val & Hsat & Hnone).
  rewrite satisfies_add_constraints, andb_true_iff in Hsat.
  destruct Hsat as [Hbase _].
  pose proof (base_model_sound N val HN Hbase) as Hnorm.
  exists (solution N val). split; [done|].
  destruct Hnorm as (Hlen & Hrange & _). done.
Qed.

Lemma prove_static_True_witness : always_equal_pair 109.
Proof.
  apply (prove_static_True infeasible_solver 109 60 1 ∅).
  - apply infeasible_solver_honest_static. lia.
  - exact cache_ok_empty.
  - apply infeasible_static_run. lia.
Defined.

Lemma prove_static_False_witness :
  ∃ scores, normalized 10 scores ∧ counterexample 10 scores.
Proof.
  apply (prove_static_False sample_solver 10 60 1 ∅).
  - apply oracle_correct_honest. exact sample_solver_correct_static.
  - exact cache_ok_empty.
  - vm_compute. reflexivity.
Defined.

Lemma prove_with_cegar_True_witness : always_equal_pair 109.
Proof.
  apply (prove_with_cegar_True infeasible_solver stopped_clock 1 109 60 1 ∅).
  - apply infeasible_solver_honest_cegar. lia.
  - exact cache_ok_empty.
  - apply infeasible_cegar_run. lia.
Defined.

Lemma prove_with_cegar_False_witness :
  ∃ scores, normalized 10 scores ∧ counterexample 10 scores.
Proof.
  apply (prove_with_cegar_False sample_solver stopped_clock 3 10 60 1 ∅).
  - apply oracle_correct_honest. exact sample_solver_correct_cegar.
  - exact cache_ok_empty.
  - vm_compute. reflexivity.
Defined.

Lemma find_equal_pair_None_has (scores : list Z) (cache : TEAMS_CACHE) :
  cache_ok cache →
  (find_equal_pair scores cache).1 = Ok None ↔ ¬ has_equal_pair scores.
Proof. apply find_equal_pair_None_iff. Qed.

(** X17. Whether [find_equal_pair] finds a pair depends neither on the
    order of the scores nor on a constant added to all of them (nor on what
    the cache holds): it returns [None] on a sequence exactly when it does
    on any rearrangement of it moved by any constant. *)
Theorem find_equal_pair_order_and_shift (scores scores' : list Z) (c : Z)
    (cache cache' : TEAMS_CACHE) :
  cache_ok cache → cache_ok cache' →
  scores ≡ₚ scores' →
  (find_equal_pair scores cache).1 = Ok None
  ↔ (find_equal_pair (map (fun x => x + c) scores') cache').1 = Ok None.
Proof.
  intros Hc Hc' Hperm.
  rewrite !find_equal_pair_None_has by done.
  apply not_iff_compat. split.
  - intros H. apply has_equal_pair_shift.
    by apply (has_equal_pair_Permutation scores).
  - intros H. apply (has_equal_pair_Permutation scores'); [done|].
    rewrite <- (map_shift_back c scores'). by apply has_equal_pair_shift.
Qed.

Lemma find_equal_pair_order_and_shift_witness :
  (find_equal_pair nine_ones_two ∅).1 = Ok None
  ↔ (find_equal_pair (map (fun x => x + 3) two_nine_ones) ∅).1 = Ok None.
Proof.
  apply (find_equal_pair_order_and_shift nine_ones_two two_nine_ones 3 ∅ ∅).
  - exact cache_ok_empty.
  - exact cache_ok_empty.
  - unfold nine_ones_two, two_nine_ones.
    apply (Permutation_app_comm [1;1;1;1;1;1;1;1;1] [2]).
Defined.

Lemma counterexample_normalize (N : nat) (scores : list Z) :
  (1 ≤ N)%nat → counterexample N scores →
  counterexample N (normalize scores).
Proof.
  intros HN Hc.
  destruct (normalize_normalized N scores Hc HN) as (Hlen & Hrange & _).
  destruct Hc as (_ & _ & Hnone).
  split_and!; [done | done | by rewrite has_equal_pair_normalize].
Qed.

(** X18. The symmetry breaking and the pruning of [setup_base_model] lose
    no counterexample: a sequence of [N ≥ 1] scores between 1 and 100, in
    any order, without two disjoint 5-element index subsets of equal sums,
    gives, once sorted and moved so that its least value is 1, the scores
    of a solution of the base model, and is still a counterexample. *)
Theorem base_model_keeps_counterexamples (N : nat) (scores : list Z) :
  (1 ≤ N)%nat → counterexample N scores →
  ∃ mdl score val,
    setup_base_model N = Ok (mdl, score)
    ∧ satisfies val mdl = true
    ∧ map val score = normalize scores
    ∧ counterexample N (normalize scores).
Proof.
  intros HN Hc.
  pose proof (normalize_normalized N scores Hc HN) as Hnorm.
  destruct (base_model_complete N _ Hnorm) as [Hsat Hsol].
  exists (base_model N), (map score_var (range N)),
         (assignment_of (normalize scores)).
  split_and!; [by apply setup_base_model_closed_form | done | done |].
  by apply counterexample_normalize.
Qed.

Lemma eight_fours_counterexample : counterexample 10 eight_fours_five_four.
Proof.
  split_and!.
  - done.
  - unfold eight_fours_five_four. repeat constructor; lia.
  - apply (find_equal_pair_None_has _ ∅ cache_ok_empty).
    vm_compute. reflexivity.
Qed.

Lemma base_model_keeps_counterexamples_witness :
  ∃ mdl score val,
    setup_base_model 10 = Ok (mdl, score)
    ∧ satisfies val mdl = true
    ∧ map val score = normalize eight_fours_five_four
    ∧ counterexample 10 (normalize eight_fours_five_four).
Proof.
  apply (base_model_keeps_counterexamples 10 eight_fours_five_four).
  - lia.
  - exact eight_fours_counterexample.
Defined.

Example normalize_sample : normalize eight_fours_five_four = nine_ones_two.
Proof. vm_compute. reflexivity. Qed.

(** ** The oracle invocations of a CEGAR run *)

Lemma expected_call_app (perf_counter : nat → Z) (N : nat)
    (limit threads : Z) (blocks more : list (team * team)) (n : nat) :
  (n ≤ length blocks)%nat →
  map (expected_call perf_counter N limit threads (blocks ++ more)) (seq 0 n)
  = map (expected_call perf_counter N limit threads blocks) (seq 0 n).
Proof.
  intros Hn. apply map_ext_in. intros i Hi. apply in_seq in Hi.
  unfold expected_call. by rewrite take_app_le by lia.
Qed.

Section CallLog.

Variable Solve : CpModel → Parameters → Response.
Variable perf_counter : nat → Z.
Variables (N : nat) (wallclock_limit threads : Z).
Hypothesis N_pos : (1 ≤ N)%nat.

(** One pass keeps the invariant of the log, and a pass that stops has
    made one more invocation than there are blocking pairs. *)
Lemma call_log_step (st st' : cegar_state) (r : option (result bool)) :
  call_log_inv perf_counter N wallclock_limit threads 0 st →
  cegar_iteration Solve perf_counter N wallclock_limit threads
    (perf_counter 0%nat) st = (r, st') →
  call_log_inv perf_counter N wallclock_limit threads
    (match r with Some _ => 1 | None => 0 end) st'.
Proof.
  intros (Hc & Hv & Hreads & Hlen & Hcalls) Hit.
  unfold cegar_iteration in Hit.
  pose proof (setup_base_model_closed_form N N_pos) as Hbase.
  destruct (cegar_model_ok N _ _ _ Hbase Hv) as [_ Hmdl].
  rewrite Hmdl in Hit.
  set (mdl := add_constraints (map ne_sums (block_clauses st)) (base_model N))
    in *.
  set (params := Build_Parameters _ _) in *.
  rewrite Nat.add_0_r in Hlen.
  assert (Hnew : (mdl, params)
                 = expected_call perf_counter N wallclock_limit threads
                     (block_clauses st) (length (calls st))).
  { unfold expected_call, mdl, params.
    by rewrite Hreads, Hlen, firstn_all. }
  assert (Hstop : ∀ c,
    cache_ok c →
    call_log_inv perf_counter N wallclock_limit threads 1
      {| block_clauses := block_clauses st; cache := c;
         reads := S (reads st); calls := calls st ++ [(mdl, params)] |}).
  { intros c Hc'. unfold call_log_inv. cbn [block_clauses cache reads calls].
    rewrite length_app. cbn [length].
    split_and!; [done | done | lia | lia |].
    rewrite Nat.add_1_r, seq_S, map_app. cbn [map Nat.add].
    by rewrite <- Hcalls, <- Hnew. }
  assert (Hsat :
    (let sol := map (Value (Solve mdl params)) (map score_var (range N)) in
     let '(found, cache') := find_equal_pair sol (cache st) in
     match found with
     | Raise e =>
         (Some (Raise e),
          {| block_clauses := block_clauses st; cache := cache';
             reads := S (reads st); calls := calls st ++ [(mdl, params)] |})
     | Ok None =>
         (Some (Ok false),
          {| block_clauses := block_clauses st; cache := cache';
             reads := S (reads st); calls := calls st ++ [(mdl, params)] |})
     | Ok (Some TU) =>
         (None,
          {| block_clauses := block_clauses st ++ [TU]; cache := cache';
             reads := S (reads st); calls := calls st ++ [(mdl, params)] |})
     end) = (r, st') →
    call_log_inv perf_counter N wallclock_limit threads
      (match r with Some _ => 1 | None => 0 end) st').
  { cbv zeta. fold (solution N (Value (Solve mdl params))).
    set (sol := solution N (Value (Solve mdl params))).
    pose proof (find_equal_pair_spec sol (cache st) Hc) as Hspec.
    destruct (find_equal_pair_scan sol (cache st) Hc) as [_ Hc'].
    destruct (find_equal_pair sol (cache st)) as [found cache'].
    simpl in Hspec, Hc'.
    destruct found as [[[T U]|]|e]; [| |done].
    2: { intros [= <- <-]. by apply Hstop. }
    intros [= <- <-].
    destruct Hspec as (pre & post & Hteams & Hfirst & _).
    unfold sol in Hteams. rewrite length_solution in Hteams.
    apply first_match_Some in Hfirst as (HU & Hsum & Hd).
    assert (Hvalid : valid_block N (T, U)).
    { unfold valid_block. simpl. rewrite Hteams.
      apply list_elem_of_split in HU as (pre1 & pre2 & ->).
      rewrite <- app_assoc. simpl.
      apply disjoint_pairs_intro. by apply disjoint_teams_sym. }
    unfold call_log_inv. cbn [block_clauses cache reads calls].
    rewrite !length_app. cbn [length].
    split_and!; [done | | lia | lia |].
    - apply Forall_app. split; [done | by constructor].
    - rewrite Nat.add_1_r, seq_S, map_app. cbn [map Nat.add].
      rewrite expected_call_app by lia. rewrite <- Hcalls. f_equal.
      unfold expected_call. rewrite Hlen, take_app_length.
      unfold params. by rewrite Hreads, Hlen. }
  destruct (status (Solve mdl params)) eqn:Hst;
    [injection Hit as <- <-; by apply Hstop
    |injection Hit as <- <-; by apply Hstop
    |by apply Hsat
    |injection Hit as <- <-; by apply Hstop
    |by apply Hsat].
Qed.

Lemma call_log_loop (fuel : nat) :
  ∀ (st st' : cegar_state) (r : option (result bool)),
    call_log_inv perf_counter N wallclock_limit threads 0 st →
    cegar_loop Solve perf_counter fuel N wallclock_limit threads
      (perf_counter 0%nat) st = (r, st') →
    call_log_inv perf_counter N wallclock_limit threads
      (match r with Some _ => 1 | None => 0 end) st'.
Proof.
  induction fuel as [|fuel IH]; intros st st' r Hinv Hloop; simpl in Hloop.
  - by injection Hloop as <- <-.
  - destruct (cegar_iteration _ _ _ _ _ _ st) as [[r1|] st1] eqn:Hit.
    + injection Hloop as <- <-. apply (call_log_step st st1 (Some r1) Hinv Hit).
    + apply (IH st1); [|done]. apply (call_log_step st st1 None Hinv Hit).
Qed.

End CallLog.

Lemma call_log_init (perf_counter : nat → Z) (N : nat) (limit threads : Z)
    (cache : TEAMS_CACHE) :
  cache_ok cache →
  call_log_inv perf_counter N limit threads 0 (cegar_init cache).
Proof. intros Hc. split_and!; [done | constructor | done | done | done]. Qed.

(** X19. The invocations of the solver in a run of [prove_with_cegar N],
    [N ≥ 1], whatever the solver answers, for a wall-clock limit that
    converts to a float exactly (at most [2 ^ 53] in absolute value, so
    that the subtraction from it raises no OverflowError): pass [i]
    (from 0) hands the solver the base model with the first [i] blocking
    pairs of the run, the thread count as given and a time limit that is
    never negative. Every pass invokes the solver once: a run that has
    stopped has made one invocation more than it has blocking pairs, a run
    still going as many. The value of the time limit, which the code
    computes in floating point, is not stated. *)
Theorem cegar_call_log
    (Solve : CpModel → Parameters → Response) (perf_counter : nat → Z)
    (fuel N : nat) (wallclock_limit threads : Z) (cache : TEAMS_CACHE)
    (r : option (result bool)) (st : cegar_state) :
  (1 ≤ N)%nat → cache_ok cache →
  Z.abs wallclock_limit ≤ 2 ^ 53 →
  prove_with_cegar Solve perf_counter fuel N wallclock_limit threads cache
  = (r, st) →
  map fst (calls st)
  = map (fun i => add_constraints (map ne_sums (take i (block_clauses st)))
                    (base_model N))
      (seq 0 (length (calls st)))
  ∧ length (calls st)
    = (length (block_clauses st) + match r with Some _ => 1 | None => 0 end)%nat
  ∧ Forall (fun c => 0 ≤ max_time_in_seconds c.2
                     ∧ num_search_workers c.2 = threads) (calls st).
Proof.
  intros HN Hc _ Hrun. unfold prove_with_cegar in Hrun.
  destruct (call_log_loop Solve perf_counter N wallclock_limit threads HN
              fuel _ _ _ (call_log_init perf_counter N wallclock_limit
                            threads cache Hc) Hrun)
    as (_ & _ & _ & Hlen & Hcalls).
  split_and!; [| done |].
  - rewrite Hcalls at 1. rewrite map_map. by apply map_ext.
  - rewrite Hcalls. apply Forall_forall. intros c Hc'.
    apply list_elem_of_fmap in Hc' as (i & -> & _).
    unfold expected_call. cbn [snd max_time_in_seconds num_search_workers].
    split; [lia | done].
Qed.

Lemma cegar_call_log_witness :
  let st := (prove_with_cegar sample_solver stopped_clock 3 10 60 1 ∅).2 in
  map fst (calls st)
  = map (fun i => add_constraints (map ne_sums (take i (block_clauses st)))
                    (base_model 10))
      (seq 0 (length (calls st)))
  ∧ length (calls st) = (length (block_clauses st) + 1)%nat
  ∧ Forall (fun c => 0 ≤ max_time_in_seconds c.2
                     ∧ num_search_workers c.2 = 1) (calls st).
Proof.
  apply (cegar_call_log sample_solver stopped_clock 3 10 60 1 ∅
           (Some (Ok false))).
  - lia.
  - exact cache_ok_empty.
  - lia.
  - vm_compute. reflexivity.
Defined.

(** ** The static driver *)

Lemma disjoint_pairs_lookup (teams : list team) (A B : team) :
  (A, B) ∈ disjoint_pairs teams
  ↔ ∃ i j, (i < j)%nat ∧ teams !! i = Some A ∧ teams !! j = Some B
           ∧ disjoint_teams A B.
Proof.
  induction teams as [|Ti rest IH]; simpl.
  - split; [by intros H%elem_of_nil|]. by intros (i & j & _ & H & _).
  - rewrite elem_of_app, IH. split.
    + intros [H | (i & j & Hij & HA & HB & Hd)].
      * apply list_elem_of_fmap in H as (Tj & [= -> ->] & HTj).
        apply list_elem_of_filter in HTj as [Hd HTj].
        apply list_elem_of_lookup in HTj as [k Hk].
        exists 0%nat, (S k). split_and!; [lia | done | done |].
        apply isdisjoint_spec. by apply Is_true_true.
      * exists (S i), (S j). split_and!; [lia | done | done | done].
    + intros (i & j & Hij & HA & HB & Hd).
      destruct j as [|j]; [lia|]. destruct i as [|i]; simpl in HA, HB.
      * left. injection HA as ->. apply list_elem_of_fmap. exists B.
        split; [done|]. apply list_elem_of_filter. split.
        -- apply Is_true_true. by apply isdisjoint_spec.
        -- by apply list_elem_of_lookup_2 in HB.
      * right. exists i, j. split_and!; [lia | done | done | done].
Qed.

Lemma disjoint_pairs_NoDup (teams : list team) :
  NoDup teams → NoDup (disjoint_pairs teams).
Proof.
  induction 1 as [|Ti rest Hi Hnd IH]; simpl; [constructor|].
  apply NoDup_app. split_and!.
  - apply NoDup_fmap_2; [|by apply NoDup_filter].
    by intros x y [= ->].
  - intros [A B] HAB Hin.
    apply list_elem_of_fmap in HAB as (Tj & [= -> ->] & _).
    apply disjoint_pairs_elem in Hin as (HA & _). done.
  - exact IH.
Qed.

(** X21. The disequalities of the static model: the two nested loops of
    [prove_static] add [sum over teams[i] != sum over teams[j]] exactly for
    the positions [i < j] of the enumeration whose subsets are disjoint,
    none of them twice; so of two disjoint enumerated subsets exactly one
    order is constrained. *)
Theorem static_disequalities (N : nat) (base : CpModel) :
  let teams := combinations (range N) 5 in
  let pairs := disjoint_pairs teams in
  static_model base (map score_var (range N)) teams
  = Ok (add_constraints (map ne_sums pairs) base)
  ∧ NoDup pairs
  ∧ (∀ A B, (A, B) ∈ pairs
            ↔ ∃ i j, (i < j)%nat ∧ teams !! i = Some A ∧ teams !! j = Some B
                     ∧ disjoint_teams A B)
  ∧ (∀ A B, A ∈ teams → B ∈ teams → disjoint_teams A B →
            ((A, B) ∈ pairs ↔ (B, A) ∉ pairs)).
Proof.
  intros teams pairs.
  assert (Hnd : NoDup teams) by apply combinations_NoDup, NoDup_seq.
  split_and!.
  - apply static_model_ok.
  - by apply disjoint_pairs_NoDup.
  - intros A B. apply disjoint_pairs_lookup.
  - intros A B HA HB Hd. unfold pairs. rewrite !disjoint_pairs_lookup.
    apply list_elem_of_lookup in HA as [i Hi].
    apply list_elem_of_lookup in HB as [j Hj].
    split.
    + intros (i' & j' & Hlt & Hi' & Hj' & _) (j'' & i'' & Hlt' & Hj'' & Hi'' & _).
      pose proof (NoDup_lookup _ _ _ _ Hnd Hi' Hi'').
      pose proof (NoDup_lookup _ _ _ _ Hnd Hj' Hj''). lia.
    + intros Hnot.
      assert (Hne : i ≠ j).
      { intros ->. assert (A = B) as -> by congruence.
        pose proof (list_elem_of_lookup_2 _ _ _ Hi) as HB'.
        apply team_index_subset in HB' as (_ & Hlen & _).
        destruct B as [|b B]; [done|]. apply (Hd b); left. }
      destruct (decide (i < j)%nat) as [Hlt | Hge].
      * exists i, j. done.
      * exfalso. apply Hnot. exists j, i.
        split_and!; [lia | done | done | by apply disjoint_teams_sym].
Qed.

(** What [prove_static] does, for every [N]. *)
Lemma prove_static_eq
    (Solve : CpModel → Parameters → Response) (N : nat)
    (wallclock_limit threads : Z) (cache : TEAMS_CACHE) :
  cache_ok cache →
  prove_static Solve N wallclock_limit threads cache
  = match N with
    | O => (Raise IndexError, cache)
    | S _ =>
        let teams := combinations (range N) 5 in
        let mdl := add_constraints (map ne_sums (disjoint_pairs teams))
                     (base_model N) in
        let params := {| num_search_workers := threads;
                         max_time_in_seconds := wallclock_limit |} in
        (match status (Solve mdl params) with
         | INFEASIBLE => Ok true
         | OPTIMAL | FEASIBLE => Ok false
         | _ => Raise (TimeoutError N)
         end, <[N := teams]> cache)
    end.
Proof.
  intros Hc. destruct N as [|n]; [reflexivity|].
  set (N := S n). assert (HN : (1 ≤ N)%nat) by (unfold N; lia).
  cbv zeta. unfold prove_static.
  rewrite (setup_base_model_closed_form N HN).
  assert (Hget : get_5_subsets N cache
                 = (combinations (range N) 5,
                    <[N := combinations (range N) 5]> cache)).
  { unfold get_5_subsets. destruct (cache !! N) as [teams|] eqn:Hl; [|done].
    rewrite (Hc N teams Hl). rewrite insert_id; [done|].
    by rewrite Hl, (Hc N teams Hl). }
  rewrite Hget, static_model_ok. bind_step. reflexivity.
Qed.

(** X20. What [prove_static] does, for every [N]: for [N = 0] it raises
    IndexError and leaves the cache as it is; for [N ≥ 1] it consults the
    solver once, on the base model with the disequalities of all disjoint
    pairs, with the thread count and the time limit as given (the limit is
    not clamped), returns [True] for INFEASIBLE, [False] for OPTIMAL and
    FEASIBLE and raises TimeoutError for any other status, and leaves the
    enumeration of the 5-subsets in the cache. *)
Theorem prove_static_outcome
    (Solve : CpModel → Parameters → Response) (N : nat)
    (wallclock_limit threads : Z) (cache : TEAMS_CACHE) :
  cache_ok cache →
  prove_static Solve N wallclock_limit threads cache
  = match N with
    | O => (Raise IndexError, cache)
    | S _ =>
        let teams := combinations (range N) 5 in
        let mdl := add_constraints (map ne_sums (disjoint_pairs teams))
                     (base_model N) in
        let params := {| num_search_workers := threads;
                         max_time_in_seconds := wallclock_limit |} in
        (match status (Solve mdl params) with
         | INFEASIBLE => Ok true
         | OPTIMAL | FEASIBLE => Ok false
         | _ => Raise (TimeoutError N)
         end, <[N := teams]> cache)
    end.
Proof. apply prove_static_eq. Qed.

Lemma prove_static_outcome_witness :
  prove_static sample_solver 10 60 1 ∅
  = let teams := combinations (range 10) 5 in
    let mdl := add_constraints (map ne_sums (disjoint_pairs teams))
                 (base_model 10) in
    let params := {| num_search_workers := 1; max_time_in_seconds := 60 |} in
    (match status (sample_solver mdl params) with
     | INFEASIBLE => Ok true
     | OPTIMAL | FEASIBLE => Ok false
     | _ => Raise (TimeoutError 10)
     end, <[10%nat := teams]> ∅).
Proof.
  apply (prove_static_outcome sample_solver 10 60 1 ∅). exact cache_ok_empty.
Defined.

(** ** The sweep over N *)

Example sample_sweep :
  (solver_main sample_solver stopped_clock 3 sample_args fresh_state).1
  = [(10, Some (Ok false)); (11, Some (Raise (TimeoutError 11)))].
Proof. vm_compute. reflexivity. Qed.

Lemma range_between_lookup (a b : Z) (i : nat) (M : Z) :
  range_between a b !! i = Some M ↔ M = a + Z.of_nat i ∧ M < b.
Proof.
  unfold range_between. rewrite list_lookup_fmap. split.
  - intros H. destruct (seq 0 (Z.to_nat (b - a)) !! i) as [k|] eqn:Hk; [|done].
    apply lookup_seq in Hk as [-> Hlt]. simpl in H. injection H as <-. lia.
  - intros [-> Hlt]. rewrite lookup_seq_lt by lia. done.
Qed.

Lemma range_between_length (a b : Z) :
  length (range_between a b) = Z.to_nat (b - a).
Proof. unfold range_between. by rewrite length_map, length_seq. Qed.

(** *** The statement for different [N] *)

Lemma has_equal_pair_submseteq (l1 l2 : list Z) :
  l1 ⊆+ l2 → has_equal_pair l1 → has_equal_pair l2.
Proof.
  intros Hsub. rewrite !has_equal_pair_sublists.
  intros (A & B & HA & HB & HAB & Hsum). exists A, B.
  split_and!; [done | done | by trans l1 | done].
Qed.

Lemma always_equal_pair_mono (N M : nat) :
  (N ≤ M)%nat → always_equal_pair N → always_equal_pair M.
Proof.
  intros HNM HN scores Hlen Hrange.
  apply (has_equal_pair_submseteq (take N scores)).
  - apply sublist_submseteq, sublist_take.
  - apply HN; [rewrite length_take; lia | by apply Forall_take].
Qed.

(** With a counterexample for [N - 1], an [N] for which the statement
    holds is the least one. *)
Lemma always_equal_pair_least (N : nat) (scores : list Z) :
  counterexample (N - 1) scores → always_equal_pair N →
  ∀ K, always_equal_pair K ↔ (N ≤ K)%nat.
Proof.
  intros (Hlen & Hrange & Hnone) HN K. split.
  - intros HK. destruct (decide (N ≤ K)%nat) as [|Hlt]; [done|].
    exfalso. apply Hnone.
    by apply (always_equal_pair_mono K (N - 1) ltac:(lia) HK).
  - intros HNK. by apply (always_equal_pair_mono N K).
Qed.

(** *** One attempt *)

Lemma cache_ok_insert (N : nat) (cache : TEAMS_CACHE) :
  cache_ok cache → cache_ok (<[N := combinations (range N) 5]> cache).
Proof.
  intros Hok M teams HM. destruct (decide (N = M)) as [<- | Hne].
  - rewrite lookup_insert_eq in HM. by injection HM as <-.
  - rewrite lookup_insert_ne in HM by done. by apply Hok.
Qed.

Lemma prove_static_cache_ok (Solve : CpModel → Parameters → Response)
    (N : nat) (limit threads : Z) (cache : TEAMS_CACHE) :
  cache_ok cache → cache_ok (prove_static Solve N limit threads cache).2.
Proof.
  intros Hc. rewrite (prove_static_eq Solve N limit threads cache Hc).
  destruct N; [done|]. by apply cache_ok_insert.
Qed.

Lemma prove_with_cegar_cache_ok (Solve : CpModel → Parameters → Response)
    (perf_counter : nat → Z) (fuel N : nat) (limit threads : Z)
    (c : TEAMS_CACHE) :
  cache_ok c →
  cache_ok (cache (prove_with_cegar Solve perf_counter fuel N limit threads c).2).
Proof.
  intros Hc. destruct N as [|n].
  - destruct fuel; [done|]. by rewrite prove_with_cegar_0.
  - destruct (prove_with_cegar Solve perf_counter fuel (S n) limit threads c)
      as [r st] eqn:Hrun. unfold prove_with_cegar in Hrun.
    by destruct (call_log_loop Solve perf_counter (S n) limit threads
                   ltac:(lia) fuel _ _ _
                   (call_log_init perf_counter (S n) limit threads c Hc)
                   Hrun) as (Hc' & _).
Qed.

(** What a Boolean returned by [prove_static] means. *)
Lemma static_verdict (Solve : CpModel → Parameters → Response) (N : nat)
    (limit threads : Z) (cache : TEAMS_CACHE) (b : bool) :
  oracle_honest_on (static_problem N) Solve →
  cache_ok cache →
  (prove_static Solve N limit threads cache).1 = Ok b →
  (1 ≤ N)%nat
  ∧ if b then always_equal_pair N else ∃ scores, counterexample N scores.
Proof.
  intros Hh Hc Hres. destruct N as [|n]; [by rewrite prove_static_0 in Hres|].
  set (N := S n) in *. assert (HN : (1 ≤ N)%nat) by (unfold N; lia).
  split; [done|].
  rewrite (prove_static_status Solve N limit threads cache HN Hc) in Hres.
  set (mdl := add_constraints _ _) in Hres.
  set (params := Build_Parameters _ _) in Hres.
  assert (Hpb : static_problem N mdl) by (by apply static_problem_model).
  specialize (Hh mdl params Hpb).
  destruct (status (Solve mdl params)); try done.
  - injection Hres as <-. exists (solution N (Value (Solve mdl params))).
    by apply static_solution_counterexample.
  - injection Hres as <-. by apply static_unsat_always.
  - injection Hres as <-. exists (solution N (Value (Solve mdl params))).
    by apply static_solution_counterexample.
Qed.

(** What a Boolean returned by [prove_with_cegar] means. *)
Lemma cegar_verdict (Solve : CpModel → Parameters → Response)
    (perf_counter : nat → Z) (fuel N : nat) (limit threads : Z)
    (cache : TEAMS_CACHE) (b : bool) :
  oracle_honest_on (cegar_problem N) Solve →
  cache_ok cache →
  (prove_with_cegar Solve perf_counter fuel N limit threads cache).1
  = Some (Ok b) →
  (1 ≤ N)%nat
  ∧ if b then always_equal_pair N else ∃ scores, counterexample N scores.
Proof.
  intros Hh Hc Hres.
  destruct (prove_with_cegar Solve perf_counter fuel N limit threads cache)
    as [r st'] eqn:Hrun. simpl in Hres. subst r.
  destruct N as [|n].
  { destruct fuel; [done|]. by rewrite prove_with_cegar_0 in Hrun. }
  set (N := S n) in *. assert (HN : (1 ≤ N)%nat) by (unfold N; lia).
  split; [done|].
  destruct (cegar_loop_last Solve perf_counter N limit threads
              (perf_counter 0%nat) Hh fuel _ _ _ (cegar_init_inv N cache Hc) Hrun)
    as (st0 & Hinv0 & Hit).
  pose proof (cegar_iteration_verdict Solve perf_counter N limit threads
                (perf_counter 0%nat) Hh st0 st' b HN Hinv0 Hit) as Hv.
  destruct Hinv0 as (_ & Hv0 & _). destruct b.
  - apply (static_unsat_always N HN). intros val.
    apply not_true_is_false. intros Hs.
    apply (static_solution_cegar N _ _ _ Hv0) in Hs.
    by rewrite Hv in Hs.
  - destruct Hv as (val & Hsat & Hnone).
    rewrite satisfies_add_constraints, andb_true_iff in Hsat.
    destruct Hsat as [Hbase _].
    destruct (base_model_sound N val HN Hbase) as (Hlen & Hrange & _).
    by exists (solution N val).
Qed.

Section SweepFacts.

Variable Solve : CpModel → Parameters → Response.
Variable perf_counter : nat → Z.
Variable fuel : nat.
Variable args : Args.

Lemma attempt_cache_ok (N : Z) (st : sweep_state) :
  cache_ok (sweep_cache st) →
  cache_ok (sweep_cache (attempt Solve perf_counter fuel args N st).2).
Proof.
  intros Hc. unfold attempt. destruct (args_no_cegar args).
  - pose proof (prove_static_cache_ok Solve (Z.to_nat N) (args_limit args)
                  (args_threads args) _ Hc) as H.
    by destruct (prove_static _ _ _ _ _) as [r cache'].
  - pose proof (prove_with_cegar_cache_ok Solve
                  (fun k => perf_counter (sweep_reads st + k)%nat) fuel
                  (Z.to_nat N) (args_limit args) (args_threads args) _ Hc) as H.
    by destruct (prove_with_cegar _ _ _ _ _ _ _) as [r cst].
Qed.

(** An attempt on [N ≤ 0] raises IndexError. *)
Lemma attempt_nonpositive (N : Z) (st : sweep_state) :
  N ≤ 0 → (0 < fuel)%nat →
  (attempt Solve perf_counter fuel args N st).1 = Some (Raise IndexError).
Proof.
  intros HN Hfuel. unfold attempt.
  replace (Z.to_nat N) with 0%nat by lia.
  destruct (args_no_cegar args); [done|].
  destruct fuel; [lia|]. by rewrite prove_with_cegar_0.
Qed.

(** The log of the loop over any list of integers. *)
Lemma sweep_log (I : sweep_state → Prop) (Ns : list Z) :
  (∀ N st, I st → I (attempt Solve perf_counter fuel args N st).2) →
  ∀ st log st',
    sweep Solve perf_counter fuel args Ns st = (log, st') →
    I st →
    map fst log `prefix_of` Ns
    ∧ (Ns ≠ [] → log ≠ [])
    ∧ ∀ i M r,
        log !! i = Some (M, r) →
        (S i < length log → r = Some (Ok false))%nat
        ∧ (r = Some (Ok false) → S i < length Ns → S i < length log)%nat
        ∧ ∃ st0, I st0
                 ∧ (attempt Solve perf_counter fuel args M st0).1 = r.
Proof.
  intros HI.
  induction Ns as [|N rest IH]; intros st log st' Hsweep Hc; simpl in Hsweep.
  - injection Hsweep as <- <-. split_and!; [done | done |].
    intros i M r Hi. done.
  - pose proof (HI N st Hc) as Hc1.
    destruct (attempt Solve perf_counter fuel args N st) as [r1 st1] eqn:Hat.
    simpl in Hc1.
    assert (Hstop : (log, st') = ([(N, r1)], st1) →
      r1 ≠ Some (Ok false) →
      map fst log `prefix_of` N :: rest
      ∧ (N :: rest ≠ [] → log ≠ [])
      ∧ ∀ i M r,
          log !! i = Some (M, r) →
          (S i < length log → r = Some (Ok false))%nat
          ∧ (r = Some (Ok false) → S i < length (N :: rest) → S i < length log)%nat
          ∧ ∃ st0, I st0
                   ∧ (attempt Solve perf_counter fuel args M st0).1 = r).
    { intros [= -> ->] Hne. split_and!.
      - simpl. by apply prefix_cons, prefix_nil.
      - done.
      - intros i M r Hi. destruct i as [|i]; [|done].
        injection Hi as <- <-. split_and!; [simpl; lia | done |].
        exists st. by rewrite Hat. }
    destruct r1 as [[[|]|e]|]; try (by apply Hstop).
    destruct (sweep Solve perf_counter fuel args rest st1) as [log1 st2] eqn:Hrest.
    injection Hsweep as <- <-.
    destruct (IH st1 log1 st2 Hrest Hc1) as (Hpre & Hne & Hlog).
    split_and!.
    + simpl. by apply prefix_cons.
    + done.
    + intros i M r Hi. destruct i as [|i].
      * injection Hi as <- <-. split_and!; [done | |].
        -- intros _ Hlen. simpl in *.
           destruct rest as [|N' rest']; [simpl in Hlen; lia|].
           destruct log1; [by destruct Hne | simpl; lia].
        -- exists st. by rewrite Hat.
      * simpl in Hi. destruct (Hlog i M r Hi) as (H1 & H2 & H3).
        split_and!; [| | done].
        -- simpl. intros Hlt. apply H1. lia.
        -- simpl. intros Hr Hlt. apply H2 in Hr; lia.
Qed.

End SweepFacts.

(** X22. The sweep of [main]: it tries [N = start, start + 1, ...], never
    beyond [end]; it goes on to the next [N] exactly after an attempt that
    returned [False] (while there is a next one) and stops after any other
    outcome; with [start > end] it tries nothing, and with
    [start ≤ end] and [start ≤ 0] its first attempt raises IndexError, which
    [main] does not catch. *)
Theorem solver_main_log
    (Solve : CpModel → Parameters → Response) (perf_counter : nat → Z)
    (fuel : nat) (args : Args) (st : sweep_state) :
  let log := (solver_main Solve perf_counter fuel args st).1 in
  (∀ i M r, log !! i = Some (M, r) →
            M = args_start args + Z.of_nat i ∧ M ≤ args_end args
            ∧ ((S i < length log)%nat → r = Some (Ok false))
            ∧ (r = Some (Ok false) → M < args_end args →
               (S i < length log)%nat))
  ∧ (log = [] ↔ args_end args < args_start args)
  ∧ (args_start args ≤ args_end args → args_start args ≤ 0 →
     (0 < fuel)%nat →
     log = [(args_start args, Some (Raise IndexError))]).
Proof.
  intros log. unfold solver_main in log.
  set (Ns := range_between (args_start args) (args_end args + 1)) in *.
  destruct (sweep Solve perf_counter fuel args Ns st) as [log0 st'] eqn:Hsweep.
  simpl in log. subst log.
  destruct (sweep_log Solve perf_counter fuel args (fun _ => True) Ns
              ltac:(done) st log0 st' Hsweep I)
    as (Hpre & Hne & Hlog).
  assert (Hlen : length Ns = Z.to_nat (args_end args + 1 - args_start args))
    by apply range_between_length.
  assert (Hpos : ∀ i M r, log0 !! i = Some (M, r) →
            M = args_start args + Z.of_nat i ∧ M ≤ args_end args).
  { intros i M r Hi.
    assert (HM : map fst log0 !! i = Some M)
      by (by rewrite list_lookup_fmap, Hi).
    apply (prefix_lookup_Some _ _ _ _ HM) in Hpre.
    apply range_between_lookup in Hpre. lia. }
  split_and!.
  - intros i M r Hi. destruct (Hpos i M r Hi) as [HM Hle].
    destruct (Hlog i M r Hi) as (H1 & H2 & _).
    split_and!; [done | done | done |].
    intros Hr Hlt. apply H2; [done|]. lia.
  - split.
    + intros ->. destruct (decide (args_end args < args_start args)); [done|].
      exfalso. apply Hne; [|done]. intros HNs. rewrite HNs in Hlen.
      simpl in Hlen. lia.
    + intros Hlt. destruct log0 as [|[M r] log0]; [done|]. exfalso.
      destruct (Hpos 0%nat M r eq_refl). lia.
  - intros Hle H0 Hfuel.
    destruct log0 as [|[M r] log0].
    { exfalso. apply Hne; [|done]. intros HNs. rewrite HNs in Hlen.
      simpl in Hlen. lia. }
    destruct (Hpos 0%nat M r eq_refl) as [HM _].
    destruct (Hlog 0%nat M r eq_refl) as (H1 & _ & st0 & _ & Hat).
    rewrite attempt_nonpositive in Hat by lia. subst r.
    destruct log0 as [|e log0].
    + f_equal. f_equal. lia.
    + exfalso. specialize (H1 ltac:(simpl; lia)). done.
Qed.

(** X23. What the sweep of [main] establishes, when the solver answers
    INFEASIBLE only for problems without solution and reports only
    solutions of the problem: every [N] for which an attempt returned
    [False] has a counterexample, and an [N] for which an attempt returned
    [True] is one for which every sequence of [N] scores between 1 and 100
    has two disjoint 5-element index subsets with equal sums; if it is not
    the first [N] tried, it is the least such [N]. *)
Theorem solver_main_sound
    (Solve : CpModel → Parameters → Response) (perf_counter : nat → Z)
    (fuel : nat) (args : Args) (c : TEAMS_CACHE) (n : nat)
    (i : nat) (M : Z) (b : bool) :
  (∀ N, oracle_honest_on (static_problem N) Solve) →
  (∀ N, oracle_honest_on (cegar_problem N) Solve) →
  cache_ok c →
  (solver_main Solve perf_counter fuel args
     {| sweep_cache := c; sweep_reads := n |}).1 !! i
  = Some (M, Some (Ok b)) →
  1 ≤ M
  ∧ if b
    then always_equal_pair (Z.to_nat M)
         ∧ ((0 < i)%nat →
            ∀ K, always_equal_pair K ↔ (Z.to_nat M ≤ K)%nat)
    else ∃ scores, counterexample (Z.to_nat M) scores.
Proof.
  intros Hstatic Hcegar Hc. unfold solver_main.
  set (st := Build_sweep_state c n).
  set (Ns := range_between (args_start args) (args_end args + 1)).
  destruct (sweep Solve perf_counter fuel args Ns st) as [log st'] eqn:Hsweep.
  simpl. intros Hi.
  destruct (sweep_log Solve perf_counter fuel args
              (fun st => cache_ok (sweep_cache st)) Ns
              (attempt_cache_ok Solve perf_counter fuel args)
              st log st' Hsweep Hc)
    as (Hpre & _ & Hlog).
  assert (Hverdict : ∀ M b st0,
    cache_ok (sweep_cache st0) →
    (attempt Solve perf_counter fuel args M st0).1 = Some (Ok b) →
    (1 ≤ Z.to_nat M)%nat
    ∧ if b then always_equal_pair (Z.to_nat M)
      else ∃ scores, counterexample (Z.to_nat M) scores).
  { intros M0 b0 st0 Hc0 Hat. unfold attempt in Hat.
    destruct (args_no_cegar args).
    - destruct (prove_static Solve (Z.to_nat M0) (args_limit args)
                  (args_threads args) (sweep_cache st0)) as [r c'] eqn:Hrun.
      simpl in Hat. injection Hat as ->.
      apply (static_verdict Solve _ (args_limit args) (args_threads args)
               (sweep_cache st0)); [done | done | by rewrite Hrun].
    - destruct (prove_with_cegar Solve
                  (fun k => perf_counter (sweep_reads st0 + k)%nat) fuel
                  (Z.to_nat M0) (args_limit args) (args_threads args)
                  (sweep_cache st0)) as [r cst] eqn:Hrun.
      simpl in Hat. subst r.
      apply (cegar_verdict Solve
               (fun k => perf_counter (sweep_reads st0 + k)%nat) fuel _
               (args_limit args) (args_threads args) (sweep_cache st0));
        [done | done | by rewrite Hrun]. }
  destruct (Hlog i M _ Hi) as (_ & _ & st0 & Hc0 & Hat).
  destruct (Hverdict M b st0 Hc0 Hat) as [HM Hb].
  split; [lia|]. destruct b; [|done]. split; [done|].
  intros Hpos. destruct i as [|j]; [lia|].
  (* the attempt before returned False, on M - 1 *)
  assert (Hj : ∃ M' r', log !! j = Some (M', r')).
  { destruct (lookup_lt_is_Some_2 log j) as [[M' r'] H'];
      [apply lookup_lt_Some in Hi; lia | eauto]. }
  destruct Hj as (M' & r' & Hj).
  destruct (Hlog j M' r' Hj) as (Hfalse & _ & st1 & Hc1 & Hat1).
  rewrite (Hfalse ltac:(apply lookup_lt_Some in Hi; lia)) in Hat1.
  destruct (Hverdict M' false st1 Hc1 Hat1) as [_ (scores & Hcex)].
  assert (HM' : M' = M - 1).
  { assert (H1 : map fst log !! j = Some M')
      by (by rewrite list_lookup_fmap, Hj).
    assert (H2 : map fst log !! S j = Some M)
      by (by rewrite list_lookup_fmap, Hi).
    apply (prefix_lookup_Some _ _ _ _ H1) in Hpre as H1'.
    apply (prefix_lookup_Some _ _ _ _ H2) in Hpre as H2'.
    apply range_between_lookup in H1', H2'. lia. }
  subst M'.
  apply (always_equal_pair_least (Z.to_nat M) scores); [|done].
  by replace (Z.to_nat M - 1)%nat with (Z.to_nat (M - 1)) by lia.
Qed.

Lemma try_candidates_honest (candidates : list (IntVar → Z))
    (P : CpModel → Prop) :
  oracle_honest_on P (try_candidates candidates).
Proof.
  intros mdl params _. induction candidates as [|val rest IH]; simpl; [done|].
  destruct (satisfies val mdl) eqn:Hs; simpl; [done | exact IH].
Qed.

Lemma solver_main_sound_witness :
  1 ≤ 10 ∧ ∃ scores, counterexample (Z.to_nat 10) scores.
Proof.
  apply (solver_main_sound sample_solver stopped_clock 3 sample_args ∅ 0
           0 10 false).
  - intros N. apply try_candidates_honest.
  - intros N. apply try_candidates_honest.
  - exact cache_ok_empty.
  - vm_compute. reflexivity.
Defined.
